(** * predictionbuy: the stage-2 BUY prediction pipeline

    A shallow embedding of [src/buy_model.py] (the model step, [run]) and of
    [src/orchstrator.py] (the orchestrator, [orchestrator_stage2]), with the
    parts of pandas, xgboost, the file system and MongoDB they touch modelled
    as far as the two files depend on them.

    How the outside is modelled:
    - a frame is a list of labelled columns over a row count; labels may
      repeat (both column lists of the source name relative_volume and
      rsi_x_relative_volume twice), and the order of the columns of the
      fetched frame is immaterial, since both files address columns by
      label;
    - a cell is a number, the missing value, a string, an ObjectId or a
      datetime; a column is of numeric dtype when all its cells are numbers
      or missing;
    - the model is a function from the feature frame to its predictions, or
      to an exception; nothing is assumed on it. [xgb.DMatrix] takes the
      labels of the frame as feature names and rejects names that repeat;
    - the source collection is a list of snapshots, each with an [_id], a
      [symbol] and a [timestamp]; the destination collection is a list of
      documents (field to value) with a flag for its unique index;
    - a run is a function from a state (destination and trace of events so
      far) to an outcome and a state; the outcome tells a normal end from a
      [return] and from an exception that nothing caught;
    - the server is reached for the first time by [create_index]; once that
      went through, reads succeed, and a write fails exactly when the
      environment says that the server rejects the record. *)

From Stdlib Require Import QArith_base Ascii.
From stdpp Require Import gmap strings list fin_maps sorting.
Close Scope Q_scope.

(** ** pandas: cells, columns and frames *)

Module pd.

(** A cell of a frame: a number, the missing value, a string, an ObjectId
    (kept as its hex string) or a datetime. *)
Inductive cell : Type :=
| Num (x : Q)
| NaN
| Str (s : string)
| Oid (hex : string)
| Date (t : Z).

Inductive Dtype : Type := numeric | object.

(** A frame is column-major: [index] rows, and columns in order, each a label
    with its cells. Labels may repeat, as they do in pandas. *)
Record DataFrame : Type := mkDataFrame {
  index : nat;
  columns : list (string * list cell)
}.

Definition numeric_cell (c : cell) : bool :=
  match c with Num _ | NaN => true | _ => false end.

(** The dtype pandas infers for a column of such cells: a float column when
    every cell is a number or missing, an object column otherwise. *)
Definition dtype (s : list cell) : Dtype :=
  if forallb numeric_cell s then numeric else object.

Definition notnull (c : cell) : bool :=
  match c with NaN => false | _ => true end.

Definition labels (df : DataFrame) : list string := (columns df).*1.

(** [df.empty]: some axis has length 0. *)
Definition empty (df : DataFrame) : bool :=
  bool_decide (index df = 0) || bool_decide (columns df = []).

(** [c in df.columns] *)
Definition contains (df : DataFrame) (c : string) : bool :=
  bool_decide (c ∈ labels df).

Definition labelled (c : string) (cols : list (string * list cell))
  : list (string * list cell) :=
  filter (λ p, p.1 = c) cols.

(** [df[c]] for one label: every column that carries the label. One column
    is a Series, several are a sub-frame. *)
Definition getitem (df : DataFrame) (c : string) : list (list cell) :=
  (labelled c (columns df)).*2.

(** [pd.api.types.is_numeric_dtype(df[c])]: the dtype of a Series; a
    sub-frame (a repeated label) has no dtype and is answered [False]. *)
Definition is_numeric_dtype (sel : list (list cell)) : bool :=
  match sel with
  | [s] => match dtype s with numeric => true | object => false end
  | _ => false
  end.

(** [df[c].values] where the label is carried by one column. *)
Definition series (df : DataFrame) (c : string) : list cell :=
  default [] (head (getitem df c)).

(** [df[[c1, ..., cn]]]: for each requested label in turn, the columns that
    carry it. Both files only request labels they have tested or assigned. *)
Definition select (df : DataFrame) (ls : list string) : DataFrame :=
  {| index := index df;
     columns := ls ≫= λ c, labelled c (columns df) |}.

Definition assign (c : string) (vals : list cell)
    (cols : list (string * list cell)) : list (string * list cell) :=
  if bool_decide (c ∈ cols.*1)
  then (λ p : string * list cell, if bool_decide (p.1 = c) then (c, vals) else p) <$> cols
  else cols ++ [(c, vals)].

(** [df[c] = array]: positional; a length that differs from the index raises
    ValueError ([None]). An existing label is overwritten, a new one is
    appended as the last column. *)
Definition setitem (df : DataFrame) (c : string) (vals : list cell)
  : option DataFrame :=
  if bool_decide (length vals = index df)
  then Some {| index := index df; columns := assign c vals (columns df) |}
  else None.

(** [df[c] = scalar]: broadcast over the index. *)
Definition setitem_scalar (df : DataFrame) (c : string) (v : cell) : DataFrame :=
  {| index := index df;
     columns := assign c (replicate (index df) v) (columns df) |}.

Definition fill (v : cell) (c : cell) : cell :=
  match c with NaN => v | _ => c end.

(** [df[c].fillna(v, inplace=True)] *)
Definition fillna (df : DataFrame) (c : string) (v : cell) : DataFrame :=
  {| index := index df;
     columns := (λ p : string * list cell,
                   if bool_decide (p.1 = c) then (p.1, fill v <$> p.2) else p)
                <$> columns df |}.

Fixpoint mask_filter {A : Type} (mask : list bool) (l : list A) : list A :=
  match mask, l with
  | b :: mask', x :: l' =>
      if b then x :: mask_filter mask' l' else mask_filter mask' l'
  | _, _ => []
  end.

(** [df[mask]] for a boolean mask over the rows. *)
Definition loc (df : DataFrame) (mask : list bool) : DataFrame :=
  {| index := length (mask_filter mask (seq 0 (index df)));
     columns := (λ p : string * list cell, (p.1, mask_filter mask p.2))
                <$> columns df |}.

Definition heads (cols : list (string * list cell)) : list (string * cell) :=
  omap (λ p : string * list cell, (λ x, (p.1, x)) <$> head p.2) cols.

Definition tails (cols : list (string * list cell)) : list (string * list cell) :=
  (λ p : string * list cell, (p.1, tail p.2)) <$> cols.

Fixpoint records (n : nat) (cols : list (string * list cell))
  : list (gmap string cell) :=
  match n with
  | O => []
  | S n' => list_to_map (heads cols) :: records n' (tails cols)
  end.

(** [df.to_dict("records")]: one dict per row, label to cell. *)
Definition to_dict_records (df : DataFrame) : list (gmap string cell) :=
  records (index df) (columns df).

(** [pd.DataFrame(list_of_dicts)]: one row per dict, one column per key (here
    in the order of the keys of the map), a key a dict lacks is missing in
    its row. *)
Definition DataFrame_of (rs : list (gmap string cell)) : DataFrame :=
  {| index := length rs;
     columns := (λ c, (c, (λ r : gmap string cell, default NaN (r !! c)) <$> rs))
                <$> remove_dups (rs ≫= λ r, (map_to_list r).*1) |}.

(** [pd.concat(frames, ignore_index=True)]: the rows of the frames in order,
    over the union of their labels; a frame that lacks a label contributes
    missing cells. *)
Definition concat (frames : list DataFrame) : DataFrame :=
  {| index := sum_list (index <$> frames);
     columns := (λ c, (c, frames ≫= λ f,
                            match head (getitem f c) with
                            | Some s => s
                            | None => replicate (index f) NaN
                            end))
                <$> remove_dups (frames ≫= labels) |}.

(** [series.astype(str)] on a column of ObjectIds. *)
Definition astype_str (c : cell) : cell :=
  match c with Oid hex => Str hex | _ => c end.

End pd.

Export pd.

Global Instance Q_eq_dec : EqDecision Q.
Proof. solve_decision. Defined.

Global Instance cell_eq_dec : EqDecision cell.
Proof. solve_decision. Defined.

(** ** The world the two files run in *)

(** A loaded [xgb.Booster]: [model.predict] on the matrix of a feature frame
    answers the predictions, or raises ([None]). Nothing is assumed on how
    many predictions come back. *)
Record Booster : Type := mkBooster {
  predict : DataFrame → option (list cell)
}.

(** What [json.load] finds in a coins file: an array of symbols, or some
    other JSON value. *)
Inductive Json : Type :=
| JList (items : list string)
| JOther.

(** A file, read as JSON and read as a model artifact; [None] is a file
    that the reader rejects. *)
Record File : Type := mkFile {
  as_json : option Json;
  as_model : option Booster
}.

(** One stored feature snapshot: the [_id], [symbol] and [timestamp] fields
    and the remaining fields of the document. *)
Record Snapshot : Type := mkSnapshot {
  snap_id : string;
  snap_symbol : string;
  snap_timestamp : Z;
  snap_fields : gmap string cell
}.

(** The document as the driver hands it over (a dict). *)
Definition to_dict (d : Snapshot) : gmap string cell :=
  <["_id" := Oid (snap_id d)]>
    (<["symbol" := Str (snap_symbol d)]>
       (<["timestamp" := Date (snap_timestamp d)]> (snap_fields d))).

(** Everything the pipeline reads and does not change. The source and the
    destination collection are two collections. *)
Record Env : Type := mkEnv {
  base_dir : string;
  fs : gmap string File;
  server_up : bool;
  source : list Snapshot;
  (** the writes the server rejects *)
  write_fault : gmap string cell → bool
}.

(** The destination collection: its documents, in natural order, and whether
    the unique index on (symbol, prediction) exists. The [_id] the server
    gives an inserted document is left out; nothing reads it. *)
Record Store : Type := mkStore {
  docs : list (gmap string cell);
  unique_index : bool
}.

Inductive Exn : Type :=
| JSONDecodeError
| ServerError
| DuplicateKeyError
| KeyError (k : string)
| ValueError
| XGBoostError.

Inductive Level : Type := ERROR | WARNING | INFO.

(** The log lines of the two files, with what they interpolate. *)
Inductive Message : Type :=
| InputDataMissing
| MissingModelFilePath
| LoadedModel (path : string)
| ErrorLoadingModel (e : Exn)
| NoValidFeatureColumns
| PredictionsGenerated
| ErrorDuringPrediction (e : Exn)
| MissingConfigValues (missing_keys : list string)
| CoinsFileNotFound (path : string)
| ModelFileNotFound (path : string)
| InvalidCoinsList
| Connected (db_name : string)
| ErrorConnecting (e : Exn)
| FetchingLatest (n : nat)
| NoFeatureData (symbol : string)
| NoDataForAnyCoin
| FetchedLatest (n : nat)
| ModelRunFailed (message : string)
| ModelReturnedNoPredictions
| ModelDidNotReturnConfidence
| NoPredictionsWithConfidence
| Saved (n : nat) (collection : string)
| ErrorSaving (e : Exn)
| Completed.

(** What a run does to the outside, in the order it does it. *)
Inductive Event : Type :=
| Log (lvl : Level) (msg : Message)
| PathExists (path : string)
| OpenRead (path : string)
| CreateIndex
| Find (symbol : string)
| UpdateOne (symbol prediction : cell) (record : gmap string cell)
| Close
| LoadModel (path : string)
| Predict (X : DataFrame).

Record State : Type := mkState {
  dest : Store;
  trace : list Event
}.

(** ** A state monad with [return] and exceptions *)

Inductive Outcome (A : Type) : Type :=
| Value (a : A)
| Returned
| Raised (e : Exn).
Arguments Value {A} a.
Arguments Returned {A}.
Arguments Raised {A} e.

Definition M (A : Type) : Type := State → Outcome A * State.

Global Instance M_ret : MRet M := λ A a s, (Value a, s).

Global Instance M_bind : MBind M := λ A B f m s,
  match m s with
  | (Value a, s') => f a s'
  | (Returned, s') => (Returned, s')
  | (Raised e, s') => (Raised e, s')
  end.

(** Python's [return] out of the orchestrator. *)
Definition return_ {A : Type} : M A := λ s, (Returned, s).

Definition raise {A : Type} (e : Exn) : M A := λ s, (Raised e, s).

(** [try: body except Exception as e: handler] *)
Definition try_ {A : Type} (body : M A) (handler : Exn → M A) : M A := λ s,
  match body s with
  | (Raised e, s') => handler e s'
  | r => r
  end.

Definition emit (ev : Event) : M unit := λ s,
  (Value tt, {| dest := dest s; trace := trace s ++ [ev] |}).

Definition log (lvl : Level) (msg : Message) : M unit := emit (Log lvl msg).

Definition get_dest : M Store := λ s, (Value (dest s), s).

Definition put_dest (st : Store) : M unit := λ s,
  (Value tt, {| dest := st; trace := trace s |}).

(** [for x in xs: body(x)] *)
Fixpoint for_ {A : Type} (xs : list A) (body : A → M unit) : M unit :=
  match xs with
  | [] => mret tt
  | x :: xs' => body x ;; for_ xs' body
  end.

(** ** xgboost *)

Module xgb.

(** [model.load_model(path)] *)
Definition load_model (env : Env) (path : string) : M Booster :=
  emit (LoadModel path) ;;
  match fs env !! path ≫= as_model with
  | Some model => mret model
  | None => raise XGBoostError
  end.

(** [xgb.DMatrix(X)]: the feature names of the matrix are the labels of the
    frame; names that repeat are rejected with a ValueError ("feature_names
    must be unique"). *)
Definition DMatrix (X : DataFrame) : M DataFrame :=
  if bool_decide (NoDup (labels X)) then mret X else raise ValueError.

(** [model.predict(dmatrix)] *)
Definition Booster_predict (model : Booster) (dmatrix : DataFrame) : M (list cell) :=
  emit (Predict dmatrix) ;;
  match predict model dmatrix with
  | Some preds => mret preds
  | None => raise XGBoostError
  end.

End xgb.

(** ** buy_model.py *)

Module buy_model.

Definition REQUIRED_COLUMNS : list string :=
  [ "open"; "high"; "low"; "close"; "volume"; "quote_asset_volume";
    "number_of_trades"; "taker_buy_base"; "taker_buy_quote"; "macd";
    "macd_signal"; "macd_histogram"; "rsi"; "rsi_sma"; "ema_100";
    "ema_200"; "atr"; "relative_volume"; "quote_volume_ratio";
    "buy_sell_pressure"; "ema_ratio"; "rsi_x_relative_volume";
    "macd_histogram_x_atr"; "buy_sell_pressure_x_ema_ratio";
    "relative_volume"; "rsi_x_relative_volume" ].

Record Inputs : Type := mkInputs {
  data : option DataFrame;
  model_file : option string
}.

(** The dict [run] returns. *)
Inductive Result : Type :=
| error (message : string)
| success (suggested_trades : DataFrame).

(** [[c for c in REQUIRED_COLUMNS if c in df.columns and
      pd.api.types.is_numeric_dtype(df[c])]] *)
Definition feature_cols (df : DataFrame) : list string :=
  filter (λ c, contains df c && is_numeric_dtype (getitem df c) = true)
         REQUIRED_COLUMNS.

Definition falsy (v : option string) : bool :=
  match v with
  | None => true
  | Some s => bool_decide (s = "")
  end.

(** The [try] block of [run]: predict, then the two column assignments. *)
Definition predict_block (model : Booster) (df X : DataFrame) : M (option DataFrame) :=
  try_
    (dmatrix ← xgb.DMatrix X;
     preds ← xgb.Booster_predict model dmatrix;
     match setitem df "confidence_score" preds with
     | None => raise ValueError
     | Some df1 =>
         let df2 := setitem_scalar df1 "prediction" (Str "BUY") in
         log INFO PredictionsGenerated ;;
         mret (Some df2)
     end)
    (λ e, log ERROR (ErrorDuringPrediction e) ;; mret None).

Definition run (env : Env) (inputs : Inputs) : M Result :=
  match data inputs with
  | None =>
      log ERROR InputDataMissing ;; mret (error "No input data")
  | Some df =>
  if empty df then
      log ERROR InputDataMissing ;; mret (error "No input data")
  else
  if falsy (model_file inputs) then
      log ERROR MissingModelFilePath ;; mret (error "model_file required")
  else
  let path := default "" (model_file inputs) in
  loaded ← try_ (model ← xgb.load_model env path;
                 log INFO (LoadedModel path) ;;
                 mret (Some model))
                (λ e, log ERROR (ErrorLoadingModel e) ;; mret None);
  match loaded with
  | None => mret (error "Failed to load model")
  | Some model =>
  let feature_cols := feature_cols df in
  if bool_decide (feature_cols = []) then
      log ERROR NoValidFeatureColumns ;;
      mret (error "No feature columns available for prediction")
  else
  let X := select df feature_cols in
  scored ← predict_block model df X;
  match scored with
  | None => mret (error "Prediction failed")
  | Some df =>
  let columns_to_return := ["prediction"; "confidence_score"] in
  let df_to_return := select df columns_to_return in
  mret (success df_to_return)
  end end
  end.

End buy_model.

(** ** pymongo, os.path and json, as far as the orchestrator uses them *)

Module mongo.

Fixpoint insert_desc (d : Snapshot) (l : list Snapshot) : list Snapshot :=
  match l with
  | [] => [d]
  | x :: l' =>
      if bool_decide (snap_timestamp x ≤ snap_timestamp d)%Z
      then d :: l
      else x :: insert_desc d l'
  end.

(** [.sort("timestamp", -1)]: descending; documents with one timestamp keep
    their natural order. *)
Definition sort_desc (l : list Snapshot) : list Snapshot :=
  foldr insert_desc [] l.

(** [list(collection.find({"symbol": symbol}).sort("timestamp", -1).limit(1))] *)
Definition find_latest (env : Env) (symbol : string) : M (list Snapshot) :=
  emit (Find symbol) ;;
  mret (take 1 (sort_desc (filter (λ d, snap_symbol d = symbol) (source env)))).

(** The value of the indexed pair in a document. *)
Definition key_of (d : gmap string cell) : option cell * option cell :=
  (d !! "symbol", d !! "prediction").

(** [create_index([("symbol", 1), ("prediction", 1)], unique=True)]: the
    first round trip to the server. It raises when the server cannot be
    reached and when the documents already there repeat a key. *)
Definition create_index (env : Env) : M unit :=
  emit CreateIndex ;;
  if server_up env then
    st ← get_dest;
    if bool_decide (NoDup (key_of <$> docs st))
    then put_dest {| docs := docs st; unique_index := true |}
    else raise DuplicateKeyError
  else raise ServerError.

Definition matches (symbol prediction : cell) (d : gmap string cell) : bool :=
  bool_decide (d !! "symbol" = Some symbol ∧ d !! "prediction" = Some prediction).

(** [$set] on the first document the filter matches. *)
Fixpoint update_first (symbol prediction : cell) (record : gmap string cell)
    (ds : list (gmap string cell)) : option (list (gmap string cell)) :=
  match ds with
  | [] => None
  | d :: ds' =>
      if matches symbol prediction d
      then Some ((record ∪ d) :: ds')
      else (d ::.) <$> update_first symbol prediction record ds'
  end.

(** What [update_one(filter, {"$set": record}, upsert=True)] leaves in the
    collection: the first match with the fields of [record] set, or, without
    a match, a new last document made of the filter and of [record]. *)
Definition upsert (symbol prediction : cell) (record : gmap string cell)
    (ds : list (gmap string cell)) : list (gmap string cell) :=
  match update_first symbol prediction record ds with
  | Some ds' => ds'
  | None => ds ++ [record ∪ {[ "symbol" := symbol; "prediction" := prediction ]}]
  end.

Definition update_one (env : Env) (symbol prediction : cell)
    (record : gmap string cell) : M unit :=
  emit (UpdateOne symbol prediction record) ;;
  if write_fault env record then raise ServerError
  else
    st ← get_dest;
    put_dest {| docs := upsert symbol prediction record (docs st);
                unique_index := unique_index st |}.

End mongo.

Module os.

Definition starts_with_sep (path : string) : bool :=
  match path with
  | String "/"%char _ => true
  | _ => false
  end.

Fixpoint ends_with_sep (path : string) : bool :=
  match path with
  | EmptyString => false
  | String "/"%char EmptyString => true
  | String _ rest => ends_with_sep rest
  end.

(** One step of [posixpath.join]: an absolute component replaces what came
    before it; otherwise it is appended, after a separator unless the path
    so far is empty or ends with one. *)
Definition join2 (path b : string) : string :=
  if starts_with_sep b then b
  else if bool_decide (path = "") || ends_with_sep path then path +:+ b
  else path +:+ "/" +:+ b.

(** [os.path.join(base_dir, "..", name)] *)
Definition path_join (base_dir name : string) : string :=
  join2 (join2 base_dir "..") name.

(** [os.path.exists(path)] *)
Definition path_exists (env : Env) (path : string) : M bool :=
  emit (PathExists path) ;;
  mret (bool_decide (is_Some (fs env !! path))).

End os.

Module json.

(** [with open(path, "r") as f: json.load(f)] *)
Definition load (env : Env) (path : string) : M Json :=
  emit (OpenRead path) ;;
  match fs env !! path ≫= as_json with
  | Some v => mret v
  | None => raise JSONDecodeError
  end.

End json.

(** ** orchstrator.py *)

Module orchestrator.

Import buy_model.

Definition BOUGHT_COLUMNS : list string :=
  [ "open"; "high"; "low"; "close"; "volume";
    "macd";
    "macd_signal"; "macd_histogram"; "rsi"; "rsi_sma"; "ema_100";
    "ema_200"; "atr"; "relative_volume"; "quote_volume_ratio";
    "buy_sell_pressure"; "ema_ratio"; "rsi_x_relative_volume";
    "macd_histogram_x_atr"; "buy_sell_pressure_x_ema_ratio";
    "rsi_x_relative_volume"; "relative_volume" ].

(** Lines 34-41: the keys whose value is missing or empty, in the order of
    the list the loop walks. *)
Definition missing_keys (config : gmap string string) : list string :=
  (filter (λ kv : string * option string, falsy kv.2 = true)
     [ ("connection_str", config !! "connection_str");
       ("db_name", config !! "db_name");
       ("collection_name", config !! "collection_name");
       ("suggested_trades_collection", config !! "suggested_trades_collection");
       ("coins_file", config !! "coins_file");
       ("model_file", config !! "model_file") ]).*1.

(** Lines 86-92: the loop over the coins. *)
Fixpoint fetch (env : Env) (coins : list string) (all_latest_rows : list DataFrame)
  : M (list DataFrame) :=
  match coins with
  | [] => mret all_latest_rows
  | symbol :: coins' =>
      doc ← mongo.find_latest env symbol;
      let df_symbol := DataFrame_of (to_dict <$> doc) in
      if empty df_symbol then
        log WARNING (NoFeatureData symbol) ;;
        fetch env coins' all_latest_rows
      else
        fetch env coins' (all_latest_rows ++ [df_symbol])
  end.

(** Line 104 *)
Definition model_input (df_latest : DataFrame) : DataFrame :=
  select df_latest (filter (λ c, contains df_latest c = true) BOUGHT_COLUMNS).

(** Lines 145-149: the records handed to the writer. *)
Definition records_to_save (suggested_trades : DataFrame) : list (gmap string cell) :=
  let columns_to_save := ["symbol"; "buyid"; "prediction"; "confidence_score"] in
  let df_to_save :=
    select suggested_trades
           (filter (λ c, contains suggested_trades c = true) columns_to_save) in
  to_dict_records df_to_save.

(** Lines 148-159: the write loop inside its [try]. *)
Definition save (env : Env) (collection : string) (records : list (gmap string cell))
  : M unit :=
  try_
    (for_ records (λ record,
       match record !! "symbol", record !! "prediction" with
       | Some symbol, Some prediction =>
           mongo.update_one env symbol prediction record
       | None, _ => raise (KeyError "symbol")
       | _, None => raise (KeyError "prediction")
       end) ;;
     log INFO (Saved (length records) collection))
    (λ e, log ERROR (ErrorSaving e)).

(** Lines 125-128: a prediction column that is missing is added, and a null
    prediction is filled, both with "BUY". *)
Definition default_prediction (suggested_trades : DataFrame) : DataFrame :=
  let suggested_trades :=
    if contains suggested_trades "prediction" then suggested_trades
    else setitem_scalar suggested_trades "prediction" (Str "BUY") in
  fillna suggested_trades "prediction" (Str "BUY").

(** Line 136: the rows whose confidence score is not null. *)
Definition valid_rows (suggested_trades : DataFrame) : DataFrame :=
  loc suggested_trades (notnull <$> series suggested_trades "confidence_score").

(** Lines 122-123: the symbols and the ids of the batch are set on the
    scored frame by position; either assignment raises ValueError ([None])
    when the two frames differ in their number of rows. *)
Definition attach (df_latest suggested_trades : DataFrame) : option DataFrame :=
  suggested_trades ← setitem suggested_trades "symbol" (series df_latest "symbol");
  setitem suggested_trades "buyid" (astype_str <$> series df_latest "_id").

(** Lines 115-162: from the frame the model returned to the end. *)
Definition persist (env : Env) (collection : string)
    (df_latest suggested_trades : DataFrame) : M unit :=
  if empty suggested_trades then
    log WARNING ModelReturnedNoPredictions ;; emit Close ;; return_
  else
  match attach df_latest suggested_trades with
  | None => raise ValueError
  | Some suggested_trades =>
  let suggested_trades := default_prediction suggested_trades in
  if negb (contains suggested_trades "confidence_score") then
    log WARNING ModelDidNotReturnConfidence ;; emit Close ;; return_
  else
  let suggested_trades := valid_rows suggested_trades in
  if empty suggested_trades then
    log WARNING NoPredictionsWithConfidence ;; emit Close ;; return_
  else
  save env collection (records_to_save suggested_trades) ;;
  emit Close ;;
  log INFO Completed
  end.

Definition orchestrator_stage2 (env : Env) (config : gmap string string) : M unit :=
  let connection_str := config !! "connection_str" in
  let db_name := config !! "db_name" in
  let collection_name_str := config !! "collection_name" in
  let suggested_trades_collection_name := config !! "suggested_trades_collection" in
  let coins_file := config !! "coins_file" in
  let model_file := config !! "model_file" in
  let missing_keys := missing_keys config in
  if negb (bool_decide (missing_keys = [])) then
    log ERROR (MissingConfigValues missing_keys) ;; return_
  else
  let coins_file := os.path_join (base_dir env) (default "" coins_file) in
  let model_file := os.path_join (base_dir env) (default "" model_file) in
  coins_found ← os.path_exists env coins_file;
  if negb coins_found then
    log ERROR (CoinsFileNotFound coins_file) ;; return_
  else
  model_found ← os.path_exists env model_file;
  if negb model_found then
    log ERROR (ModelFileNotFound model_file) ;; return_
  else
  coins ← json.load env coins_file;
  match coins with
  | JOther | JList [] => log ERROR InvalidCoinsList ;; return_
  | JList coins =>
  try_ (log INFO (Connected (default "" db_name)) ;;
        mongo.create_index env)
       (λ e, log ERROR (ErrorConnecting e) ;; return_) ;;
  log INFO (FetchingLatest (length coins)) ;;
  all_latest_rows ← fetch env coins [];
  if bool_decide (all_latest_rows = []) then
    log ERROR NoDataForAnyCoin ;; emit Close ;; return_
  else
  let df_latest := concat all_latest_rows in
  log INFO (FetchedLatest (index df_latest)) ;;
  let df_model_input := model_input df_latest in
  let model_input := {| data := Some df_model_input; model_file := Some model_file |} in
  result ← run env model_input;
  match result with
  | error message =>
      log ERROR (ModelRunFailed message) ;; emit Close ;; return_
  | success suggested_trades =>
      persist env (default "" suggested_trades_collection_name)
              df_latest suggested_trades
  end
  end.

End orchestrator.

Import buy_model orchestrator.

(** ** Vocabulary of the statements *)

(** The six keys the orchestrator requires (lines 36-39). *)
Definition required_keys : list string :=
  [ "connection_str"; "db_name"; "collection_name";
    "suggested_trades_collection"; "coins_file"; "model_file" ].

(** A column of [df] that the model step can use: present, and of numeric
    dtype (the test of line 50 of buy_model.py). *)
Definition usable (df : DataFrame) (c : string) : Prop :=
  contains df c && is_numeric_dtype (getitem df c) = true.

Global Instance usable_dec df c : Decision (usable df c).
Proof. unfold usable. apply _. Defined.

(** The two columns that both lists name twice. *)
Definition doubled_columns : list string :=
  [ "relative_volume"; "rsi_x_relative_volume" ].

(** The columns that both lists name, once each, in the order of the
    model's list. *)
Definition scorable_columns : list string :=
  [ "open"; "high"; "low"; "close"; "volume"; "macd";
    "macd_signal"; "macd_histogram"; "rsi"; "rsi_sma"; "ema_100";
    "ema_200"; "atr"; "quote_volume_ratio";
    "buy_sell_pressure"; "ema_ratio";
    "macd_histogram_x_atr"; "buy_sell_pressure_x_ema_ratio" ].

(** The feature matrices of the scoring calls of a trace, in order. *)
Definition scored_matrices (tr : list Event) : list DataFrame :=
  omap (λ ev, match ev with Predict X => Some X | _ => None end) tr.


(** The state after further events. *)
Definition extend (s : State) (tr : list Event) : State :=
  {| dest := dest s; trace := trace s ++ tr |}.

Definition is_update (e : Event) : Prop :=
  match e with UpdateOne _ _ _ => True | _ => False end.

Definition is_predict (e : Event) : Prop :=
  match e with Predict _ => True | _ => False end.

Global Instance is_update_dec e : Decision (is_update e).
Proof. destruct e; simpl; apply _. Defined.

(** The configured paths, as lines 47-49 make them. *)
Definition coins_path (env : Env) (config : gmap string string) : string :=
  os.path_join (base_dir env) (default "" (config !! "coins_file")).

Definition model_path (env : Env) (config : gmap string string) : string :=
  os.path_join (base_dir env) (default "" (config !! "model_file")).

(** The snapshots of a symbol, newest first, and the newest of them. *)
Definition snapshots_of (env : Env) (symbol : string) : list Snapshot :=
  mongo.sort_desc (filter (λ d, snap_symbol d = symbol) (source env)).

(** Descending order of timestamps. *)
Definition newer_first (x y : Snapshot) : Prop :=
  (snap_timestamp y ≤ snap_timestamp x)%Z.

Definition latest (env : Env) (symbol : string) : option Snapshot :=
  head (snapshots_of env symbol).

(** The fetched batch: the newest snapshot of every coin that has one, in
    the order of the coins. *)
Definition batch (env : Env) (coins : list string) : list Snapshot :=
  omap (latest env) coins.

Definition frame_of (d : Snapshot) : DataFrame := DataFrame_of [to_dict d].

(** [df_latest] of line 100, for a batch. *)
Definition latest_frame (b : list Snapshot) : DataFrame :=
  concat (frame_of <$> b).

(** The events of the loop of lines 86-92. *)
Definition fetch_trace (env : Env) (coins : list string) : list Event :=
  coins ≫= λ symbol,
    Find symbol ::
    match latest env symbol with
    | Some _ => []
    | None => [Log WARNING (NoFeatureData symbol)]
    end.


(** The cell of a snapshot under a label, missing when it has none. *)
Definition cell_of (c : string) (d : Snapshot) : cell :=
  default NaN (to_dict d !! c).

(** The feature matrix [X] of line 56 of buy_model.py. *)
Definition feature_matrix (df : DataFrame) : DataFrame :=
  select df (feature_cols df).

(** The frame [run] returns on success (lines 62-63 and 71-72). *)
Definition scored_frame (df : DataFrame) (preds : list cell) : DataFrame :=
  select
    (setitem_scalar
       {| index := index df;
          columns := assign "confidence_score" preds (columns df) |}
       "prediction" (Str "BUY"))
    ["prediction"; "confidence_score"].

(** The record the writer is expected to receive for a snapshot and the
    score at its position. *)
Definition expected_record (d : Snapshot) (score : cell) : gmap string cell :=
  <["symbol" := Str (snap_symbol d)]>
    (<["buyid" := Str (snap_id d)]>
       (<["prediction" := Str "BUY"]>
          (<["confidence_score" := score]> ∅))).

Definition expected_records (b : list Snapshot) (preds : list cell)
  : list (gmap string cell) :=
  (λ p : Snapshot * cell, expected_record p.1 p.2)
    <$> filter (λ p : Snapshot * cell, notnull p.2 = true) (zip b preds).

(** The ways [run] ends, each with the result it returns and the events it
    adds, by the conditions the code tests in turn. *)
Inductive RunCase (env : Env) (inputs : Inputs) : Result → list Event → Prop :=
| run_no_input :
    (data inputs = None ∨ ∃ df, data inputs = Some df ∧ empty df = true) →
    RunCase env inputs (error "No input data") [Log ERROR InputDataMissing]
| run_no_model_file df :
    data inputs = Some df → empty df = false →
    falsy (model_file inputs) = true →
    RunCase env inputs (error "model_file required")
            [Log ERROR MissingModelFilePath]
| run_load_failed df path :
    data inputs = Some df → empty df = false →
    model_file inputs = Some path → path ≠ "" →
    fs env !! path ≫= as_model = None →
    RunCase env inputs (error "Failed to load model")
            [LoadModel path; Log ERROR (ErrorLoadingModel XGBoostError)]
| run_no_features df path model :
    data inputs = Some df → empty df = false →
    model_file inputs = Some path → path ≠ "" →
    fs env !! path ≫= as_model = Some model →
    feature_cols df = [] →
    RunCase env inputs (error "No feature columns available for prediction")
            [LoadModel path; Log INFO (LoadedModel path);
             Log ERROR NoValidFeatureColumns]
| run_names_repeat df path model :
    data inputs = Some df → empty df = false →
    model_file inputs = Some path → path ≠ "" →
    fs env !! path ≫= as_model = Some model →
    feature_cols df ≠ [] →
    ¬ NoDup (labels (feature_matrix df)) →
    RunCase env inputs (error "Prediction failed")
            [LoadModel path; Log INFO (LoadedModel path);
             Log ERROR (ErrorDuringPrediction ValueError)]
| run_predict_raised df path model :
    data inputs = Some df → empty df = false →
    model_file inputs = Some path → path ≠ "" →
    fs env !! path ≫= as_model = Some model →
    feature_cols df ≠ [] →
    NoDup (labels (feature_matrix df)) →
    predict model (feature_matrix df) = None →
    RunCase env inputs (error "Prediction failed")
            [LoadModel path; Log INFO (LoadedModel path);
             Predict (feature_matrix df);
             Log ERROR (ErrorDuringPrediction XGBoostError)]
| run_length_mismatch df path model preds :
    data inputs = Some df → empty df = false →
    model_file inputs = Some path → path ≠ "" →
    fs env !! path ≫= as_model = Some model →
    feature_cols df ≠ [] →
    NoDup (labels (feature_matrix df)) →
    predict model (feature_matrix df) = Some preds →
    length preds ≠ index df →
    RunCase env inputs (error "Prediction failed")
            [LoadModel path; Log INFO (LoadedModel path);
             Predict (feature_matrix df);
             Log ERROR (ErrorDuringPrediction ValueError)]
| run_scored df path model preds :
    data inputs = Some df → empty df = false →
    model_file inputs = Some path → path ≠ "" →
    fs env !! path ≫= as_model = Some model →
    feature_cols df ≠ [] →
    NoDup (labels (feature_matrix df)) →
    predict model (feature_matrix df) = Some preds →
    length preds = index df →
    RunCase env inputs (success (scored_frame df preds))
            [LoadModel path; Log INFO (LoadedModel path);
             Predict (feature_matrix df);
             Log INFO PredictionsGenerated].

(** Everything up to the feature check went through: the configuration is
    complete, both files exist, the coins file holds the non-empty list
    [coins], the server answers and the destination repeats no key, some
    coin has a snapshot, the frame handed to the model is not empty, the
    model loads, and a feature column remains. *)
Record Reconciled (env : Env) (config : gmap string string) (st : Store)
    (coins : list string) (model : Booster) : Prop := {
  rec_config : missing_keys config = [];
  rec_coins_file : fs env !! coins_path env config ≫= as_json = Some (JList coins);
  rec_coins : coins ≠ [];
  rec_server : server_up env = true;
  rec_unique : NoDup (mongo.key_of <$> docs st);
  rec_batch : batch env coins ≠ [];
  rec_input : empty (model_input (latest_frame (batch env coins))) = false;
  rec_model : fs env !! model_path env config ≫= as_model = Some model;
  rec_features :
    feature_cols (model_input (latest_frame (batch env coins))) ≠ []
}.


(** The scoring stage went through as well: the model answered [preds], one
    per row. *)
Record Scored (env : Env) (config : gmap string string) (st : Store)
    (coins : list string) (model : Booster) (preds : list cell) : Prop := {
  sc_reconciled : Reconciled env config st coins model;
  sc_predict :
    predict model (feature_matrix (model_input (latest_frame (batch env coins))))
    = Some preds;
  sc_length : length preds = length (batch env coins)
}.

(** A run that stopped before the scoring stage was through: it returned
    after an ERROR line, or an exception left it; the documents of the
    destination are the ones it found; it sent no write; and it called the
    model only if everything up to the feature check went through. *)
Record CleanAbort (env : Env) (config : gmap string string) (s : State)
    (r : Outcome unit * State) (tr : list Event) : Prop := {
  ca_outcome :
    (r.1 = Returned ∧ ∃ msg, Log ERROR msg ∈ tr) ∨ (∃ e, r.1 = Raised e);
  ca_docs : docs (dest r.2) = docs (dest s);
  ca_trace : trace r.2 = trace s ++ tr;
  ca_no_update : Forall (λ ev, ¬ is_update ev) tr;
  ca_predict : ∀ X, Predict X ∈ tr →
    ∃ coins model, Reconciled env config (dest s) coins model ∧
      X = feature_matrix (model_input (latest_frame (batch env coins)));
  ca_reached : ∀ coins model, Reconciled env config (dest s) coins model →
    Predict (feature_matrix (model_input (latest_frame (batch env coins)))) ∈ tr
}.

(** The state in which the scored frame is handed on (line 115). *)
Definition scored_state (s : State) (tr : list Event) : State :=
  {| dest := {| docs := docs (dest s); unique_index := true |};
     trace := trace s ++ tr |}.

(** A record that carries the two fields of the write filter. *)
Definition keyed (r : gmap string cell) : Prop :=
  is_Some (r !! "symbol") ∧ is_Some (r !! "prediction").

(** The write the loop of line 149 sends for a record. *)
Definition update_event (r : gmap string cell) : Event :=
  UpdateOne (default NaN (r !! "symbol")) (default NaN (r !! "prediction")) r.

(** The collection after the upsert of a record under its own key. *)
Definition upsert_record (ds : list (gmap string cell)) (r : gmap string cell)
  : list (gmap string cell) :=
  mongo.upsert (default NaN (r !! "symbol")) (default NaN (r !! "prediction")) r ds.

(** The records the loop sends: up to and with the first one the server
    rejects. The records it gets written: the ones before that one. *)
Fixpoint attempted (env : Env) (rs : list (gmap string cell))
  : list (gmap string cell) :=
  match rs with
  | [] => []
  | r :: rs' => r :: if write_fault env r then [] else attempted env rs'
  end.

Fixpoint written (env : Env) (rs : list (gmap string cell))
  : list (gmap string cell) :=
  match rs with
  | [] => []
  | r :: rs' => if write_fault env r then [] else r :: written env rs'
  end.

(** The last line the [try] of lines 148-159 logs. *)
Definition save_report (env : Env) (collection : string)
    (rs : list (gmap string cell)) : Event :=
  if existsb (write_fault env) rs
  then Log ERROR (ErrorSaving ServerError)
  else Log INFO (Saved (length rs) collection).

(** The keys of a collection after an upsert under [k]. *)
Definition add_key (k : option cell * option cell)
    (ks : list (option cell * option cell)) : list (option cell * option cell) :=
  if decide (k ∈ ks) then ks else ks ++ [k].

(** How many documents carry a key. *)
Definition count_key (k : option cell * option cell)
    (ds : list (gmap string cell)) : nat :=
  length (filter (λ k', k' = k) (mongo.key_of <$> ds)).

(** The state after [n] runs of the pipeline on one environment. *)
Fixpoint runs (n : nat) (env : Env) (config : gmap string string) (s : State)
  : State :=
  match n with
  | O => s
  | S n' => (orchestrator_stage2 env config (runs n' env config s)).2
  end.

(** What the events before the scored frame are, in a run that got that far:
    no write among them, and the one call of the model, on the feature matrix
    of the batch. *)
Record ScoredTrace (env : Env) (coins : list string) (tr : list Event) : Prop := {
  st_no_update : Forall (λ ev, ¬ is_update ev) tr;
  st_predict : ∀ X, Predict X ∈ tr →
    X = feature_matrix (model_input (latest_frame (batch env coins)));
  st_called :
    Predict (feature_matrix (model_input (latest_frame (batch env coins)))) ∈ tr
}.

(** The three ways a run of the orchestrator ends: stopped before the
    scoring stage was through; scored, with every score null, so that nothing
    is sent; or scored and sent to the writer. *)
Inductive Ending (env : Env) (config : gmap string string) (s : State)
    (r : Outcome unit * State) : Prop :=
| ended_aborted tr :
    CleanAbort env config s r tr →
    Ending env config s r
| ended_unsent tr coins model preds :
    Scored env config (dest s) coins model preds →
    ScoredTrace env coins tr →
    expected_records (batch env coins) preds = [] →
    r = (Returned,
         extend (scored_state s tr) [Log WARNING NoPredictionsWithConfidence; Close]) →
    Ending env config s r
| ended_sent tr coins model preds :
    Scored env config (dest s) coins model preds →
    ScoredTrace env coins tr →
    expected_records (batch env coins) preds ≠ [] →
    r = (Value tt,
         {| dest :=
              {| docs := foldl upsert_record (docs (dest s))
                               (written env (expected_records (batch env coins) preds));
                 unique_index := true |};
            trace :=
              trace s ++ tr
              ++ (update_event <$> attempted env (expected_records (batch env coins) preds))
              ++ [save_report env (default "" (config !! "suggested_trades_collection"))
                              (expected_records (batch env coins) preds);
                  Close; Log INFO Completed] |}) →
    Ending env config s r.

(** ** Example inputs *)

Module ex.


(** A model that scores every row 0.7. *)
Definition flat_model : Booster :=
  {| predict := λ X, Some (replicate (index X) (Num (7 # 10)%Q)) |}.

Definition config : gmap string string :=
  list_to_map
    [ ("connection_str", "mongodb://localhost:27017"); ("db_name", "market");
      ("collection_name", "features");
      ("suggested_trades_collection", "suggested_trades");
      ("coins_file", "coins.json"); ("model_file", "model.json") ].

(** The same configuration with an empty database name and no model file. *)
Definition config_incomplete : gmap string string :=
  delete "model_file" (<["db_name" := ""]> config).

Definition snapshot (id symbol : string) (t : Z) (fields : list (string * cell))
  : Snapshot :=
  {| snap_id := id; snap_symbol := symbol; snap_timestamp := t;
     snap_fields := list_to_map fields |}.

Definition btc_old : Snapshot :=
  snapshot "65a0" "BTCUSDT" 100 [("open", Num (41 # 1)%Q); ("rsi", Num (55 # 1)%Q)].
Definition btc_new : Snapshot :=
  snapshot "65a1" "BTCUSDT" 200
           [("open", Num (42 # 1)%Q); ("rsi", Num (61 # 1)%Q);
            ("number_of_trades", Num (900 # 1)%Q)].
Definition sol : Snapshot :=
  snapshot "65b0" "SOLUSDT" 150 [("open", Num (9 # 1)%Q); ("rsi", Num (40 # 1)%Q)].
Definition ada : Snapshot :=
  snapshot "65c0" "ADAUSDT" 180 [("open", Num (1 # 2)%Q); ("rsi", Num (35 # 1)%Q)].

Definition files (coins : list string) (model : option Booster)
  : gmap string File :=
  list_to_map
    [ ("/app/src/../coins.json", {| as_json := Some (JList coins); as_model := None |});
      ("/app/src/../model.json", {| as_json := None; as_model := model |}) ].

(** BTCUSDT has two snapshots, ETHUSDT has none. *)
Definition env : Env :=
  {| base_dir := "/app/src";
     fs := files ["BTCUSDT"; "ETHUSDT"] (Some flat_model);
     server_up := true;
     source := [btc_old; btc_new];
     write_fault := λ _, false |}.

(** Three coins with a snapshot each; the server rejects the write for
    SOLUSDT. *)
Definition env_fault : Env :=
  {| base_dir := "/app/src";
     fs := files ["BTCUSDT"; "SOLUSDT"; "ADAUSDT"] (Some flat_model);
     server_up := true;
     source := [btc_new; sol; ada];
     write_fault := λ r, bool_decide (r !! "symbol" = Some (Str "SOLUSDT")) |}.




(** The model file is missing. *)
Definition env_no_model : Env :=
  {| base_dir := "/app/src";
     fs := delete "/app/src/../model.json" (files ["BTCUSDT"] None);
     server_up := true;
     source := [btc_new];
     write_fault := λ _, false |}.






(** A model that scores a row with its open price, and three coins listed
    in another order than they are stored. *)
Definition open_model : Booster :=
  {| predict := λ X, Some (series X "open") |}.

Definition env_rows : Env :=
  {| base_dir := "/app/src";
     fs := files ["SOLUSDT"; "BTCUSDT"; "ADAUSDT"] (Some open_model);
     server_up := true;
     source := [btc_old; btc_new; sol; ada];
     write_fault := λ _, false |}.

Definition s0 : State :=
  {| dest := {| docs := []; unique_index := false |}; trace := [] |}.

(** A destination that already holds a suggestion for BTCUSDT. *)
Definition stale : gmap string cell :=
  list_to_map [ ("symbol", Str "BTCUSDT"); ("prediction", Str "BUY");
                ("buyid", Str "6400"); ("confidence_score", Num (1 # 10)%Q);
                ("note", Str "kept") ].

Definition fresh : gmap string cell :=
  list_to_map [ ("symbol", Str "BTCUSDT"); ("prediction", Str "BUY");
                ("buyid", Str "65a1"); ("confidence_score", Num (7 # 10)%Q) ].

End ex.

(** The symbols of the writes in a trace, in order. *)
Definition updated_symbols (tr : list Event) : list cell :=
  omap (λ ev, match ev with UpdateOne symbol _ _ => Some symbol | _ => None end) tr.

(** The ERROR lines of a trace, in order. *)
Definition errors (tr : list Event) : list Message :=
  omap (λ ev, match ev with Log ERROR msg => Some msg | _ => None end) tr.

(** The ways a stage before the scoring stage is through can fail
    (configuration, files, coin list, store, data, features, model). *)
Inductive StageFailure (env : Env) (config : gmap string string) : Prop :=
| fail_config :
    missing_keys config ≠ [] → StageFailure env config
| fail_coins_file :
    fs env !! coins_path env config = None → StageFailure env config
| fail_model_file :
    fs env !! model_path env config = None → StageFailure env config
| fail_coin_list :
    fs env !! coins_path env config ≫= as_json = Some (JList []) ∨
    fs env !! coins_path env config ≫= as_json = Some JOther →
    StageFailure env config
| fail_store :
    server_up env = false → StageFailure env config
| fail_no_data coins :
    fs env !! coins_path env config ≫= as_json = Some (JList coins) →
    batch env coins = [] → StageFailure env config
| fail_no_features coins :
    fs env !! coins_path env config ≫= as_json = Some (JList coins) →
    feature_cols (model_input (latest_frame (batch env coins))) = [] →
    StageFailure env config
| fail_model_load :
    fs env !! model_path env config ≫= as_model = None → StageFailure env config
| fail_prediction coins model :
    fs env !! coins_path env config ≫= as_json = Some (JList coins) →
    fs env !! model_path env config ≫= as_model = Some model →
    predict model (feature_matrix (model_input (latest_frame (batch env coins))))
    = None →
    StageFailure env config
| fail_prediction_count coins model preds :
    fs env !! coins_path env config ≫= as_json = Some (JList coins) →
    fs env !! model_path env config ≫= as_model = Some model →
    predict model (feature_matrix (model_input (latest_frame (batch env coins))))
    = Some preds →
    length preds ≠ length (batch env coins) →
    StageFailure env config.

(** ** Vocabulary of the further properties *)

(** The events of a run up to the scored frame, when every stage went
    through: the two path tests, the read of the coins file, the connection
    and the index, the queries, the load of the model and its call. *)
Definition scored_prefix (env : Env) (config : gmap string string)
    (coins : list string) : list Event :=
  [ PathExists (coins_path env config);
    PathExists (model_path env config);
    OpenRead (coins_path env config);
    Log INFO (Connected (default "" (config !! "db_name")));
    CreateIndex;
    Log INFO (FetchingLatest (length coins)) ]
  ++ fetch_trace env coins
  ++ [ Log INFO (FetchedLatest (length (batch env coins)));
       LoadModel (model_path env config);
       Log INFO (LoadedModel (model_path env config));
       Predict (feature_matrix (model_input (latest_frame (batch env coins))));
       Log INFO PredictionsGenerated ].

(** The symbols queried in a trace, in order. *)
Definition queried (tr : list Event) : list string :=
  omap (λ ev, match ev with Find symbol => Some symbol | _ => None end) tr.

(** The closes of the connection in a trace. *)
Definition is_close (ev : Event) : Prop :=
  match ev with Close => True | _ => False end.

Global Instance is_close_dec ev : Decision (is_close ev).
Proof. destruct ev; simpl; apply _. Defined.

Definition closes (tr : list Event) : list Event := filter is_close tr.

(** A log line. *)
Definition is_log (ev : Event) : Prop :=
  match ev with Log _ _ => True | _ => False end.

(** An event that reaches the store. *)
Definition is_store (ev : Event) : Prop :=
  match ev with
  | CreateIndex | Find _ | UpdateOne _ _ _ | Close => True
  | _ => False
  end.

(** The run gets its connection: the configuration is complete, both files
    exist, the coins file holds a non-empty list, the server answers and the
    destination repeats no key. *)
Definition connects (env : Env) (config : gmap string string) (st : Store) : Prop :=
  missing_keys config = []
  ∧ is_Some (fs env !! coins_path env config)
  ∧ is_Some (fs env !! model_path env config)
  ∧ (∃ coins, fs env !! coins_path env config ≫= as_json = Some (JList coins)
              ∧ coins ≠ [])
  ∧ server_up env = true
  ∧ NoDup (mongo.key_of <$> docs st).

(** The warnings of the two guards on the frame of the model step (lines
    115-119 and 130-134). *)
Definition unreached (ev : Event) : Prop :=
  match ev with
  | Log WARNING ModelReturnedNoPredictions
  | Log WARNING ModelDidNotReturnConfidence => True
  | _ => False
  end.

(** [$set] of a record on a document, when the document carries the
    record's symbol and prediction. *)
Definition set_on (r d : gmap string cell) : gmap string cell :=
  if decide (mongo.key_of d = mongo.key_of r) then r ∪ d else d.

(** A document after the records of a batch were set on it, in order. *)
Definition patch (rs : list (gmap string cell)) (d : gmap string cell)
  : gmap string cell :=
  foldl (λ acc r, set_on r acc) d rs.

(** The records of a batch name the same fields. *)
Definition same_fields (rs : list (gmap string cell)) : Prop :=
  ∀ r r', r ∈ rs → r' ∈ rs → dom r' = dom r.

Module ex2.

(** A model whose every score is missing. *)
Definition null_model : Booster :=
  {| predict := λ X, Some (replicate (index X) NaN) |}.

Definition env_null : Env :=
  {| base_dir := "/app/src";
     fs := ex.files ["BTCUSDT"] (Some null_model);
     server_up := true;
     source := [ex.btc_new];
     write_fault := λ _, false |}.

(** The coins file is not JSON. *)
Definition env_bad_json : Env :=
  {| base_dir := "/app/src";
     fs := list_to_map
             [ ("/app/src/../coins.json", {| as_json := None; as_model := None |});
               ("/app/src/../model.json",
                {| as_json := None; as_model := Some ex.flat_model |}) ];
     server_up := true;
     source := [ex.btc_new];
     write_fault := λ _, false |}.

(** A batch with a relative volume. *)
Definition btc_rv : Snapshot :=
  ex.snapshot "65f0" "BTCUSDT" 300
              [("open", Num (42 # 1)%Q); ("relative_volume", Num (3 # 2)%Q)].

(** A record without a symbol. *)
Definition nameless : gmap string cell :=
  list_to_map [("prediction", Str "BUY"); ("confidence_score", Num (7 # 10)%Q)].

End ex2.

(** ** Frames: labels, selections, assignments *)

Section frames.

Implicit Types (df : DataFrame) (c : string) (cols : list (string * list cell)).

Lemma labelled_label c cols p : p ∈ labelled c cols → p.1 = c ∧ p ∈ cols.
Proof. unfold labelled. rewrite list_elem_of_filter. tauto. Qed.

Lemma labelled_fst c cols : (labelled c cols).*1 = replicate (length (labelled c cols)) c.
Proof.
  unfold labelled. induction cols as [|[c' s] cols IH]; [done|].
  rewrite filter_cons. simpl. case_decide; simpl; [|done]. by subst; f_equal.
Qed.

Lemma labelled_nil_iff c cols : labelled c cols = [] ↔ c ∉ cols.*1.
Proof.
  unfold labelled. induction cols as [|[c' s] cols IH]; simpl.
  - split; [intros _; apply not_elem_of_nil|done].
  - rewrite filter_cons. simpl. rewrite not_elem_of_cons. case_decide; subst.
    + split; [done|]. intros [? _]. done.
    + rewrite IH. split; [intros ?; split; [congruence|done]|tauto].
Qed.

Lemma labelled_NoDup c cols s :
  NoDup cols.*1 → (c, s) ∈ cols → labelled c cols = [(c, s)].
Proof.
  unfold labelled. induction cols as [|[c' s'] cols IH]; simpl.
  - intros _ H. by apply elem_of_nil in H.
  - intros [Hnotin Hnd]%NoDup_cons [Heq|Hin]%elem_of_cons.
    + injection Heq as -> ->. rewrite filter_cons_True by done. f_equal.
      by apply (labelled_nil_iff c' cols).
    + rewrite filter_cons_False; [by apply IH|]. simpl. intros ->.
      apply Hnotin. apply list_elem_of_fmap. by exists (c, s).
Qed.

Lemma labels_select df ls c :
  c ∈ labels (select df ls) ↔ c ∈ ls ∧ c ∈ labels df.
Proof.
  unfold labels, select. simpl. rewrite !list_elem_of_fmap. split.
  - intros [p [-> Hp]]. apply list_elem_of_bind in Hp as [c' [Hp Hc']].
    apply labelled_label in Hp as [<- Hp]. split; [done|]. by exists p.
  - intros [Hc [p [-> Hp]]]. exists p. split; [done|].
    apply list_elem_of_bind. exists p.1. split; [|done].
    unfold labelled. by apply list_elem_of_filter.
Qed.

Lemma contains_true df c : contains df c = true ↔ c ∈ labels df.
Proof. unfold contains. apply bool_decide_eq_true. Qed.

Lemma labels_select_NoDup df ls :
  NoDup (labels df) → (∀ c, c ∈ ls → c ∈ labels df) →
  labels (select df ls) = ls.
Proof.
  unfold labels, select. simpl. intros Hnd. induction ls as [|c ls IH]; [done|].
  intros Hin. rewrite bind_cons, fmap_app, IH.
  - assert (c ∈ (columns df).*1) as Hc by (apply Hin; left).
    apply list_elem_of_fmap in Hc as [[c' s] [-> Hc]].
    by rewrite (labelled_NoDup _ _ s).
  - intros c' Hc'. apply Hin. by right.
Qed.

End frames.

(** ** Filters *)

Lemma filter_none {A} (P : A → Prop) `{!∀ x, Decision (P x)} (l : list A) :
  Forall (λ x, ¬ P x) l → filter P l = [].
Proof.
  induction 1 as [|x l Hx _ IH]; [done|].
  by rewrite filter_cons, decide_False.
Qed.

Lemma filter_all {A} (P : A → Prop) `{!∀ x, Decision (P x)} (l : list A) :
  Forall P l → filter P l = l.
Proof.
  induction 1 as [|x l Hx _ IH]; [done|].
  by rewrite filter_cons, decide_True, IH.
Qed.

(** ** The feature list of the model step *)

Lemma elem_of_feature_cols df c :
  c ∈ feature_cols df ↔ c ∈ REQUIRED_COLUMNS ∧ usable df c.
Proof. unfold feature_cols, usable. rewrite list_elem_of_filter. tauto. Qed.

Lemma usable_contains df c : usable df c → c ∈ labels df.
Proof.
  unfold usable. rewrite andb_true_iff. intros [H _]. by apply contains_true.
Qed.


(** ** Running the monad *)

Lemma extend_nil s : extend s [] = s.
Proof. destruct s. unfold extend. simpl. by rewrite app_nil_r. Qed.

Lemma extend_extend s tr1 tr2 : extend (extend s tr1) tr2 = extend s (tr1 ++ tr2).
Proof. unfold extend. simpl. by rewrite app_assoc. Qed.

Lemma bind_value {A B} (m : M A) (f : A → M B) s a s' :
  m s = (Value a, s') → (m ≫= f) s = f a s'.
Proof. unfold mbind, M_bind. by intros ->. Qed.

Lemma bind_returned {A B} (m : M A) (f : A → M B) s s' :
  m s = (Returned, s') → (m ≫= f) s = (Returned, s').
Proof. unfold mbind, M_bind. by intros ->. Qed.

Lemma bind_raised {A B} (m : M A) (f : A → M B) s e s' :
  m s = (Raised e, s') → (m ≫= f) s = (Raised e, s').
Proof. unfold mbind, M_bind. by intros ->. Qed.

Lemma emit_extend ev s : emit ev s = (Value tt, extend s [ev]).
Proof. done. Qed.

Lemma log_extend lvl msg s : log lvl msg s = (Value tt, extend s [Log lvl msg]).
Proof. done. Qed.

(** Unfolds the monad's operations and computes. *)
Ltac mrun :=
  unfold mbind, M_bind, mret, M_ret, try_, raise, return_, log, emit,
         get_dest, put_dest, extend in *;
  simpl in *.

(** ** What [run] does, case by case *)

Lemma run_cases env inputs s :
  ∃ res tr, run env inputs s = (Value res, extend s tr) ∧ RunCase env inputs res tr.
Proof.
  unfold run. destruct (data inputs) as [df|] eqn:Hdf.
  2:{ eexists _, _. split; [done|]. constructor. by left. }
  destruct (empty df) eqn:Hempty.
  { eexists _, _. split; [done|]. constructor. right. by exists df. }
  destruct (falsy (model_file inputs)) eqn:Hfalsy.
  { eexists _, _. split; [done|]. by eapply run_no_model_file. }
  destruct (model_file inputs) as [path|] eqn:Hpath; [|done]. simpl in *.
  apply bool_decide_eq_false in Hfalsy.
  unfold xgb.load_model.
  destruct (fs env !! path ≫= as_model) as [model|] eqn:Hmodel.
  2:{ eexists _, _. split; [mrun; by rewrite <- !app_assoc|].
      by eapply run_load_failed. }
  destruct (decide (feature_cols df = [])) as [Hfc|Hfc].
  { eexists _, _. split.
    - mrun. rewrite bool_decide_eq_true_2 by done.
      simpl. by rewrite <- !app_assoc.
    - by eapply run_no_features. }
  unfold predict_block, xgb.DMatrix, xgb.Booster_predict.
  fold (feature_matrix df).
  destruct (decide (NoDup (labels (feature_matrix df)))) as [Hnd|Hnd].
  2:{ eexists _, _. split.
      - mrun. rewrite bool_decide_eq_false_2 by done.
        rewrite (bool_decide_eq_false_2 (NoDup _)) by done.
        simpl. by rewrite <- !app_assoc.
      - by eapply run_names_repeat. }
  destruct (predict model (feature_matrix df)) as [preds|] eqn:Hpreds.
  2:{ eexists _, _. split.
      - mrun. rewrite bool_decide_eq_false_2 by done.
        rewrite (bool_decide_eq_true_2 (NoDup _)) by done.
        simpl. rewrite ?Hpreds. simpl. by rewrite <- !app_assoc.
      - by eapply run_predict_raised. }
  destruct (decide (length preds = index df)) as [Hlen|Hlen].
  - eexists _, _. split.
    + mrun. rewrite bool_decide_eq_false_2 by done.
      rewrite (bool_decide_eq_true_2 (NoDup _)) by done.
      simpl. rewrite ?Hpreds. simpl. unfold setitem.
      rewrite bool_decide_eq_true_2 by done. simpl. by rewrite <- !app_assoc.
    + by eapply run_scored.
  - eexists _, _. split.
    + mrun. rewrite bool_decide_eq_false_2 by done.
      rewrite (bool_decide_eq_true_2 (NoDup _)) by done.
      simpl. rewrite ?Hpreds. simpl. unfold setitem.
      rewrite bool_decide_eq_false_2 by done. simpl. by rewrite <- !app_assoc.
    + by eapply run_length_mismatch.
Qed.

(** ** The frame of a fetched batch *)

Section latest_frame.

Implicit Types (d : Snapshot) (b : list Snapshot) (c : string).

Lemma labelled_tabulate c (g : string → list cell) (L : list string) :
  NoDup L →
  labelled c ((λ c, (c, g c)) <$> L) = if decide (c ∈ L) then [(c, g c)] else [].
Proof.
  intros Hnd.
  assert (((λ c, (c, g c)) <$> L).*1 = L) as Hfst.
  { rewrite <- list_fmap_compose. clear. induction L; simpl; [done|by f_equal]. }
  case_decide as Hc.
  - apply labelled_NoDup; [by rewrite Hfst|].
    apply list_elem_of_fmap. by exists c.
  - apply labelled_nil_iff. by rewrite Hfst.
Qed.

Lemma to_dict_id d : to_dict d !! "_id" = Some (Oid (snap_id d)).
Proof. unfold to_dict. by rewrite lookup_insert_eq. Qed.

Lemma to_dict_symbol d : to_dict d !! "symbol" = Some (Str (snap_symbol d)).
Proof.
  unfold to_dict. rewrite lookup_insert_ne by done. by rewrite lookup_insert_eq.
Qed.

Lemma labels_frame_of d c : c ∈ labels (frame_of d) ↔ is_Some (to_dict d !! c).
Proof.
  unfold labels, frame_of, DataFrame_of. simpl.
  rewrite <- list_fmap_compose, list_elem_of_fmap. split.
  - intros [c' [-> Hc]]. simpl. rewrite elem_of_remove_dups in Hc.
    rewrite app_nil_r in Hc. apply list_elem_of_fmap in Hc as [[k v] [-> Hkv]].
    apply elem_of_map_to_list in Hkv. by exists v.
  - intros [v Hv]. exists c. split; [done|]. apply elem_of_remove_dups.
    rewrite app_nil_r. apply list_elem_of_fmap. exists (c, v). split; [done|].
    by apply elem_of_map_to_list.
Qed.

Lemma frame_of_not_empty d : empty (frame_of d) = false.
Proof.
  assert (columns (frame_of d) ≠ []) as Hne.
  { intros Hnil. assert ("_id" ∈ labels (frame_of d)) as Hin.
    { apply labels_frame_of. rewrite to_dict_id. by eexists. }
    unfold labels in Hin. rewrite Hnil in Hin. by apply elem_of_nil in Hin. }
  unfold empty. by rewrite (bool_decide_eq_false_2 (columns _ = [])) by done.
Qed.

Lemma head_getitem_frame_of d c :
  match head (getitem (frame_of d) c) with
  | Some s => s
  | None => replicate (index (frame_of d)) NaN
  end = [cell_of c d].
Proof.
  unfold getitem, frame_of, DataFrame_of, cell_of. simpl.
  rewrite (labelled_tabulate c (λ c, [default NaN (to_dict d !! c)]))
    by apply NoDup_remove_dups.
  case_decide as Hc; [done|]. simpl.
  destruct (to_dict d !! c) as [v|] eqn:Hv; [|done].
  exfalso. apply Hc. apply elem_of_remove_dups. rewrite app_nil_r.
  apply list_elem_of_fmap. exists (c, v). split; [done|].
  by apply elem_of_map_to_list.
Qed.

Lemma index_latest_frame b : index (latest_frame b) = length b.
Proof.
  unfold latest_frame, concat. simpl. induction b as [|d b IH]; [done|].
  rewrite !fmap_cons. simpl. by f_equal.
Qed.

Lemma columns_latest_frame b :
  columns (latest_frame b) =
  (λ c, (c, cell_of c <$> b)) <$> remove_dups ((frame_of <$> b) ≫= labels).
Proof.
  unfold latest_frame, concat. simpl. apply list_fmap_ext. intros _ c _.
  f_equal. induction b as [|d b IH]; [done|].
  rewrite fmap_cons, bind_cons, IH. by rewrite head_getitem_frame_of.
Qed.

Lemma labels_latest_frame b c :
  c ∈ labels (latest_frame b) ↔ ∃ d, d ∈ b ∧ is_Some (to_dict d !! c).
Proof.
  unfold labels. rewrite columns_latest_frame, <- list_fmap_compose.
  rewrite list_elem_of_fmap. split.
  - intros [c' [-> Hc]]. simpl. rewrite elem_of_remove_dups in Hc.
    apply list_elem_of_bind in Hc as [f [Hc Hf]].
    apply list_elem_of_fmap in Hf as [d [-> Hd]].
    exists d. split; [done|]. by apply labels_frame_of.
  - intros [d [Hd Hc]]. exists c. split; [done|]. apply elem_of_remove_dups.
    apply list_elem_of_bind. exists (frame_of d).
    split; [by apply labels_frame_of|]. by apply list_elem_of_fmap_2.
Qed.

Lemma NoDup_labels_latest_frame b : NoDup (labels (latest_frame b)).
Proof.
  unfold labels. rewrite columns_latest_frame, <- list_fmap_compose.
  rewrite (list_fmap_ext _ id) by done.
  rewrite list_fmap_id. apply NoDup_remove_dups.
Qed.

Lemma labelled_latest_frame b c :
  c ∈ labels (latest_frame b) →
  labelled c (columns (latest_frame b)) = [(c, cell_of c <$> b)].
Proof.
  intros Hc. apply labelled_NoDup; [apply NoDup_labels_latest_frame|].
  rewrite columns_latest_frame. apply list_elem_of_fmap. exists c.
  split; [done|]. unfold labels in Hc.
  rewrite columns_latest_frame, <- list_fmap_compose in Hc.
  apply list_elem_of_fmap in Hc as [c' [-> Hc]]. done.
Qed.

Lemma series_latest_frame b c :
  (∀ d, d ∈ b → is_Some (to_dict d !! c)) →
  series (latest_frame b) c = cell_of c <$> b.
Proof.
  intros Hall. destruct b as [|d b]; [done|].
  unfold series, getitem. rewrite labelled_latest_frame; [done|].
  apply labels_latest_frame. exists d. split; [left|apply Hall; left].
Qed.

Lemma series_symbol b :
  series (latest_frame b) "symbol" = (λ d, Str (snap_symbol d)) <$> b.
Proof.
  rewrite series_latest_frame.
  - apply list_fmap_ext. intros _ d _. unfold cell_of. by rewrite to_dict_symbol.
  - intros d _. rewrite to_dict_symbol. by eexists.
Qed.

Lemma series_buyid b :
  astype_str <$> series (latest_frame b) "_id" = (λ d, Str (snap_id d)) <$> b.
Proof.
  rewrite series_latest_frame.
  - rewrite <- list_fmap_compose. apply list_fmap_ext. intros _ d _.
    simpl. unfold cell_of. by rewrite to_dict_id.
  - intros d _. rewrite to_dict_id. by eexists.
Qed.

End latest_frame.

(** ** The newest snapshot of a symbol *)

Section newest.

Implicit Types (d x : Snapshot) (l : list Snapshot).

Lemma insert_desc_perm d l : mongo.insert_desc d l ≡ₚ d :: l.
Proof.
  induction l as [|x l IH]; simpl; [done|].
  case_bool_decide; [done|]. rewrite IH. apply Permutation_swap.
Qed.

Lemma sort_desc_perm l : mongo.sort_desc l ≡ₚ l.
Proof.
  induction l as [|d l IH]; simpl; [done|].
  rewrite insert_desc_perm. by f_equiv.
Qed.

Lemma insert_desc_sorted d l :
  StronglySorted newer_first l → StronglySorted newer_first (mongo.insert_desc d l).
Proof.
  induction 1 as [|x l Hs IH Hx]; simpl.
  - repeat constructor.
  - case_bool_decide as Hle.
    + constructor; [by constructor|]. constructor; [done|].
      eapply Forall_impl; [exact Hx|]. unfold newer_first. intros; lia.
    + constructor; [done|]. rewrite insert_desc_perm.
      constructor; [|done]. unfold newer_first. lia.
Qed.

Lemma sort_desc_sorted l : StronglySorted newer_first (mongo.sort_desc l).
Proof.
  induction l as [|d l IH]; simpl; [constructor|by apply insert_desc_sorted].
Qed.

Lemma snapshots_of_elem env symbol d :
  d ∈ snapshots_of env symbol ↔ d ∈ source env ∧ snap_symbol d = symbol.
Proof.
  unfold snapshots_of. rewrite sort_desc_perm, list_elem_of_filter. tauto.
Qed.

Lemma latest_None env symbol :
  latest env symbol = None ↔ ∀ d, d ∈ source env → snap_symbol d ≠ symbol.
Proof.
  unfold latest. split.
  - intros Hhead d Hd Hsym.
    assert (d ∈ snapshots_of env symbol) as Hin by by apply snapshots_of_elem.
    destruct (snapshots_of env symbol); [by apply elem_of_nil in Hin|done].
  - intros Hall. destruct (snapshots_of env symbol) as [|d l] eqn:Heq; [done|].
    assert (d ∈ snapshots_of env symbol) as Hin by (rewrite Heq; left).
    apply snapshots_of_elem in Hin as [Hd Hsym]. by destruct (Hall d Hd).
Qed.

Lemma latest_Some env symbol d :
  latest env symbol = Some d →
  d ∈ source env ∧ snap_symbol d = symbol ∧
  ∀ x, x ∈ source env → snap_symbol x = symbol →
       (snap_timestamp x ≤ snap_timestamp d)%Z.
Proof.
  unfold latest. intros Hhead.
  pose proof (sort_desc_sorted
                (filter (λ d, snap_symbol d = symbol) (source env))) as Hs.
  fold (snapshots_of env symbol) in Hs.
  destruct (snapshots_of env symbol) as [|d' l] eqn:Heq; [done|].
  injection Hhead as ->.
  assert (d ∈ snapshots_of env symbol) as Hin by (rewrite Heq; left).
  apply snapshots_of_elem in Hin as [Hd Hsym]. split_and!; [done..|].
  intros x Hx Hxs.
  assert (x ∈ snapshots_of env symbol) as Hxin by by apply snapshots_of_elem.
  rewrite Heq in Hxin. apply elem_of_cons in Hxin as [->|Hxin]; [done|].
  apply StronglySorted_inv in Hs as [_ Hall].
  rewrite Forall_forall in Hall. by apply Hall.
Qed.

Lemma find_latest_run env symbol s :
  mongo.find_latest env symbol s =
  (Value (take 1 (snapshots_of env symbol)), extend s [Find symbol]).
Proof. done. Qed.

Lemma fetch_run env coins acc s :
  fetch env coins acc s =
  (Value (acc ++ (frame_of <$> batch env coins)), extend s (fetch_trace env coins)).
Proof.
  revert acc s. induction coins as [|symbol coins IH]; intros acc s.
  - simpl. unfold mret, M_ret. by rewrite app_nil_r, extend_nil.
  - assert (batch env (symbol :: coins) =
            match latest env symbol with
            | Some d => d :: batch env coins
            | None => batch env coins
            end) as -> by done.
    assert (fetch_trace env (symbol :: coins) =
            (Find symbol ::
             match latest env symbol with
             | Some _ => []
             | None => [Log WARNING (NoFeatureData symbol)]
             end) ++ fetch_trace env coins) as -> by done.
    unfold latest. cbn [fetch]. erewrite bind_value by apply find_latest_run.
    destruct (snapshots_of env symbol) as [|d l]; simpl.
    + erewrite bind_value by apply log_extend.
      by rewrite IH, !extend_extend.
    + fold (frame_of d). rewrite frame_of_not_empty.
      rewrite IH, extend_extend. by rewrite <- app_assoc.
Qed.

Lemma batch_skips env coins1 symbol coins2 :
  latest env symbol = None →
  batch env (coins1 ++ symbol :: coins2) = batch env (coins1 ++ coins2).
Proof.
  intros Hnone. unfold batch. rewrite !omap_app. simpl. by rewrite Hnone.
Qed.

Lemma elem_of_batch env coins d :
  d ∈ batch env coins ↔ ∃ symbol, symbol ∈ coins ∧ latest env symbol = Some d.
Proof. unfold batch. apply list_elem_of_omap. Qed.

End newest.

(** ** The frame the model step returns *)

Section scored.

Implicit Types (df : DataFrame) (c : string) (cols : list (string * list cell)).

Lemma labelled_app c cols1 cols2 :
  labelled c (cols1 ++ cols2) = labelled c cols1 ++ labelled c cols2.
Proof. apply filter_app. Qed.

Lemma labelled_overwrite c v cols :
  labelled c ((λ p : string * list cell,
                 if bool_decide (p.1 = c) then (c, v) else p) <$> cols)
  = replicate (length (labelled c cols)) (c, v).
Proof.
  unfold labelled. induction cols as [|[c' s] cols IH]; [done|].
  rewrite fmap_cons, !filter_cons. simpl. case_bool_decide; simpl.
  - rewrite !decide_True by done. simpl. by f_equal.
  - by rewrite !decide_False by done.
Qed.

Lemma labelled_assign_same c v cols :
  labelled c (assign c v cols) = replicate (length (labelled c cols) `max` 1) (c, v).
Proof.
  unfold assign. case_bool_decide as Hc.
  - rewrite labelled_overwrite.
    destruct (labelled c cols) eqn:Heq; [|by rewrite Nat.max_l by (simpl; lia)].
    by apply labelled_nil_iff in Heq.
  - rewrite labelled_app. apply labelled_nil_iff in Hc. rewrite Hc. simpl.
    unfold labelled. by rewrite filter_cons_True, filter_nil by done.
Qed.

Lemma labelled_overwrite_other c c' v cols :
  c ≠ c' →
  labelled c ((λ p : string * list cell,
                 if bool_decide (p.1 = c') then (c', v) else p) <$> cols)
  = labelled c cols.
Proof.
  intros Hne. unfold labelled. induction cols as [|[c0 s] cols IH]; [done|].
  rewrite fmap_cons, !filter_cons, IH. simpl.
  case_bool_decide; simpl; [|done]. subst.
  by rewrite !decide_False by done.
Qed.

Lemma labelled_assign_other c c' v cols :
  c ≠ c' → labelled c (assign c' v cols) = labelled c cols.
Proof.
  intros Hne. unfold assign. case_bool_decide.
  - by apply labelled_overwrite_other.
  - rewrite labelled_app. unfold labelled at 2.
    rewrite filter_cons_False by (simpl; congruence).
    by rewrite filter_nil, app_nil_r.
Qed.

(** The columns of the returned frame: the prediction columns, all "BUY",
    then the score columns, all the predictions in their order. *)
Lemma columns_scored_frame df preds :
  columns (scored_frame df preds) =
  replicate (length (labelled "prediction" (columns df)) `max` 1)
            ("prediction", replicate (index df) (Str "BUY"))
  ++ replicate (length (labelled "confidence_score" (columns df)) `max` 1)
               ("confidence_score", preds).
Proof.
  unfold scored_frame, select, setitem_scalar. simpl.
  rewrite app_nil_r, labelled_assign_same.
  rewrite (labelled_assign_other "prediction") by done.
  rewrite (labelled_assign_other "confidence_score") by done.
  by rewrite labelled_assign_same.
Qed.

Lemma index_scored_frame df preds : index (scored_frame df preds) = index df.
Proof. done. Qed.

Lemma series_scored_frame df preds :
  series (scored_frame df preds) "confidence_score" = preds ∧
  series (scored_frame df preds) "prediction" = replicate (index df) (Str "BUY").
Proof.
  unfold series, getitem. rewrite columns_scored_frame, !labelled_app.
  destruct (length (labelled "prediction" (columns df)) `max` 1) as [|k1] eqn:H1;
    [lia|].
  destruct (length (labelled "confidence_score" (columns df)) `max` 1)
    as [|k2] eqn:H2; [lia|].
  split.
  - assert (labelled "confidence_score"
              (replicate (S k1) ("prediction", replicate (index df) (Str "BUY")))
            = []) as ->.
    { apply labelled_nil_iff. rewrite fmap_replicate.
      intros [Heq _]%elem_of_replicate. done. }
    done.
  - done.
Qed.

Lemma scored_frame_fresh df preds :
  "prediction" ∉ labels df → "confidence_score" ∉ labels df →
  scored_frame df preds =
  {| index := index df;
     columns := [("prediction", replicate (index df) (Str "BUY"));
                 ("confidence_score", preds)] |}.
Proof.
  intros Hp Hc. apply labelled_nil_iff in Hp, Hc.
  change (scored_frame df preds)
    with {| index := index df; columns := columns (scored_frame df preds) |}.
  by rewrite columns_scored_frame, Hp, Hc.
Qed.

Lemma model_input_labels df_latest c :
  c ∈ labels (model_input df_latest) → c ∈ BOUGHT_COLUMNS ∧ c ∈ labels df_latest.
Proof.
  unfold model_input. rewrite labels_select, list_elem_of_filter. tauto.
Qed.

Lemma model_input_scored df_latest preds :
  scored_frame (model_input df_latest) preds =
  {| index := index df_latest;
     columns := [("prediction", replicate (index df_latest) (Str "BUY"));
                 ("confidence_score", preds)] |}.
Proof.
  rewrite scored_frame_fresh; [done|..];
    intros [Hin _]%model_input_labels; revert Hin;
    apply (bool_decide_unpack _); vm_compute; exact I.
Qed.

End scored.

(** ** From the scored frame to the records of the writer *)

Section to_records.

Implicit Types (d : Snapshot) (b : list Snapshot) (preds : list cell).

Lemma expected_records_cons d b sc preds :
  expected_records (d :: b) (sc :: preds) =
  if notnull sc then expected_record d sc :: expected_records b preds
  else expected_records b preds.
Proof.
  unfold expected_records. simpl. rewrite filter_cons. simpl.
  by destruct (notnull sc).
Qed.

Lemma expected_records_nil_r b : expected_records b [] = [].
Proof. by destruct b. Qed.

Lemma records_expected b preds k :
  length preds = length b →
  records
    (length (mask_filter (notnull <$> preds) (seq k (length b))))
    [ ("symbol", mask_filter (notnull <$> preds) ((λ d, Str (snap_symbol d)) <$> b));
      ("buyid", mask_filter (notnull <$> preds) ((λ d, Str (snap_id d)) <$> b));
      ("prediction", mask_filter (notnull <$> preds) (replicate (length b) (Str "BUY")));
      ("confidence_score", mask_filter (notnull <$> preds) preds) ]
  = expected_records b preds.
Proof.
  revert preds k. induction b as [|d b IH]; intros [|sc preds] k Hlen;
    try done.
  rewrite expected_records_cons. simpl in Hlen.
  rewrite !fmap_cons. cbn [length seq replicate mask_filter].
  destruct (notnull sc) eqn:Hsc.
  - cbn [length records]. f_equal. apply IH. lia.
  - apply IH. lia.
Qed.

Lemma length_expected_records b preds k :
  length preds = length b →
  length (mask_filter (notnull <$> preds) (seq k (length b)))
  = length (expected_records b preds).
Proof.
  revert preds k. induction b as [|d b IH]; intros [|sc preds] k Hlen;
    try done.
  rewrite expected_records_cons. simpl in Hlen.
  rewrite !fmap_cons. cbn [length seq mask_filter].
  destruct (notnull sc); cbn [length]; rewrite IH by lia; done.
Qed.

Lemma records_to_save_four n pred conf sym ids :
  records_to_save
    {| index := n;
       columns := [("prediction", pred); ("confidence_score", conf);
                   ("symbol", sym); ("buyid", ids)] |}
  = records n [("symbol", sym); ("buyid", ids);
               ("prediction", pred); ("confidence_score", conf)].
Proof. reflexivity. Qed.

End to_records.

(** ** The columns a run can score *)

Section scorable.

Implicit Types (df df_latest : DataFrame) (c : string).

Lemma labelled_labelled c c' (cols : list (string * list cell)) :
  labelled c (labelled c' cols) = if decide (c' = c) then labelled c cols else [].
Proof.
  unfold labelled. rewrite list_filter_filter. case_decide as Heq.
  - subst. apply list_filter_iff. intros p. tauto.
  - induction cols as [|p cols IH]; [done|].
    rewrite filter_cons, IH. rewrite decide_False; [done|]. intros [? ?].
    congruence.
Qed.

Lemma labelled_select c df ls :
  labelled c (columns (select df ls))
  = filter (λ x, x = c) ls ≫= λ _, labelled c (columns df).
Proof.
  unfold select. simpl. induction ls as [|c' ls IH]; [done|].
  rewrite bind_cons, labelled_app, IH, labelled_labelled, filter_cons.
  case_decide; [by rewrite bind_cons|done].
Qed.

Lemma filter_eq_and (P : string → Prop) `{!∀ x, Decision (P x)} c (l : list string) :
  filter (λ x, x = c ∧ P x) l = if decide (P c) then filter (λ x, x = c) l else [].
Proof.
  induction l as [|x l IH]; [by case_decide|].
  rewrite !filter_cons, IH. destruct (decide (P c)) as [Hp|Hp].
  - destruct (decide (x = c)) as [->|Hne].
    + by rewrite decide_True.
    + by rewrite decide_False by tauto.
  - rewrite decide_False; [done|]. intros [-> ?]. done.
Qed.

Lemma getitem_model_input_twice df_latest c :
  c ∈ ["relative_volume"; "rsi_x_relative_volume"] →
  getitem (model_input df_latest) c
  = if contains df_latest c then getitem df_latest c ++ getitem df_latest c
    else [].
Proof.
  intros Hc. unfold getitem, model_input. rewrite labelled_select.
  rewrite list_filter_filter, filter_eq_and.
  assert (filter (λ x, x = c) BOUGHT_COLUMNS = [c; c]) as ->.
  { repeat (apply elem_of_cons in Hc as [->|Hc]; [by vm_compute|]).
    by apply elem_of_nil in Hc. }
  destruct (contains df_latest c) eqn:He.
  - rewrite decide_True by done.
    rewrite !bind_cons. simpl. rewrite app_nil_r. by rewrite fmap_app.
  - by rewrite decide_False.
Qed.

Lemma bought_cases c :
  c ∈ BOUGHT_COLUMNS → c ∈ doubled_columns ∨ c ∈ scorable_columns.
Proof.
  intros Hc. unfold BOUGHT_COLUMNS in Hc.
  repeat (apply elem_of_cons in Hc as [->|Hc];
          [first [left; apply list_elem_of_In; simpl; tauto
                 |right; apply list_elem_of_In; simpl; tauto]|]).
  by apply elem_of_nil in Hc.
Qed.

Lemma scorable_bought c :
  c ∈ scorable_columns →
  c ∈ REQUIRED_COLUMNS ∧ c ∈ BOUGHT_COLUMNS ∧ (c ∉ doubled_columns)
  ∧ filter (λ x, x = c) BOUGHT_COLUMNS = [c].
Proof.
  intros Hc. unfold scorable_columns in Hc.
  repeat (apply elem_of_cons in Hc as [->|Hc];
          [split_and!;
           [apply list_elem_of_In; simpl; tauto
           |apply list_elem_of_In; simpl; tauto
           |apply (bool_decide_unpack _); vm_compute; exact I
           |by vm_compute]|]).
  by apply elem_of_nil in Hc.
Qed.

Lemma doubled_not_usable df_latest c :
  c ∈ doubled_columns → ¬ usable (model_input df_latest) c.
Proof.
  intros Hc Hu. unfold usable in Hu.
  apply andb_true_iff in Hu as [Hin Hnum].
  apply contains_true, model_input_labels in Hin as [_ Hin].
  rewrite getitem_model_input_twice in Hnum by done.
  rewrite (proj2 (contains_true _ _) Hin) in Hnum.
  unfold labels, getitem in *.
  apply list_elem_of_fmap in Hin as [[c' col] [-> Hin]]. simpl in *.
  assert ((c', col) ∈ labelled c' (columns df_latest)) as Hl
    by (unfold labelled; by apply list_elem_of_filter).
  destruct (labelled c' (columns df_latest)) as [|p [|q l]];
    [by apply elem_of_nil in Hl|done..].
Qed.

Lemma getitem_model_input_once df_latest c :
  c ∈ scorable_columns →
  getitem (model_input df_latest) c = getitem df_latest c.
Proof.
  intros (_ & _ & _ & Hone)%scorable_bought.
  unfold getitem, model_input. rewrite labelled_select.
  rewrite list_filter_filter, filter_eq_and, Hone.
  destruct (contains df_latest c) eqn:He.
  - rewrite decide_True by done. rewrite bind_cons. simpl. by rewrite app_nil_r.
  - rewrite decide_False by done. simpl.
    assert (labelled c (columns df_latest) = []) as ->; [|done].
    apply labelled_nil_iff. intros Hin.
    apply contains_true in Hin. congruence.
Qed.

(** The columns the model step finds usable in the projected frame are the
    scorable columns that are usable in the batch. *)
Lemma usable_model_input df_latest c :
  usable (model_input df_latest) c ↔ c ∈ scorable_columns ∧ usable df_latest c.
Proof.
  split.
  - intros Hu. pose proof Hu as Hin%usable_contains.
    apply model_input_labels in Hin as [Hb Hin].
    apply bought_cases in Hb as [Hd|Hs]; [by apply doubled_not_usable in Hu|].
    split; [done|]. unfold usable in *.
    rewrite getitem_model_input_once in Hu by done.
    apply andb_true_iff in Hu as [_ Hnum].
    apply andb_true_iff. split; [by apply contains_true|done].
  - intros [Hs Hu]. unfold usable in *.
    rewrite getitem_model_input_once by done.
    apply andb_true_iff in Hu as [Hin Hnum].
    apply andb_true_iff. split; [|done].
    apply contains_true. unfold model_input. apply labels_select.
    split; [|by apply contains_true].
    apply list_elem_of_filter. split; [done|]. by apply scorable_bought.
Qed.

Lemma feature_cols_model_input df_latest :
  feature_cols (model_input df_latest)
  = filter (λ c, usable df_latest c) scorable_columns.
Proof.
  unfold feature_cols. fold (usable (model_input df_latest)).
  rewrite (list_filter_iff _ (λ c, usable df_latest c ∧ c ∈ scorable_columns))
    by (intros c; rewrite usable_model_input; tauto).
  rewrite <- list_filter_filter.
  by assert (filter (λ c, c ∈ scorable_columns) REQUIRED_COLUMNS
             = scorable_columns) as -> by by vm_compute.
Qed.

Lemma labels_select_once df (ls : list string) :
  (∀ c, c ∈ ls → length (labelled c (columns df)) = 1) →
  labels (select df ls) = ls.
Proof.
  unfold labels, select. simpl. induction ls as [|c ls IH]; intros Hone; [done|].
  rewrite bind_cons, fmap_app, IH by (intros c' Hc'; apply Hone; by right).
  rewrite labelled_fst, (Hone c) by left. done.
Qed.

Lemma labels_feature_matrix_eq df : labels (feature_matrix df) = feature_cols df.
Proof.
  unfold feature_matrix. apply labels_select_once.
  intros c [_ Hu]%elem_of_feature_cols. unfold usable in Hu.
  apply andb_true_iff in Hu as [_ Hnum]. unfold getitem in Hnum.
  rewrite <- (length_fmap snd).
  by destruct ((labelled c (columns df)).*2) as [|x [|y l]].
Qed.

Lemma feature_matrix_unique df_latest :
  NoDup (labels (feature_matrix (model_input df_latest))).
Proof.
  rewrite labels_feature_matrix_eq, feature_cols_model_input.
  apply NoDup_filter. apply (bool_decide_unpack _). by vm_compute.
Qed.

End scorable.

Lemma persist_scored env collection b preds s :
  b ≠ [] → length preds = length b →
  persist env collection (latest_frame b)
          {| index := index (latest_frame b);
             columns := [("prediction", replicate (index (latest_frame b)) (Str "BUY"));
                         ("confidence_score", preds)] |} s
  = if bool_decide (expected_records b preds = [])
    then (Returned, extend s [Log WARNING NoPredictionsWithConfidence; Close])
    else (save env collection (expected_records b preds) ;;
          emit Close ;; log INFO Completed) s.
Proof.
  intros Hb Hlen. unfold persist, attach.
  rewrite series_symbol, series_buyid, index_latest_frame.
  assert (empty {| index := length b;
                   columns := [("prediction", replicate (length b) (Str "BUY"));
                               ("confidence_score", preds)] |} = false) as ->.
  { unfold empty. simpl. rewrite bool_decide_eq_false_2; [done|].
    by destruct b. }
  unfold setitem. simpl. rewrite !length_fmap.
  rewrite bool_decide_eq_true_2 by done. simpl.
  rewrite bool_decide_eq_true_2 by done. unfold default_prediction, valid_rows.
  simpl.
  set (st4 := fillna _ _ _).
  assert (st4 = {| index := length b;
                   columns := [("prediction", replicate (length b) (Str "BUY"));
                               ("confidence_score", preds);
                               ("symbol", (λ d, Str (snap_symbol d)) <$> b);
                               ("buyid", (λ d, Str (snap_id d)) <$> b)] |}) as ->.
  { unfold st4, fillna. simpl. by rewrite fmap_replicate. }
  change (series _ "confidence_score") with preds.
  unfold loc. cbn [index columns fmap list_fmap fst snd].
  rewrite records_to_save_four, records_expected by done.
  unfold empty. cbn [index columns].
  rewrite length_expected_records by done.
  rewrite (bool_decide_eq_false_2 (_ = [])) by done. rewrite orb_false_r.
  destruct (expected_records b preds) as [|r rs] eqn:Hrs; simpl; [|done].
  mrun. by rewrite <- app_assoc.
Qed.

(** ** The orchestrator up to the scored frame *)

Lemma path_exists_run env path s :
  os.path_exists env path s =
  (Value (bool_decide (is_Some (fs env !! path))), extend s [PathExists path]).
Proof. done. Qed.

Lemma json_load_value env path v s :
  fs env !! path ≫= as_json = Some v →
  json.load env path s = (Value v, extend s [OpenRead path]).
Proof. intros H. unfold json.load. rewrite H. done. Qed.

Lemma json_load_raised env path s :
  fs env !! path ≫= as_json = None →
  json.load env path s = (Raised JSONDecodeError, extend s [OpenRead path]).
Proof. intros H. unfold json.load. rewrite H. done. Qed.

Lemma connect_run env name s :
  try_ (log INFO (Connected name) ;; mongo.create_index env)
       (λ e, log ERROR (ErrorConnecting e) ;; return_) s
  = if server_up env then
      if bool_decide (NoDup (mongo.key_of <$> docs (dest s)))
      then (Value tt, scored_state s [Log INFO (Connected name); CreateIndex])
      else (Returned, extend s [Log INFO (Connected name); CreateIndex;
                                Log ERROR (ErrorConnecting DuplicateKeyError)])
    else (Returned, extend s [Log INFO (Connected name); CreateIndex;
                              Log ERROR (ErrorConnecting ServerError)]).
Proof.
  unfold mongo.create_index, scored_state. mrun.
  destruct (server_up env); simpl.
  - case_bool_decide; simpl; by rewrite <- !app_assoc.
  - by rewrite <- !app_assoc.
Qed.

Lemma fetch_trace_quiet env coins ev :
  ev ∈ fetch_trace env coins → ¬ is_update ev ∧ ¬ is_predict ev.
Proof.
  unfold fetch_trace. intros [symbol [Hev _]]%list_elem_of_bind.
  apply elem_of_cons in Hev as [->|Hev]; [simpl; tauto|].
  destruct (latest env symbol); [by apply elem_of_nil in Hev|].
  apply list_elem_of_singleton in Hev as ->. simpl. tauto.
Qed.

Lemma extend_scored_state s tr tr' :
  extend (scored_state s tr) tr' = scored_state s (tr ++ tr').
Proof. unfold extend, scored_state. simpl. by rewrite app_assoc. Qed.

Lemma scored_state_extend s tr tr' :
  scored_state (extend s tr) tr' = scored_state s (tr ++ tr').
Proof. unfold extend, scored_state. simpl. by rewrite app_assoc. Qed.

Lemma run_case_quiet env inputs res trr :
  RunCase env inputs res trr → Forall (λ ev, ¬ is_update ev) trr.
Proof. destruct 1; repeat constructor; simpl; tauto. Qed.

Lemma run_case_predict env df path res trr X :
  RunCase env {| data := Some df; model_file := Some path |} res trr →
  Predict X ∈ trr →
  X = feature_matrix df ∧ empty df = false ∧ feature_cols df ≠ [] ∧
  ∃ model, fs env !! path ≫= as_model = Some model.
Proof.
  intros Hcase HX.
  destruct Hcase; simplify_eq/=;
    repeat (apply elem_of_cons in HX as [HX|HX]; [simplify_eq|]);
    try (by apply elem_of_nil in HX); eauto.
Qed.

Lemma run_case_success env df path st trr :
  RunCase env {| data := Some df; model_file := Some path |} (success st) trr →
  ∃ model preds,
    empty df = false ∧ fs env !! path ≫= as_model = Some model ∧
    feature_cols df ≠ [] ∧ predict model (feature_matrix df) = Some preds ∧
    length preds = index df ∧ st = scored_frame df preds.
Proof.
  inversion 1; simplify_eq/=. eexists _, _. split_and!; eauto.
Qed.


Lemma append_nonempty_l (s1 s2 : string) : s1 ≠ "" → s1 +:+ s2 ≠ "".
Proof. by destruct s1. Qed.

Lemma append_nonempty_r (s1 s2 : string) : s2 ≠ "" → s1 +:+ s2 ≠ "".
Proof. by destruct s1. Qed.

Lemma join2_nonempty path b : path ≠ "" ∨ b ≠ "" → os.join2 path b ≠ "".
Proof.
  unfold os.join2. intros Hne.
  destruct (os.starts_with_sep b) eqn:Hb; [by destruct b|].
  destruct (bool_decide (path = "") || os.ends_with_sep path).
  - destruct Hne; [by apply append_nonempty_l|by apply append_nonempty_r].
  - by apply append_nonempty_r, append_nonempty_l.
Qed.

Lemma path_join_nonempty base name : os.path_join base name ≠ "".
Proof.
  unfold os.path_join. apply join2_nonempty. left.
  apply join2_nonempty. by right.
Qed.

Lemma run_case_reached env df path model res trr :
  RunCase env {| data := Some df; model_file := Some path |} res trr →
  path ≠ "" → empty df = false →
  fs env !! path ≫= as_model = Some model → feature_cols df ≠ [] →
  NoDup (labels (feature_matrix df)) →
  Predict (feature_matrix df) ∈ trr.
Proof.
  intros Hcase Hpath Hin Hm Hfc Hnd.
  destruct Hcase as [Hno|df0 ? ? Hfalsy| | | | | | ]; simplify_eq/=;
    try (apply list_elem_of_In; simpl; tauto).
  - destruct Hno as [?|(df0 & ? & ?)]; simplify_eq. congruence.
  - by apply bool_decide_eq_true in Hfalsy.
Qed.

(** Closes a branch in which the run stopped early. *)
Ltac clean_abort :=
  eexists; left; constructor; simpl; cycle 2;
  [ rewrite <- ?app_assoc; simpl; reflexivity
  | repeat constructor; simpl; tauto
  | intros ? HX; repeat (apply elem_of_cons in HX as [HX|HX]; [done|]);
    by apply elem_of_nil in HX
  | intros ? ? []; exfalso;
    repeat match goal with
           | H : fs _ !! _ = _, H' : context [fs _ !! _] |- _ => rewrite H in H'
           end;
    simpl in *; congruence
  | first [ left; split; [done|]; eexists; apply list_elem_of_In; simpl; tauto
          | right; by eexists ]
  | done ].

Section prelude.

Local Arguments fetch : simpl never.
Local Arguments run : simpl never.
Local Arguments persist : simpl never.

Lemma stage2_prelude env config s r :
  orchestrator_stage2 env config s = r →
  ∃ tr,
    CleanAbort env config s r tr
    ∨ ∃ coins model preds,
        Scored env config (dest s) coins model preds
        ∧ Forall (λ ev, ¬ is_update ev) tr
        ∧ (∀ X, Predict X ∈ tr →
             X = feature_matrix (model_input (latest_frame (batch env coins))))
        ∧ Predict (feature_matrix (model_input (latest_frame (batch env coins)))) ∈ tr
        ∧ r = persist env (default "" (config !! "suggested_trades_collection"))
                      (latest_frame (batch env coins))
                      (scored_frame (model_input (latest_frame (batch env coins))) preds)
                      (scored_state s tr).
Proof.
  unfold orchestrator_stage2. intros Hr.
  destruct (decide (missing_keys config = [])) as [Hcfg|Hcfg].
  2:{ rewrite bool_decide_eq_false_2 in Hr by done. subst r. clean_abort. }
  rewrite bool_decide_eq_true_2 in Hr by done. simpl in Hr.
  fold (coins_path env config) (model_path env config) in Hr.
  erewrite bind_value in Hr by apply path_exists_run.
  destruct (fs env !! coins_path env config) as [fcoins|] eqn:Hcoins; simpl in Hr.
  2:{ subst r. clean_abort. }
  erewrite bind_value in Hr by apply path_exists_run.
  destruct (fs env !! model_path env config) as [fmodel|] eqn:Hmodel; simpl in Hr.
  2:{ subst r. clean_abort. }
  destruct (as_json fcoins) as [[coins|]|] eqn:Hjson.
  3:{ erewrite bind_raised in Hr
        by (apply json_load_raised; by rewrite Hcoins; simpl).
      subst r. clean_abort. }
  2:{ erewrite bind_value in Hr
        by (apply json_load_value; by rewrite Hcoins; simpl).
      subst r. clean_abort. }
  erewrite bind_value in Hr by (apply json_load_value; by rewrite Hcoins; simpl).
  destruct (decide (coins = [])) as [->|Hne].
  { subst r. clean_abort. }
  destruct coins as [|c coins']; [done|]. cbv beta iota in Hr.
  set (coins := c :: coins') in *. clearbody coins. clear c coins'.
  rewrite !extend_extend in Hr. simpl app in Hr.
  destruct (server_up env) eqn:Hup.
  2:{ erewrite bind_returned in Hr by (rewrite connect_run, Hup; reflexivity).
      subst r. clean_abort. }
  destruct (decide (NoDup (mongo.key_of <$> docs (dest s)))) as [Hnd|Hnd].
  2:{ erewrite bind_returned in Hr
        by (rewrite connect_run, Hup; simpl;
            rewrite bool_decide_eq_false_2 by done; reflexivity).
      subst r. clean_abort. }
  erewrite bind_value in Hr
    by (rewrite connect_run, Hup; simpl;
        rewrite bool_decide_eq_true_2 by done; reflexivity).
  erewrite bind_value in Hr by apply log_extend.
  erewrite bind_value in Hr by apply fetch_run.
  rewrite app_nil_l in Hr. fold (latest_frame (batch env coins)) in Hr.
  rewrite scored_state_extend, !extend_scored_state in Hr. simpl app in Hr.
  pose proof (fetch_trace_quiet env coins) as Hquiet.
  set (ft := fetch_trace env coins) in *. clearbody ft.
  match type of Hr with _ (scored_state s ?l) = _ => set (T := l) in * end.
  assert (Forall (λ ev, ¬ is_update ev) T) as HT1.
  { unfold T. repeat (apply Forall_cons; split; [simpl; tauto|]).
    apply Forall_forall. intros ev Hev. by apply Hquiet in Hev as [? _]. }
  assert (∀ X, Predict X ∉ T) as HT2.
  { unfold T. intros X HX.
    repeat (apply elem_of_cons in HX as [HX|HX]; [done|]).
    apply Hquiet in HX as [_ HX]. by apply HX. }
  clearbody T. clear Hquiet ft.
  destruct (decide (batch env coins = [])) as [Hb|Hb].
  { rewrite Hb in Hr. simpl in Hr. subst r.
    exists (T ++ [Log ERROR NoDataForAnyCoin; Close]). left.
    constructor; simpl.
    - left. split; [done|]. eexists. apply elem_of_app. right. left.
    - done.
    - by rewrite <- !app_assoc.
    - apply Forall_app. split; [done|]. repeat constructor; simpl; tauto.
    - intros X [HX|HX]%elem_of_app; [by apply HT2 in HX|].
      repeat (apply elem_of_cons in HX as [HX|HX]; [done|]).
      by apply elem_of_nil in HX.
    - intros coins0 model0 []. exfalso.
      rewrite Hcoins in *. simpl in *. congruence. }
  rewrite bool_decide_eq_false_2 in Hr by (by destruct (batch env coins)).
  erewrite bind_value in Hr by apply log_extend.
  rewrite extend_scored_state in Hr.
  destruct (run_cases env
              {| data := Some (model_input (latest_frame (batch env coins)));
                 model_file := Some (model_path env config) |}
              (scored_state s (T ++
                 [Log INFO (FetchedLatest
                    (sum_list (index <$> (frame_of <$> batch env coins))))])))
    as (res & trr & Hrun & Hcase).
  erewrite bind_value in Hr by exact Hrun.
  rewrite extend_scored_state, <- app_assoc in Hr. simpl app in Hr.
  pose proof (run_case_quiet _ _ _ _ Hcase) as Hq1.
  pose proof (λ X, run_case_predict _ _ _ _ _ X Hcase) as Hq2.
  assert (∀ X, Predict X ∈ trr →
            ∃ coins model, Reconciled env config (dest s) coins model ∧
              X = feature_matrix (model_input (latest_frame (batch env coins))))
    as Hq3.
  { intros X HX. apply Hq2 in HX as (-> & Hin & Hfc & model & Hm).
    exists coins, model. split; [|done].
    constructor; try done. by rewrite Hcoins. }
  destruct res as [message|suggested_trades].
  - subst r.
    eexists (T ++ Log INFO (FetchedLatest _) :: trr
               ++ [Log ERROR (ModelRunFailed message); Close]).
    left. constructor; simpl.
    + left. split; [done|]. exists (ModelRunFailed message).
      rewrite elem_of_app, elem_of_cons, elem_of_app, elem_of_cons. tauto.
    + done.
    + rewrite <- ?app_assoc. simpl. by rewrite <- ?app_assoc.
    + apply Forall_app. split; [done|]. apply Forall_cons. split; [simpl; tauto|].
      apply Forall_app. split; [done|]. repeat constructor; simpl; tauto.
    + intros X [HX|HX]%elem_of_app; [by apply HT2 in HX|].
      apply elem_of_cons in HX as [HX|HX]; [done|].
      apply elem_of_app in HX as [HX|HX]; [by apply Hq3|].
      repeat (apply elem_of_cons in HX as [HX|HX]; [done|]).
      by apply elem_of_nil in HX.
    + intros coins0 model0 [].
      assert (coins0 = coins) as ->
        by (rewrite Hcoins in *; simpl in *; congruence).
      rewrite elem_of_app, elem_of_cons, elem_of_app. right. right. left.
      eapply run_case_reached; eauto using path_join_nonempty, feature_matrix_unique.
  - pose proof Hcase as Hcase'. apply run_case_success in Hcase
      as (model & preds & Hin & Hm & Hfc & Hp & Hlen & ->).
    eexists (T ++ Log INFO (FetchedLatest _) :: trr). right.
    exists coins, model, preds. split_and!.
    + constructor; [|done|].
      * constructor; try done. by rewrite Hcoins.
      * rewrite Hlen. apply index_latest_frame.
    + apply Forall_app. split; [done|]. apply Forall_cons. split; [simpl; tauto|].
      done.
    + intros X [HX|HX]%elem_of_app; [by apply HT2 in HX|].
      apply elem_of_cons in HX as [HX|HX]; [done|].
      by apply Hq2 in HX as [-> _].
    + rewrite elem_of_app, elem_of_cons. right. right.
      eapply run_case_reached; eauto using path_join_nonempty, feature_matrix_unique.
    + done.
Qed.

End prelude.

(** ** The write loop *)

Section writer.

Implicit Types (r : gmap string cell) (rs ds : list (gmap string cell)).

Lemma update_one_run env sy pr r s :
  mongo.update_one env sy pr r s
  = if write_fault env r
    then (Raised ServerError, extend s [UpdateOne sy pr r])
    else (Value tt,
          {| dest := {| docs := mongo.upsert sy pr r (docs (dest s));
                        unique_index := unique_index (dest s) |};
             trace := trace s ++ [UpdateOne sy pr r] |}).
Proof. unfold mongo.update_one. mrun. by destruct (write_fault env r). Qed.

Lemma loop_run env rs s :
  Forall keyed rs →
  for_ rs (λ record,
     match record !! "symbol", record !! "prediction" with
     | Some symbol, Some prediction =>
         mongo.update_one env symbol prediction record
     | None, _ => raise (KeyError "symbol")
     | _, None => raise (KeyError "prediction")
     end) s
  = (if existsb (write_fault env) rs then Raised ServerError else Value tt,
     {| dest := {| docs := foldl upsert_record (docs (dest s)) (written env rs);
                   unique_index := unique_index (dest s) |};
        trace := trace s ++ (update_event <$> attempted env rs) |}).
Proof.
  intros Hk. revert s. induction Hk as [|r rs [[sy Hsy] [pr Hpr]] Hk IH]; intros s.
  - simpl. unfold mret, M_ret. destruct s as [[ds ui] tr]. simpl.
    by rewrite app_nil_r.
  - cbn [for_ existsb attempted written].
    assert (update_event r = UpdateOne sy pr r) as Hev
      by (unfold update_event; by rewrite Hsy, Hpr).
    assert (∀ ds, upsert_record ds r = mongo.upsert sy pr r ds) as Hup
      by (intros; unfold upsert_record; by rewrite Hsy, Hpr).
    destruct (write_fault env r) eqn:Hf.
    + erewrite bind_raised
        by (rewrite Hsy, Hpr, update_one_run, Hf; reflexivity).
      destruct s as [[ds ui] tr]. simpl. by rewrite Hev.
    + erewrite bind_value
        by (rewrite Hsy, Hpr, update_one_run, Hf; reflexivity).
      rewrite IH. simpl. rewrite Hup, Hev, <- app_assoc. done.
Qed.

Lemma save_run env collection rs s :
  Forall keyed rs →
  save env collection rs s
  = (Value tt,
     {| dest := {| docs := foldl upsert_record (docs (dest s)) (written env rs);
                   unique_index := unique_index (dest s) |};
        trace := trace s ++ (update_event <$> attempted env rs)
                         ++ [save_report env collection rs] |}).
Proof.
  intros Hk. unfold save, try_, save_report.
  destruct (existsb (write_fault env) rs) eqn:Hf.
  - erewrite bind_raised by (rewrite loop_run, Hf by done; reflexivity).
    mrun. by rewrite <- app_assoc.
  - erewrite bind_value by (rewrite loop_run, Hf by done; reflexivity).
    mrun. by rewrite <- app_assoc.
Qed.

End writer.

(** ** Upserts and the keys of the destination *)

Section upsert.

Context (sy pr : cell) (r : gmap string cell).
Hypothesis Hsy : r !! "symbol" = Some sy.
Hypothesis Hpr : r !! "prediction" = Some pr.

Implicit Types (d : gmap string cell) (ds : list (gmap string cell)).

Lemma matches_key d : mongo.matches sy pr d = true ↔ mongo.key_of d = (Some sy, Some pr).
Proof.
  unfold mongo.matches, mongo.key_of. rewrite bool_decide_eq_true.
  split; [by intros [-> ->]|]. by intros [= -> ->].
Qed.

Lemma matches_key_false d :
  mongo.matches sy pr d = false ↔ mongo.key_of d ≠ (Some sy, Some pr).
Proof. rewrite <- matches_key. by destruct (mongo.matches sy pr d). Qed.

Lemma key_of_set d : mongo.key_of (r ∪ d) = (Some sy, Some pr).
Proof.
  unfold mongo.key_of.
  rewrite !lookup_union_l' by (rewrite ?Hsy, ?Hpr; by eexists).
  by rewrite Hsy, Hpr.
Qed.

Lemma set_fields d f v : r !! f = Some v → (r ∪ d) !! f = Some v.
Proof. intros H. rewrite lookup_union_l' by (rewrite H; by eexists). done. Qed.

Lemma kept_fields d f : r !! f = None → (r ∪ d) !! f = d !! f.
Proof. intros H. by rewrite lookup_union_r. Qed.

Lemma filter_is_subset : r ∪ {[ "symbol" := sy; "prediction" := pr ]} = r.
Proof.
  apply map_eq. intros f. destruct (r !! f) as [v|] eqn:Hf.
  - by apply set_fields.
  - rewrite lookup_union_r by done.
    destruct (decide (f = "symbol")) as [->|?]; [congruence|].
    rewrite lookup_insert_ne by done.
    destruct (decide (f = "prediction")) as [->|?]; [congruence|].
    by rewrite lookup_singleton_ne by done.
Qed.

Lemma update_first_None ds :
  mongo.update_first sy pr r ds = None ↔
  ∀ d, d ∈ ds → mongo.matches sy pr d = false.
Proof.
  induction ds as [|d ds IH]; simpl.
  - split; [intros _ d Hd; by apply elem_of_nil in Hd|done].
  - destruct (mongo.matches sy pr d) eqn:Hm.
    + split; [done|]. intros H. assert (d ∈ d :: ds) as Hd by left.
      apply H in Hd. congruence.
    + rewrite fmap_None, IH. split.
      * intros H d' [->|Hd']%elem_of_cons; auto.
      * intros H d' Hd'. apply H. by right.
Qed.

(** Insert: no document carries the key. *)
Lemma upsert_insert ds :
  (∀ d, d ∈ ds → mongo.matches sy pr d = false) →
  mongo.upsert sy pr r ds = ds ++ [r].
Proof.
  intros H. unfold mongo.upsert. rewrite (proj2 (update_first_None ds) H).
  by rewrite filter_is_subset.
Qed.

(** Overwrite in place: the first document that carries the key. *)
Lemma upsert_overwrite ds i d :
  ds !! i = Some d → mongo.matches sy pr d = true →
  (∀ j d', j < i → ds !! j = Some d' → mongo.matches sy pr d' = false) →
  mongo.upsert sy pr r ds = <[i := r ∪ d]> ds.
Proof.
  unfold mongo.upsert. revert i. induction ds as [|d0 ds IH]; intros i Hi Hm Hfirst.
  - done.
  - destruct i as [|i]; simpl in *.
    + injection Hi as ->. by rewrite Hm.
    + rewrite (Hfirst 0 d0) by (done || lia).
      specialize (IH i Hi Hm).
      destruct (mongo.update_first sy pr r ds) as [ds'|] eqn:Hu; simpl.
      * f_equal. apply IH. intros j d' Hj Hd'. apply (Hfirst (S j)); [lia|done].
      * pose proof (proj1 (update_first_None ds) Hu) as Hnone.
        apply list_elem_of_lookup_2 in Hi. rewrite (Hnone d Hi) in Hm. done.
Qed.

Lemma upsert_keys ds :
  mongo.key_of <$> mongo.upsert sy pr r ds
  = add_key (Some sy, Some pr) (mongo.key_of <$> ds).
Proof.
  unfold mongo.upsert, add_key.
  destruct (mongo.update_first sy pr r ds) as [ds'|] eqn:Hu.
  - assert (mongo.key_of <$> ds' = mongo.key_of <$> ds
            ∧ (Some sy, Some pr) ∈ mongo.key_of <$> ds) as [-> Hin].
    { revert ds' Hu. induction ds as [|d ds IH]; intros ds' Hu; [done|].
      simpl in Hu. destruct (mongo.matches sy pr d) eqn:Hm.
      - injection Hu as <-. apply matches_key in Hm.
        rewrite !fmap_cons, key_of_set, Hm. split; [done|left].
      - destruct (mongo.update_first sy pr r ds) as [ds''|]; [|done].
        injection Hu as <-. destruct (IH ds'' eq_refl) as [IH1 IH2].
        rewrite !fmap_cons, IH1. split; [done|by right]. }
    by rewrite decide_True.
  - rewrite filter_is_subset. rewrite decide_False.
    + rewrite fmap_app. simpl. by rewrite <- (key_of_set ∅), map_union_empty.
    + intros [d [Hk Hd]]%list_elem_of_fmap.
      pose proof (proj1 (update_first_None ds) Hu d Hd) as Hnone.
      apply matches_key_false in Hnone. by rewrite <- Hk in Hnone.
Qed.

End upsert.

Lemma NoDup_add_key k ks : NoDup ks → NoDup (add_key k ks).
Proof.
  intros Hnd. unfold add_key. case_decide; [done|].
  apply NoDup_app. split_and!; [done| |apply NoDup_singleton].
  intros x Hx ->%list_elem_of_singleton. done.
Qed.

Lemma elem_of_add_key k k' ks : k' ∈ add_key k ks ↔ k' = k ∨ k' ∈ ks.
Proof.
  unfold add_key. case_decide.
  - split; [by right|]. by intros [->|?].
  - rewrite elem_of_app, list_elem_of_singleton. tauto.
Qed.

Lemma upsert_record_keys ds r :
  keyed r →
  mongo.key_of <$> upsert_record ds r = add_key (mongo.key_of r) (mongo.key_of <$> ds).
Proof.
  intros [[sy Hsy] [pr Hpr]]. unfold upsert_record. rewrite Hsy, Hpr. simpl.
  rewrite (upsert_keys sy pr r Hsy Hpr). unfold mongo.key_of at 2.
  by rewrite Hsy, Hpr.
Qed.

Lemma written_keys_NoDup ds rs :
  Forall keyed rs → NoDup (mongo.key_of <$> ds) →
  NoDup (mongo.key_of <$> foldl upsert_record ds rs).
Proof.
  intros Hk. revert ds. induction Hk as [|r rs Hr Hk IH]; intros ds Hnd; [done|].
  simpl. apply IH. rewrite upsert_record_keys by done. by apply NoDup_add_key.
Qed.

Lemma written_keys_elem ds rs k :
  Forall keyed rs →
  k ∈ mongo.key_of <$> foldl upsert_record ds rs
  ↔ k ∈ mongo.key_of <$> ds ∨ k ∈ mongo.key_of <$> rs.
Proof.
  intros Hk. revert ds. induction Hk as [|r rs Hr Hk IH]; intros ds.
  - simpl. rewrite elem_of_nil. tauto.
  - simpl. rewrite IH, upsert_record_keys, elem_of_add_key, elem_of_cons by done.
    tauto.
Qed.

Lemma count_key_NoDup k ds :
  NoDup (mongo.key_of <$> ds) → k ∈ mongo.key_of <$> ds → count_key k ds = 1.
Proof.
  unfold count_key. generalize (mongo.key_of <$> ds). intros ks.
  induction 1 as [|k' ks Hnotin Hnd IH]; intros Hin.
  - by apply elem_of_nil in Hin.
  - rewrite filter_cons. apply elem_of_cons in Hin as [->|Hin].
    + rewrite decide_True by done. simpl. f_equal.
      destruct (filter (λ k'0, k'0 = k') ks) as [|x l] eqn:Hf; [done|].
      assert (x ∈ filter (λ k'0, k'0 = k') ks) as Hx by (rewrite Hf; left).
      apply list_elem_of_filter in Hx as [-> Hx]. done.
    + rewrite decide_False; [by apply IH|]. intros ->. done.
Qed.

Lemma count_key_le_NoDup k ds :
  NoDup (mongo.key_of <$> ds) → count_key k ds ≤ 1.
Proof.
  intros Hnd. destruct (decide (k ∈ mongo.key_of <$> ds)) as [Hin|Hnotin].
  - by rewrite count_key_NoDup.
  - unfold count_key.
    destruct (filter (λ k', k' = k) (mongo.key_of <$> ds)) as [|x l] eqn:Hf;
      [simpl; lia|].
    assert (x ∈ filter (λ k', k' = k) (mongo.key_of <$> ds)) as Hx
      by (rewrite Hf; left).
    apply list_elem_of_filter in Hx as [-> Hx]. done.
Qed.

Lemma written_prefix env rs : written env rs `prefix_of` rs.
Proof.
  induction rs as [|r rs IH]; simpl; [done|].
  destruct (write_fault env r); [apply prefix_nil|by apply prefix_cons].
Qed.

Lemma attempted_prefix env rs : attempted env rs `prefix_of` rs.
Proof.
  induction rs as [|r rs IH]; simpl; [done|]. apply prefix_cons.
  destruct (write_fault env r); [apply prefix_nil|done].
Qed.

Lemma written_attempted env rs r :
  r ∈ attempted env rs → write_fault env r = false → r ∈ written env rs.
Proof.
  induction rs as [|r' rs IH]; simpl; [done|].
  intros [->|Hin]%elem_of_cons Hf.
  - rewrite Hf. left.
  - destruct (write_fault env r'); [by apply elem_of_nil in Hin|].
    right. by apply IH.
Qed.

Lemma no_fault_all env rs :
  (∀ r, r ∈ rs → write_fault env r = false) →
  attempted env rs = rs ∧ written env rs = rs ∧ existsb (write_fault env) rs = false.
Proof.
  induction rs as [|r rs IH]; intros H; [done|]. simpl.
  rewrite (H r) by left. destruct IH as (-> & -> & ->); [|done].
  intros r' Hr'. apply H. by right.
Qed.

Lemma elem_of_prefix {A} (l1 l2 : list A) x : l1 `prefix_of` l2 → x ∈ l1 → x ∈ l2.
Proof. intros [k ->] Hx. apply elem_of_app. by left. Qed.

(** ** The expected records *)

Lemma expected_record_fields d sc :
  expected_record d sc !! "symbol" = Some (Str (snap_symbol d)) ∧
  expected_record d sc !! "buyid" = Some (Str (snap_id d)) ∧
  expected_record d sc !! "prediction" = Some (Str "BUY") ∧
  expected_record d sc !! "confidence_score" = Some sc ∧
  dom (expected_record d sc)
  = list_to_set ["symbol"; "buyid"; "prediction"; "confidence_score"].
Proof.
  unfold expected_record. split_and!; by simplify_map_eq.
Qed.

Lemma expected_record_keyed d sc : keyed (expected_record d sc).
Proof.
  destruct (expected_record_fields d sc) as (H1 & _ & H2 & _).
  split; [rewrite H1|rewrite H2]; by eexists.
Qed.

Lemma expected_record_event d sc :
  update_event (expected_record d sc)
  = UpdateOne (Str (snap_symbol d)) (Str "BUY") (expected_record d sc).
Proof.
  destruct (expected_record_fields d sc) as (H1 & _ & H2 & _).
  unfold update_event. by rewrite H1, H2.
Qed.

Lemma elem_of_expected_records b preds r :
  r ∈ expected_records b preds ↔
  ∃ i d sc, b !! i = Some d ∧ preds !! i = Some sc ∧ notnull sc = true
            ∧ r = expected_record d sc.
Proof.
  unfold expected_records. rewrite list_elem_of_fmap. split.
  - intros [[d sc] [-> [Hsc Hin]%list_elem_of_filter]].
    apply list_elem_of_lookup in Hin as [i Hi].
    apply lookup_zip_Some in Hi as [Hd Hp]. by exists i, d, sc.
  - intros (i & d & sc & Hd & Hp & Hsc & ->). exists (d, sc). split; [done|].
    apply list_elem_of_filter. split; [done|].
    apply list_elem_of_lookup. exists i. by apply lookup_zip_Some.
Qed.

Lemma expected_records_keyed b preds : Forall keyed (expected_records b preds).
Proof.
  apply Forall_forall. intros r (i & d & sc & _ & _ & _ & ->)%elem_of_expected_records.
  apply expected_record_keyed.
Qed.

(** ** How a run ends *)

Lemma stage2_ending env config s :
  Ending env config s (orchestrator_stage2 env config s).
Proof.
  destruct (stage2_prelude env config s _ eq_refl)
    as [tr [Hab|(coins & model & preds & Hsc & Hq & Hp & Hcalled & Hr)]].
  { by eapply ended_aborted. }
  rewrite Hr. rewrite model_input_scored.
  destruct Hsc as [Hrec Hpred Hlen]. pose proof Hrec as [].
  rewrite persist_scored by done.
  case_bool_decide as Hrs.
  - eapply ended_unsent; [by constructor|by constructor|done..].
  - eapply ended_sent; [by constructor|by constructor|done|].
    erewrite bind_value by (apply save_run, expected_records_keyed).
    mrun. rewrite <- !app_assoc. done.
Qed.

(** The writes and the model calls of a run, read off its ending. *)

Lemma update_event_inv sy pr r r' :
  UpdateOne sy pr r = update_event r' → r' = r.
Proof. unfold update_event. by intros [= _ _ ->]. Qed.

Lemma elem_of_tail_events ev (rep : Event) :
  ev ∈ [rep; Close; Log INFO Completed] → is_update ev → is_update rep.
Proof.
  intros Hin Hup. repeat (apply elem_of_cons in Hin as [->|Hin]; [done|]).
  by apply elem_of_nil in Hin.
Qed.

Lemma save_report_quiet env collection rs :
  ¬ is_update (save_report env collection rs) ∧
  ¬ is_predict (save_report env collection rs).
Proof. unfold save_report. destruct (existsb _ _); simpl; tauto. Qed.

Lemma stage2_updates env config s sy pr r :
  UpdateOne sy pr r ∈ trace (orchestrator_stage2 env config s).2 →
  UpdateOne sy pr r ∈ trace s
  ∨ ∃ coins model preds,
      Scored env config (dest s) coins model preds
      ∧ r ∈ attempted env (expected_records (batch env coins) preds)
      ∧ UpdateOne sy pr r = update_event r.
Proof.
  destruct (stage2_ending env config s)
    as [tr [] | tr coins model preds Hsc [Hq _] _ -> | tr coins model preds Hsc [Hq _] _ ->];
    simpl.
  - rewrite ca_trace0, elem_of_app. intros [?|Hin]; [by left|].
    rewrite Forall_forall in ca_no_update0. by apply ca_no_update0 in Hin.
  - rewrite <- app_assoc, !elem_of_app. intros [?|[Hin|Hin]]; [by left|..].
    + rewrite Forall_forall in Hq. by apply Hq in Hin.
    + repeat (apply elem_of_cons in Hin as [?|Hin]; [done|]).
      by apply elem_of_nil in Hin.
  - rewrite !elem_of_app. intros [?|[Hin|[Hin|Hin]]]; [by left|..].
    + rewrite Forall_forall in Hq. by apply Hq in Hin.
    + right. exists coins, model, preds. split; [done|].
      apply list_elem_of_fmap in Hin as [r' [Heq Hr']].
      pose proof (update_event_inv _ _ _ _ Heq) as ->. done.
    + apply elem_of_tail_events in Hin; [|done].
      by apply save_report_quiet in Hin.
Qed.

Lemma stage2_predicts env config s X :
  Predict X ∈ trace (orchestrator_stage2 env config s).2 →
  Predict X ∈ trace s
  ∨ ∃ coins model,
      Reconciled env config (dest s) coins model
      ∧ X = feature_matrix (model_input (latest_frame (batch env coins))).
Proof.
  destruct (stage2_ending env config s)
    as [tr [] | tr coins model preds [Hrec _ _] [_ Hp] _ ->
        | tr coins model preds [Hrec _ _] [_ Hp] _ ->];
    simpl.
  - rewrite ca_trace0, elem_of_app. intros [?|Hin]; [by left|]. right. eauto.
  - rewrite <- app_assoc, !elem_of_app. intros [?|[Hin|Hin]]; [by left|..].
    + right. exists coins, model. split; [done|]. by apply Hp.
    + repeat (apply elem_of_cons in Hin as [?|Hin]; [done|]).
      by apply elem_of_nil in Hin.
  - rewrite !elem_of_app. intros [?|[Hin|[Hin|Hin]]]; [by left|..].
    + right. exists coins, model. split; [done|]. by apply Hp.
    + apply list_elem_of_fmap in Hin as [r' [Heq Hr']]. done.
    + apply elem_of_cons in Hin as [Heq|Hin].
      * pose proof (save_report_quiet env
          (default "" (config !! "suggested_trades_collection"))
          (expected_records (batch env coins) preds)) as [_ Hnp].
        rewrite <- Heq in Hnp. by destruct Hnp.
      * repeat (apply elem_of_cons in Hin as [?|Hin]; [done|]).
        by apply elem_of_nil in Hin.
Qed.

Lemma written_keyed env rs : Forall keyed rs → Forall keyed (written env rs).
Proof.
  intros Hk. apply Forall_forall. intros r Hr. rewrite Forall_forall in Hk.
  apply Hk. eapply elem_of_prefix; [apply written_prefix|done].
Qed.

(** The documents after a run: the ones before it, or those with the written
    records upserted, and then no key was repeated before. *)
Lemma stage2_docs env config s :
  docs (dest (orchestrator_stage2 env config s).2) = docs (dest s)
  ∨ ∃ rs, Forall keyed rs ∧ NoDup (mongo.key_of <$> docs (dest s)) ∧
      docs (dest (orchestrator_stage2 env config s).2)
      = foldl upsert_record (docs (dest s)) rs.
Proof.
  destruct (stage2_ending env config s)
    as [tr [] | tr coins model preds Hsc _ _ ->
        | tr coins model preds [[] _ _] _ _ ->]; simpl; [by left..|].
  right. eexists. split_and!; [|done|done].
  apply written_keyed, expected_records_keyed.
Qed.

(** * The claims *)

(** ** Configuration *)

Lemma falsy_true v : falsy v = true ↔ v = None ∨ v = Some "".
Proof.
  destruct v as [x|]; simpl.
  - rewrite bool_decide_eq_true. split; [intros ->; by right|].
    by intros [?|[= ->]].
  - split; [by left|done].
Qed.

Lemma elem_of_missing_keys config k :
  k ∈ missing_keys config ↔ k ∈ required_keys ∧ falsy (config !! k) = true.
Proof.
  unfold missing_keys, required_keys. rewrite list_elem_of_fmap. split.
  - intros [[k' v] [-> [Hf Hin]%list_elem_of_filter]]. simpl in *.
    repeat (apply elem_of_cons in Hin as [[= -> ->]|Hin];
            [split; [|done]; apply list_elem_of_In; simpl; tauto|]).
    by apply elem_of_nil in Hin.
  - intros [Hin Hf]. exists (k, config !! k). split; [done|].
    apply list_elem_of_filter. split; [done|].
    repeat (apply elem_of_cons in Hin as [->|Hin];
            [apply list_elem_of_In; simpl; tauto|]).
    by apply elem_of_nil in Hin.
Qed.

(** C5. When one of the six required keys is missing or empty, the run logs
    one ERROR line that names the missing keys and returns; that line is the
    only event of the run (no file is tested or read, the store is not
    contacted), and the keys it names are exactly the required keys that are
    missing or empty, all of them. *)
Theorem missing_config_aborts_before_io env config s k :
  k ∈ required_keys →
  config !! k = None ∨ config !! k = Some "" →
  orchestrator_stage2 env config s
  = (Returned, extend s [Log ERROR (MissingConfigValues (missing_keys config))])
  ∧ ∀ k', k' ∈ required_keys →
      (k' ∈ missing_keys config ↔ config !! k' = None ∨ config !! k' = Some "").
Proof.
  intros Hk Hmissing. split.
  - unfold orchestrator_stage2.
    rewrite bool_decide_eq_false_2; [done|].
    intros Hnil. assert (k ∈ missing_keys config) as Hin.
    { apply elem_of_missing_keys. split; [done|]. by apply falsy_true. }
    rewrite Hnil in Hin. by apply elem_of_nil in Hin.
  - intros k' Hk'. rewrite elem_of_missing_keys, falsy_true. tauto.
Qed.

Lemma missing_config_aborts_before_io_witness :
  orchestrator_stage2 ex.env ex.config_incomplete ex.s0
  = (Returned,
     extend ex.s0 [Log ERROR (MissingConfigValues ["db_name"; "model_file"])]).
Proof.
  assert (missing_keys ex.config_incomplete = ["db_name"; "model_file"]) as <-
    by (vm_compute; reflexivity).
  apply (missing_config_aborts_before_io ex.env ex.config_incomplete ex.s0 "db_name").
  - vm_compute. apply list_elem_of_In. simpl. tauto.
  - right. vm_compute. reflexivity.
Defined.

(** ** The feature columns *)

Lemma labels_feature_matrix df c :
  c ∈ labels (feature_matrix df) ↔ c ∈ REQUIRED_COLUMNS ∧ usable df c.
Proof.
  unfold feature_matrix. rewrite labels_select, elem_of_feature_cols.
  split; [tauto|]. intros [? Hu]. split_and!; [done..|]. by apply usable_contains.
Qed.




Lemma scored_matrices_app tr1 tr2 :
  scored_matrices (tr1 ++ tr2) = scored_matrices tr1 ++ scored_matrices tr2.
Proof. unfold scored_matrices. apply omap_app. Qed.

Lemma elem_of_scored_matrices tr X : X ∈ scored_matrices tr ↔ Predict X ∈ tr.
Proof.
  unfold scored_matrices. rewrite list_elem_of_omap. split.
  - intros [ev [Hev Hx]]. destruct ev; try done. by injection Hx as ->.
  - intros HX. by exists (Predict X).
Qed.

Lemma scored_matrices_nil tr : (∀ X, Predict X ∉ tr) → scored_matrices tr = [].
Proof.
  intros Hno. destruct (scored_matrices tr) as [|X l] eqn:Heq; [done|].
  destruct (Hno X). apply elem_of_scored_matrices. rewrite Heq. left.
Qed.




(** ** Failures before the scoring stage *)

Lemma scored_no_failure env config st coins model preds :
  Scored env config st coins model preds → StageFailure env config → False.
Proof.
  intros [[] Hp Hlen] Hfail.
  destruct Hfail as [?|Hf|Hf|[Hf|Hf]|?|coins' Hf ?|coins' Hf ?|Hf
                     |coins' model' Hf Hm ?|coins' model' preds' Hf Hm Hp' ?];
    try congruence.
  - rewrite Hf in rec_coins_file0. done.
  - rewrite Hf in rec_model0. done.
Qed.

Lemma model_file_missing_run env config s :
  missing_keys config = [] →
  is_Some (fs env !! coins_path env config) →
  fs env !! model_path env config = None →
  orchestrator_stage2 env config s
  = (Returned,
     extend s [PathExists (coins_path env config);
               PathExists (model_path env config);
               Log ERROR (ModelFileNotFound (model_path env config))]).
Proof.
  intros Hcfg [f Hf] Hm. unfold orchestrator_stage2.
  rewrite bool_decide_eq_true_2 by done. simpl.
  fold (coins_path env config) (model_path env config).
  erewrite bind_value by apply path_exists_run. rewrite Hf. simpl.
  erewrite bind_value by apply path_exists_run. rewrite Hm. simpl.
  mrun. by rewrite <- !app_assoc.
Qed.

(** C7. When a stage before the scoring stage is through fails (a required
    key is missing, the coins file or the model file is missing, the coin
    list is empty or not a list, the store cannot be reached, no coin has a
    snapshot, no feature column is usable, the model does not load, the
    prediction raises or answers another number of scores than there are
    rows), the run ends in error (it returns after an ERROR
    line, or an exception ends it), the documents of the destination
    collection are the ones it found, and it sends no write. When the model
    file does not exist, the run tests the two paths, logs the missing file
    and returns, and the destination is as it was. *)
Theorem failure_before_scoring_writes_nothing env config s :
  StageFailure env config →
  (∃ tr,
     ((orchestrator_stage2 env config s).1 = Returned ∧ (∃ msg, Log ERROR msg ∈ tr)
      ∨ ∃ e, (orchestrator_stage2 env config s).1 = Raised e)
     ∧ docs (dest (orchestrator_stage2 env config s).2) = docs (dest s)
     ∧ trace (orchestrator_stage2 env config s).2 = trace s ++ tr
     ∧ Forall (λ ev, ¬ is_update ev) tr)
  ∧ (missing_keys config = [] →
     is_Some (fs env !! coins_path env config) →
     fs env !! model_path env config = None →
     orchestrator_stage2 env config s
     = (Returned,
        extend s [PathExists (coins_path env config);
                  PathExists (model_path env config);
                  Log ERROR (ModelFileNotFound (model_path env config))])).
Proof.
  intros Hfail. split; [|apply model_file_missing_run].
  destruct (stage2_ending env config s)
    as [tr [] | tr coins model preds Hsc _ _ _
        | tr coins model preds Hsc _ _ _].
  - exists tr. done.
  - destruct (scored_no_failure _ _ _ _ _ _ Hsc Hfail).
  - destruct (scored_no_failure _ _ _ _ _ _ Hsc Hfail).
Qed.

Lemma failure_before_scoring_writes_nothing_witness :
  orchestrator_stage2 ex.env_no_model ex.config ex.s0
  = (Returned,
     extend ex.s0 [PathExists "/app/src/../coins.json";
                   PathExists "/app/src/../model.json";
                   Log ERROR (ModelFileNotFound "/app/src/../model.json")]).
Proof.
  apply (proj2 (failure_before_scoring_writes_nothing
                  ex.env_no_model ex.config ex.s0
                  (fail_model_file ex.env_no_model ex.config eq_refl))).
  - vm_compute. reflexivity.
  - vm_compute. by eexists.
  - vm_compute. reflexivity.
Defined.

(** ** The feature check *)


Section model_step.

Local Arguments fetch : simpl never.
Local Arguments run : simpl never.
Local Arguments persist : simpl never.


End model_step.









(** ** The latest snapshot of each coin *)

(** C6. For a symbol, the client takes the snapshots of that symbol, newest
    first, and keeps at most the first: the newest snapshot of the symbol, or
    nothing when the symbol has none. The loop over the coins collects one
    one-row frame per coin that has a snapshot, in the order of the coins; a
    coin without a snapshot only leaves a WARNING line, the batch is the one
    the other coins alone would give, and no write of a run carries a symbol
    without a snapshot. *)
Theorem latest_snapshot_per_symbol env :
  (∀ symbol s,
     mongo.find_latest env symbol s
     = (Value (take 1 (snapshots_of env symbol)), extend s [Find symbol])
     ∧ snapshots_of env symbol ≡ₚ filter (λ d, snap_symbol d = symbol) (source env)
     ∧ StronglySorted newer_first (snapshots_of env symbol)
     ∧ take 1 (snapshots_of env symbol) = option_list (latest env symbol))
  ∧ (∀ symbol,
       (latest env symbol = None ↔ ∀ d, d ∈ source env → snap_symbol d ≠ symbol)
       ∧ ∀ d, latest env symbol = Some d →
           d ∈ source env ∧ snap_symbol d = symbol ∧
           ∀ x, x ∈ source env → snap_symbol x = symbol →
                (snap_timestamp x ≤ snap_timestamp d)%Z)
  ∧ (∀ coins acc s,
       fetch env coins acc s
       = (Value (acc ++ (frame_of <$> batch env coins)),
          extend s (fetch_trace env coins)))
  ∧ (∀ coins1 symbol coins2,
       latest env symbol = None →
       Log WARNING (NoFeatureData symbol)
         ∈ fetch_trace env (coins1 ++ symbol :: coins2)
       ∧ batch env (coins1 ++ symbol :: coins2) = batch env (coins1 ++ coins2)
       ∧ ∀ d, d ∈ batch env (coins1 ++ symbol :: coins2) → snap_symbol d ≠ symbol)
  ∧ (∀ config s sy pr r,
       UpdateOne sy pr r ∈ trace (orchestrator_stage2 env config s).2 →
       UpdateOne sy pr r ∉ trace s →
       ∃ d, latest env (snap_symbol d) = Some d ∧ sy = Str (snap_symbol d)).
Proof.
  split_and!.
  - intros symbol s. split_and!.
    + apply find_latest_run.
    + apply sort_desc_perm.
    + apply sort_desc_sorted.
    + unfold latest. by destruct (snapshots_of env symbol).
  - intros symbol. split; [apply latest_None|apply latest_Some].
  - apply fetch_run.
  - intros coins1 symbol coins2 Hnone. split_and!.
    + unfold fetch_trace. apply list_elem_of_bind. exists symbol.
      split; [|apply elem_of_app; right; left].
      rewrite Hnone. right. left.
    + by apply batch_skips.
    + intros d [symbol' [_ Hd]]%elem_of_batch Heq.
      pose proof (latest_Some _ _ _ Hd) as (_ & Hs & _).
      rewrite <- Hs, Heq in Hd. congruence.
  - intros config s sy pr r Hin Hnew.
    apply stage2_updates in Hin as [?|(coins & model & preds & _ & Hr & Hev)];
      [done|].
    apply (elem_of_prefix _ _ _ (attempted_prefix _ _)) in Hr.
    apply elem_of_expected_records in Hr as (i & d & sc & Hd & _ & _ & ->).
    rewrite expected_record_event in Hev. injection Hev as -> ->.
    exists d. split; [|done].
    apply list_elem_of_lookup_2, elem_of_batch in Hd as [symbol [_ Hd]].
    pose proof (latest_Some _ _ _ Hd) as (_ & <- & _). done.
Qed.

(** ** A run whose every stage goes through *)

Lemma scored_prefix_quiet env config coins :
  Forall (λ ev, ¬ is_update ev) (scored_prefix env config coins).
Proof.
  unfold scored_prefix. apply Forall_app. split.
  { repeat constructor; simpl; tauto. }
  apply Forall_app. split.
  - apply Forall_forall. intros ev Hev. by apply fetch_trace_quiet in Hev as [? _].
  - repeat constructor; simpl; tauto.
Qed.

Lemma save_report_not_update env collection rs :
  ¬ is_update (save_report env collection rs).
Proof. unfold save_report. destruct (existsb _ _); simpl; tauto. Qed.

Section forward.

Local Arguments fetch : simpl never.
Local Arguments run : simpl never.
Local Arguments persist : simpl never.

Lemma run_scored_run env df path model preds s :
  empty df = false → path ≠ "" →
  fs env !! path ≫= as_model = Some model →
  feature_cols df ≠ [] →
  NoDup (labels (feature_matrix df)) →
  predict model (feature_matrix df) = Some preds →
  run env {| data := Some df; model_file := Some path |} s
  = (Value (if decide (length preds = index df)
            then success (scored_frame df preds)
            else error "Prediction failed"),
     extend s [LoadModel path; Log INFO (LoadedModel path);
               Predict (feature_matrix df);
               if decide (length preds = index df)
               then Log INFO PredictionsGenerated
               else Log ERROR (ErrorDuringPrediction ValueError)]).
Proof.
  intros Hin Hne Hm Hfc Hnd Hp.
  destruct (run_cases env {| data := Some df; model_file := Some path |} s)
    as (res & tr & Hrun & Hcase).
  rewrite Hrun.
  destruct Hcase as [Hno|df0 Hd Hin' Hfalsy|df0 p Hd _ Hpa _ Hm'
                     |df0 p model' Hd _ Hpa _ Hm' Hfc'
                     |df0 p model' Hd _ Hpa _ Hm' _ Hnd'
                     |df0 p model' Hd _ Hpa _ Hm' _ _ Hp'
                     |df0 p model' preds' Hd _ Hpa _ Hm' _ _ Hp' Hlen'
                     |df0 p model' preds' Hd _ Hpa _ Hm' _ _ Hp' Hlen'];
    simpl in *.
  - destruct Hno as [?|(df0 & [= <-] & ?)]; congruence.
  - by apply bool_decide_eq_true in Hfalsy.
  - congruence.
  - congruence.
  - congruence.
  - congruence.
  - assert (preds' = preds) as -> by congruence.
    assert (df0 = df) as -> by congruence.
    assert (p = path) as -> by congruence. by rewrite !decide_False.
  - assert (preds' = preds) as -> by congruence.
    assert (df0 = df) as -> by congruence.
    assert (p = path) as -> by congruence. by rewrite !decide_True.
Qed.

Lemma stage2_scored env config s coins model preds :
  Scored env config (dest s) coins model preds →
  orchestrator_stage2 env config s
  = persist env (default "" (config !! "suggested_trades_collection"))
            (latest_frame (batch env coins))
            (scored_frame (model_input (latest_frame (batch env coins))) preds)
            (scored_state s (scored_prefix env config coins)).
Proof.
  intros [[Hcfg Hjson Hne Hup Hnd Hb Hin Hmodel Hfc] Hp Hlen].
  unfold orchestrator_stage2.
  rewrite bool_decide_eq_true_2 by done. simpl.
  fold (coins_path env config) (model_path env config).
  erewrite bind_value by apply path_exists_run.
  destruct (fs env !! coins_path env config) as [fcoins|] eqn:Hcoins;
    [|done]. simpl.
  erewrite bind_value by apply path_exists_run.
  destruct (fs env !! model_path env config) as [fmodel|] eqn:Hfm;
    [|done]. simpl.
  erewrite bind_value by (apply json_load_value; by rewrite Hcoins).
  destruct coins as [|c coins']; [done|]. cbv beta iota.
  set (coins := c :: coins') in *. clearbody coins. clear c coins'.
  rewrite !extend_extend. simpl app.
  erewrite bind_value
    by (rewrite connect_run, Hup; simpl;
        rewrite bool_decide_eq_true_2 by done; reflexivity).
  erewrite bind_value by apply log_extend.
  erewrite bind_value by apply fetch_run.
  rewrite app_nil_l. fold (latest_frame (batch env coins)).
  rewrite scored_state_extend, !extend_scored_state. simpl app.
  rewrite bool_decide_eq_false_2 by (by destruct (batch env coins)).
  erewrite bind_value by apply log_extend.
  rewrite extend_scored_state.
  erewrite bind_value
    by (apply (run_scored_run env _ _ model preds);
        [done|apply path_join_nonempty|by rewrite Hfm|done
        |apply feature_matrix_unique|done]).
  rewrite !decide_True by (by rewrite Hlen, <- index_latest_frame).
  rewrite extend_scored_state, <- !app_assoc. simpl app.
  unfold scored_prefix. simpl app.
  change (sum_list (index <$> (frame_of <$> batch env coins)))
    with (index (latest_frame (batch env coins))).
  by rewrite index_latest_frame.
Qed.

End forward.

Lemma scored_run env config s coins model preds :
  Scored env config (dest s) coins model preds →
  orchestrator_stage2 env config s
  = if bool_decide (expected_records (batch env coins) preds = [])
    then (Returned,
          extend (scored_state s (scored_prefix env config coins))
                 [Log WARNING NoPredictionsWithConfidence; Close])
    else (Value tt,
          {| dest :=
               {| docs := foldl upsert_record (docs (dest s))
                            (written env (expected_records (batch env coins) preds));
                  unique_index := true |};
             trace :=
               trace s ++ scored_prefix env config coins
               ++ (update_event
                     <$> attempted env (expected_records (batch env coins) preds))
               ++ [save_report env (default "" (config !! "suggested_trades_collection"))
                               (expected_records (batch env coins) preds);
                   Close; Log INFO Completed] |}).
Proof.
  intros Hsc. rewrite (stage2_scored env config s coins model preds Hsc).
  destruct Hsc as [Hrec Hpred Hlen]. pose proof Hrec as [].
  rewrite model_input_scored, persist_scored by done.
  case_bool_decide as Hrs; [done|].
  erewrite bind_value by (apply save_run, expected_records_keyed).
  generalize (scored_prefix env config coins). intros P.
  mrun. by rewrite <- !app_assoc.
Qed.

Lemma ex_env_scored :
  Scored ex.env ex.config (dest ex.s0) ["BTCUSDT"; "ETHUSDT"] ex.flat_model
         [Num (7 # 10)%Q].
Proof.
  constructor; [constructor|..]; try reflexivity; try (by vm_compute).
  apply NoDup_nil_2.
Qed.

Lemma scored_run_updates env config s coins model preds :
  Scored env config (dest s) coins model preds →
  ∃ tr,
    trace (orchestrator_stage2 env config s).2 = trace s ++ tr
    ∧ filter is_update tr
      = update_event <$> attempted env (expected_records (batch env coins) preds).
Proof.
  intros Hsc. rewrite (scored_run env config s coins model preds Hsc).
  pose proof (scored_prefix_quiet env config coins) as Hq.
  set (P := scored_prefix env config coins) in *. clearbody P.
  case_bool_decide as Hrs.
  - exists (P ++ [Log WARNING NoPredictionsWithConfidence; Close]).
    split; [simpl; by rewrite <- app_assoc|].
    rewrite Hrs. simpl. apply filter_none, Forall_app. split; [done|].
    repeat constructor; simpl; tauto.
  - exists (P
            ++ (update_event
                  <$> attempted env (expected_records (batch env coins) preds))
            ++ [save_report env (default "" (config !! "suggested_trades_collection"))
                            (expected_records (batch env coins) preds);
                Close; Log INFO Completed]).
    split; [done|].
    rewrite !filter_app, (filter_none _ _ Hq). simpl.
    rewrite (filter_none _ [_; _; _]).
    + rewrite app_nil_r. apply filter_all, Forall_fmap, Forall_true.
      intros r. exact I.
    + repeat constructor; simpl; try tauto. apply save_report_not_update.
Qed.

Lemma scored_prefix_matrices env config coins :
  scored_matrices (scored_prefix env config coins)
  = [feature_matrix (model_input (latest_frame (batch env coins)))].
Proof.
  unfold scored_prefix. rewrite !scored_matrices_app.
  rewrite (scored_matrices_nil (fetch_trace env coins)); [done|].
  intros X HX. by apply fetch_trace_quiet in HX as [_ HX].
Qed.

Lemma scored_run_matrices env config s coins model preds :
  Scored env config (dest s) coins model preds →
  ∃ tr,
    trace (orchestrator_stage2 env config s).2 = trace s ++ tr
    ∧ scored_matrices tr
      = [feature_matrix (model_input (latest_frame (batch env coins)))].
Proof.
  intros Hsc. rewrite (scored_run env config s coins model preds Hsc).
  pose proof (scored_prefix_matrices env config coins) as Hq.
  set (P := scored_prefix env config coins) in *. clearbody P.
  case_bool_decide as Hrs.
  - exists (P ++ [Log WARNING NoPredictionsWithConfidence; Close]).
    split; [simpl; by rewrite <- app_assoc|].
    rewrite scored_matrices_app, Hq. done.
  - eexists. split; [simpl; reflexivity|].
    rewrite !scored_matrices_app, Hq.
    rewrite (scored_matrices_nil (update_event <$> _)).
    + unfold save_report. by destruct (existsb _ _).
    + intros X HX. by apply list_elem_of_fmap in HX as [r' [Heq Hr']].
Qed.

(** ** Row order *)

Lemma columns_select df ls p : p ∈ columns (select df ls) → p ∈ columns df.
Proof.
  unfold select. simpl. intros [c [Hp _]]%list_elem_of_bind.
  by apply labelled_label in Hp as [_ ?].
Qed.

Lemma feature_matrix_rows b c col :
  (c, col) ∈ columns (feature_matrix (model_input (latest_frame b))) →
  col = cell_of c <$> b.
Proof.
  unfold feature_matrix, model_input. intros Hin.
  do 2 apply columns_select in Hin.
  rewrite columns_latest_frame in Hin.
  apply list_elem_of_fmap in Hin as [c' [[= -> ->] _]]. done.
Qed.

Lemma series_assign_same n c v cols :
  series {| index := n; columns := assign c v cols |} c = v.
Proof.
  unfold series, getitem. simpl. rewrite labelled_assign_same.
  by destruct (length (labelled c cols) `max` 1) eqn:Hk; [lia|].
Qed.

Lemma getitem_assign_other n m c c' v cols :
  c ≠ c' →
  getitem {| index := n; columns := assign c' v cols |} c
  = getitem {| index := m; columns := cols |} c.
Proof.
  intros Hne. unfold getitem. simpl. by rewrite labelled_assign_other.
Qed.

(** Lines 122-123, row by row: on a frame with one row per row of the batch
    the i-th row gets the symbol and the _id of the i-th snapshot, and the
    other columns stay as they are. *)
Lemma attach_rows b st :
  index st = length b →
  ∃ st',
    attach (latest_frame b) st = Some st'
    ∧ index st' = length b
    ∧ series st' "symbol" = (λ d, Str (snap_symbol d)) <$> b
    ∧ series st' "buyid" = (λ d, Str (snap_id d)) <$> b
    ∧ ∀ c, c ≠ "symbol" → c ≠ "buyid" → getitem st' c = getitem st c.
Proof.
  intros Hlen. unfold attach, setitem.
  rewrite series_symbol, series_buyid, !length_fmap.
  rewrite bool_decide_eq_true_2 by done. simpl.
  rewrite bool_decide_eq_true_2 by done.
  eexists. split_and!; [done|done| | |].
  - unfold series. rewrite (getitem_assign_other _ (index st)) by done.
    apply series_assign_same.
  - apply series_assign_same.
  - intros c Hs Hb.
    rewrite (getitem_assign_other _ (index st)) by done.
    rewrite (getitem_assign_other _ (index st)) by done.
    by destruct st.
Qed.

Lemma attach_mismatch b st :
  index st ≠ length b → attach (latest_frame b) st = None.
Proof.
  intros Hlen. unfold attach, setitem.
  rewrite series_symbol.
  by rewrite bool_decide_eq_false_2 by (rewrite length_fmap; congruence).
Qed.

Lemma expected_records_events b preds :
  update_event <$> expected_records b preds
  = (λ p : Snapshot * cell,
       UpdateOne (Str (snap_symbol p.1)) (Str "BUY") (expected_record p.1 p.2))
      <$> filter (λ p : Snapshot * cell, notnull p.2 = true) (zip b preds).
Proof.
  unfold expected_records. rewrite <- list_fmap_compose.
  apply list_fmap_ext. intros i [d sc] _. simpl. apply expected_record_event.
Qed.

(** C4. The model step keeps the order of the rows: when the model answers
    as many scores as the frame has rows, the returned frame has that many
    rows, its confidence_score column is the scores in the order the model
    gave them, and its prediction column is "BUY" throughout; with any other
    number of scores the step fails. The rows of the feature matrix are the
    rows of the batch, in order. Lines 122-123 set, on a frame with one row
    per row of the batch, the symbol and the _id of the i-th snapshot on the
    i-th row and leave the scores where they are; on a frame with another
    number of rows they raise. So a run whose every stage goes through sends
    its writes in the order of the batch: one for each position with a
    non-null score, with the symbol and the _id of the snapshot at that
    position and the score at that position, up to the first write the
    server rejects, and all of them when it rejects none. Conversely, every
    write of any run carries the symbol and the _id of the snapshot at some
    position of the fetched batch together with the score at that same
    position of the model's answer for that batch. *)
Theorem scores_stay_with_their_rows :
  (∀ env df path model preds s,
     empty df = false → path ≠ "" →
     fs env !! path ≫= as_model = Some model →
     feature_cols df ≠ [] →
     NoDup (labels (feature_matrix df)) →
     predict model (feature_matrix df) = Some preds →
     run env {| data := Some df; model_file := Some path |} s
     = (Value (if decide (length preds = index df)
               then success (scored_frame df preds)
               else error "Prediction failed"),
        extend s [LoadModel path; Log INFO (LoadedModel path);
                  Predict (feature_matrix df);
                  if decide (length preds = index df)
                  then Log INFO PredictionsGenerated
                  else Log ERROR (ErrorDuringPrediction ValueError)])
     ∧ index (scored_frame df preds) = index df
     ∧ series (scored_frame df preds) "confidence_score" = preds
     ∧ series (scored_frame df preds) "prediction"
       = replicate (index df) (Str "BUY"))
  ∧ (∀ b,
       index (feature_matrix (model_input (latest_frame b))) = length b
       ∧ series (latest_frame b) "symbol" = (λ d, Str (snap_symbol d)) <$> b
       ∧ astype_str <$> series (latest_frame b) "_id" = (λ d, Str (snap_id d)) <$> b
       ∧ ∀ c col,
           (c, col) ∈ columns (feature_matrix (model_input (latest_frame b))) →
           col = cell_of c <$> b)
  ∧ (∀ b st,
       (index st = length b →
        ∃ st',
          attach (latest_frame b) st = Some st'
          ∧ index st' = length b
          ∧ series st' "symbol" = (λ d, Str (snap_symbol d)) <$> b
          ∧ series st' "buyid" = (λ d, Str (snap_id d)) <$> b
          ∧ ∀ c, c ≠ "symbol" → c ≠ "buyid" → getitem st' c = getitem st c)
       ∧ (index st ≠ length b → attach (latest_frame b) st = None))
  ∧ (∀ env config s coins model preds,
       Scored env config (dest s) coins model preds →
       ∃ tr,
         trace (orchestrator_stage2 env config s).2 = trace s ++ tr
         ∧ scored_matrices tr
           = [feature_matrix (model_input (latest_frame (batch env coins)))]
         ∧ filter is_update tr
           = update_event
               <$> attempted env (expected_records (batch env coins) preds)
         ∧ attempted env (expected_records (batch env coins) preds)
           `prefix_of` expected_records (batch env coins) preds
         ∧ update_event <$> expected_records (batch env coins) preds
           = (λ p : Snapshot * cell,
                UpdateOne (Str (snap_symbol p.1)) (Str "BUY")
                          (expected_record p.1 p.2))
               <$> filter (λ p : Snapshot * cell, notnull p.2 = true)
                          (zip (batch env coins) preds)
         ∧ ((∀ r, write_fault env r = false) →
            attempted env (expected_records (batch env coins) preds)
            = expected_records (batch env coins) preds))
  ∧ (∀ d sc,
       expected_record d sc !! "symbol" = Some (Str (snap_symbol d))
       ∧ expected_record d sc !! "buyid" = Some (Str (snap_id d))
       ∧ expected_record d sc !! "prediction" = Some (Str "BUY")
       ∧ expected_record d sc !! "confidence_score" = Some sc)
  ∧ (∀ env config s sy pr r,
       UpdateOne sy pr r ∈ trace (orchestrator_stage2 env config s).2 →
       UpdateOne sy pr r ∉ trace s →
       ∃ coins model preds i d score,
         fs env !! coins_path env config ≫= as_json = Some (JList coins)
         ∧ fs env !! model_path env config ≫= as_model = Some model
         ∧ predict model
             (feature_matrix (model_input (latest_frame (batch env coins))))
           = Some preds
         ∧ length preds = length (batch env coins)
         ∧ batch env coins !! i = Some d
         ∧ preds !! i = Some score
         ∧ sy = Str (snap_symbol d)
         ∧ r !! "symbol" = Some (Str (snap_symbol d))
         ∧ r !! "buyid" = Some (Str (snap_id d))
         ∧ r !! "confidence_score" = Some score).
Proof.
  split_and!.
  - intros env df path model preds s Hin Hne Hm Hfc Hnd Hp. split_and!.
    + by apply (run_scored_run env df path model).
    + done.
    + apply series_scored_frame.
    + apply series_scored_frame.
  - intros b. split_and!.
    + apply index_latest_frame.
    + apply series_symbol.
    + apply series_buyid.
    + apply feature_matrix_rows.
  - intros b st. split; [apply attach_rows|apply attach_mismatch].
  - intros env config s coins model preds Hsc.
    destruct (scored_run_updates env config s coins model preds Hsc)
      as (tr & Htr & Hup).
    exists tr. split_and!; [done| |done|apply attempted_prefix
                            |apply expected_records_events|].
    + pose proof (scored_run_matrices env config s coins model preds Hsc)
        as (tr' & Htr' & Hm).
      rewrite Htr in Htr'. by apply app_inv_head in Htr' as ->.
    + intros Hnf.
      by destruct (no_fault_all env (expected_records (batch env coins) preds))
        as (-> & _).
  - intros d sc. destruct (expected_record_fields d sc) as (? & ? & ? & ? & _).
    done.
  - intros env config s sy pr r Hin Hnew.
    apply stage2_updates in Hin
      as [?|(coins & model & preds & [[] Hp Hlen] & Hr & Hev)]; [done|].
    apply (elem_of_prefix _ _ _ (attempted_prefix _ _)) in Hr.
    apply elem_of_expected_records in Hr as (i & d & sc & Hd & Hsc & _ & ->).
    rewrite expected_record_event in Hev. injection Hev as -> ->.
    destruct (expected_record_fields d sc) as (H1 & H2 & _ & H4 & _).
    exists coins, model, preds, i, d, sc. split_and!; done.
Qed.

Lemma ex_env_rows_scored :
  Scored ex.env_rows ex.config (dest ex.s0) ["SOLUSDT"; "BTCUSDT"; "ADAUSDT"]
         ex.open_model [Num (9 # 1)%Q; Num (42 # 1)%Q; Num (1 # 2)%Q].
Proof.
  constructor; [constructor|..]; try reflexivity; try (by vm_compute).
  apply NoDup_nil_2.
Qed.

Lemma scores_stay_with_their_rows_witness :
  ∃ tr,
    trace (orchestrator_stage2 ex.env_rows ex.config ex.s0).2 = trace ex.s0 ++ tr
    ∧ filter is_update tr
      = [ UpdateOne (Str "SOLUSDT") (Str "BUY")
                    (expected_record ex.sol (Num (9 # 1)%Q));
          UpdateOne (Str "BTCUSDT") (Str "BUY")
                    (expected_record ex.btc_new (Num (42 # 1)%Q));
          UpdateOne (Str "ADAUSDT") (Str "BUY")
                    (expected_record ex.ada (Num (1 # 2)%Q)) ].
Proof.
  destruct (proj1 (proj2 (proj2 (proj2 scores_stay_with_their_rows)))
              ex.env_rows ex.config ex.s0 ["SOLUSDT"; "BTCUSDT"; "ADAUSDT"]
              ex.open_model [Num (9 # 1)%Q; Num (42 # 1)%Q; Num (1 # 2)%Q]
              ex_env_rows_scored)
    as (tr & Htr & _ & Hup & _ & Hev & Hall).
  exists tr. split; [exact Htr|].
  rewrite Hup, Hall by reflexivity. exact Hev.
Defined.

(** ** The records handed to the writer *)

Section shape.

Implicit Types (st : DataFrame) (cols : list (string * list cell)).

Lemma labelled_fmap c (g : string * list cell → string * list cell) cols :
  (∀ p, (g p).1 = p.1) → labelled c (g <$> cols) = g <$> labelled c cols.
Proof.
  intros Hg. unfold labelled. induction cols as [|p cols IH]; [done|].
  rewrite fmap_cons, !filter_cons, Hg, IH. by case_decide.
Qed.

Lemma fill_notnull v c : notnull v = true → notnull (fill v c) = true.
Proof. by destruct c. Qed.

Lemma mask_filter_notnull (col : list cell) :
  Forall (λ c, notnull c = true) (mask_filter (notnull <$> col) col).
Proof.
  induction col as [|c col IH]; simpl; [constructor|].
  destruct (notnull c) eqn:Hc; [by constructor|done].
Qed.

Lemma default_prediction_columns st :
  columns (default_prediction st)
  = (λ p : string * list cell,
       if bool_decide (p.1 = "prediction") then (p.1, fill (Str "BUY") <$> p.2) else p)
    <$> (if contains st "prediction" then columns st
         else columns st ++ [("prediction", replicate (index st) (Str "BUY"))]).
Proof.
  unfold default_prediction, fillna, setitem_scalar, assign, contains, labels.
  simpl. by case_bool_decide.
Qed.

Lemma default_prediction_notnull st col :
  ("prediction", col) ∈ columns (default_prediction st) →
  Forall (λ c, notnull c = true) col.
Proof.
  rewrite default_prediction_columns. intros [p [Heq _]]%list_elem_of_fmap.
  case_bool_decide as Hp; simplify_eq/=.
  apply Forall_fmap, Forall_true. intros c. by apply fill_notnull.
Qed.

Lemma default_prediction_missing st :
  contains st "prediction" = false →
  labelled "prediction" (columns (default_prediction st))
  = [("prediction", replicate (index st) (Str "BUY"))].
Proof.
  intros Hc. rewrite default_prediction_columns, Hc.
  rewrite labelled_fmap by (intros p; by case_bool_decide).
  rewrite labelled_app.
  assert (labelled "prediction" (columns st) = []) as ->.
  { apply labelled_nil_iff. apply bool_decide_eq_false in Hc. done. }
  simpl. by rewrite fmap_replicate.
Qed.

Lemma default_prediction_fills st col :
  ("prediction", col) ∈ columns st →
  ("prediction", fill (Str "BUY") <$> col) ∈ columns (default_prediction st).
Proof.
  intros Hin. rewrite default_prediction_columns.
  assert (contains st "prediction" = true) as ->.
  { apply contains_true. apply list_elem_of_fmap. by exists ("prediction", col). }
  apply list_elem_of_fmap. exists ("prediction", col). split; [|done].
  by rewrite bool_decide_eq_true_2.
Qed.

Lemma valid_rows_notnull st col :
  labelled "confidence_score" (columns st) = [("confidence_score", col)] →
  series (valid_rows st) "confidence_score"
  = mask_filter (notnull <$> col) col
  ∧ Forall (λ c, notnull c = true) (series (valid_rows st) "confidence_score").
Proof.
  intros Hl.
  assert (series st "confidence_score" = col) as Hs
    by (unfold series, getitem; by rewrite Hl).
  assert (series (valid_rows st) "confidence_score"
          = mask_filter (notnull <$> col) col) as ->.
  { unfold valid_rows, series at 1, getitem, loc. simpl.
    rewrite labelled_fmap by done. by rewrite Hl, Hs. }
  split; [done|apply mask_filter_notnull].
Qed.

Lemma heads_fst cols k : k ∈ (heads cols).*1 → k ∈ cols.*1.
Proof.
  unfold heads. rewrite !list_elem_of_fmap.
  intros [[k' v] [-> [p [Hp Hh]]%list_elem_of_omap]]. exists p. split; [|done].
  destruct (head p.2); by simplify_eq/=.
Qed.

Lemma tails_fst cols : (tails cols).*1 = cols.*1.
Proof. unfold tails. rewrite <- list_fmap_compose. by apply list_fmap_ext. Qed.

Lemma records_dom n cols r k :
  r ∈ records n cols → k ∈ dom r → k ∈ cols.*1.
Proof.
  revert cols. induction n as [|n IH]; intros cols; simpl.
  - intros Hr. by apply elem_of_nil in Hr.
  - intros [->|Hr]%elem_of_cons Hk.
    + rewrite dom_list_to_map_L, elem_of_list_to_set in Hk. by apply heads_fst.
    + rewrite <- tails_fst. by apply IH.
Qed.

Lemma records_to_save_dom st r k :
  r ∈ records_to_save st → k ∈ dom r →
  k ∈ ["symbol"; "buyid"; "prediction"; "confidence_score"].
Proof.
  unfold records_to_save, to_dict_records. intros Hr Hk.
  pose proof (records_dom _ _ _ _ Hr Hk) as Hin.
  apply (labels_select st) in Hin as [Hin _].
  by apply list_elem_of_filter in Hin as [_ ?].
Qed.

End shape.

(** C10. Every record a run hands to the writer has a confidence_score that
    is not null, has prediction "BUY" (and is written under that value), and
    has the four fields symbol, buyid, prediction, confidence_score and no
    other. The steps that make it so, on any frame: a frame without a
    prediction column gets one that is "BUY" throughout, and every null
    prediction is replaced by "BUY", so that no prediction is null; the row
    filter keeps the rows whose confidence_score is not null; and the
    records made of a frame carry no field outside the four. *)
Theorem persisted_records_shape :
  (∀ env config s sy pr r,
     UpdateOne sy pr r ∈ trace (orchestrator_stage2 env config s).2 →
     UpdateOne sy pr r ∉ trace s →
     (∃ v, r !! "confidence_score" = Some v ∧ notnull v = true)
     ∧ r !! "prediction" = Some (Str "BUY") ∧ pr = Str "BUY"
     ∧ dom r = list_to_set ["symbol"; "buyid"; "prediction"; "confidence_score"])
  ∧ (∀ st,
       (contains st "prediction" = false →
        labelled "prediction" (columns (default_prediction st))
        = [("prediction", replicate (index st) (Str "BUY"))])
       ∧ (∀ col, ("prediction", col) ∈ columns st →
                 ("prediction", fill (Str "BUY") <$> col)
                   ∈ columns (default_prediction st))
       ∧ (∀ col, ("prediction", col) ∈ columns (default_prediction st) →
                 Forall (λ c, notnull c = true) col))
  ∧ (∀ st col,
       labelled "confidence_score" (columns st) = [("confidence_score", col)] →
       series (valid_rows st) "confidence_score" = mask_filter (notnull <$> col) col
       ∧ Forall (λ c, notnull c = true) (series (valid_rows st) "confidence_score"))
  ∧ (∀ st r k,
       r ∈ records_to_save st → k ∈ dom r →
       k ∈ ["symbol"; "buyid"; "prediction"; "confidence_score"]).
Proof.
  split_and!.
  - intros env config s sy pr r Hin Hnew.
    apply stage2_updates in Hin
      as [?|(coins & model & preds & _ & Hr & Hev)]; [done|].
    apply (elem_of_prefix _ _ _ (attempted_prefix _ _)) in Hr.
    apply elem_of_expected_records in Hr as (i & d & sc & _ & _ & Hsc & ->).
    rewrite expected_record_event in Hev. injection Hev as -> ->.
    destruct (expected_record_fields d sc) as (_ & _ & H3 & H4 & H5).
    split_and!; [by exists sc|done..].
  - intros st. split_and!.
    + apply default_prediction_missing.
    + apply default_prediction_fills.
    + apply default_prediction_notnull.
  - apply valid_rows_notnull.
  - apply records_to_save_dom.
Qed.

Lemma persisted_records_shape_witness :
  (∃ v, ex.fresh !! "confidence_score" = Some v ∧ notnull v = true)
  ∧ ex.fresh !! "prediction" = Some (Str "BUY") ∧ Str "BUY" = Str "BUY"
  ∧ dom ex.fresh = list_to_set ["symbol"; "buyid"; "prediction"; "confidence_score"].
Proof.
  apply (proj1 persisted_records_shape
               ex.env ex.config ex.s0 (Str "BTCUSDT") (Str "BUY") ex.fresh).
  - apply list_elem_of_In. vm_compute. tauto.
  - intros H. by apply elem_of_nil in H.
Defined.

(** ** Upserts and repeated runs *)

Lemma step_keys env config s :
  (NoDup (mongo.key_of <$> docs (dest s)) →
   NoDup (mongo.key_of <$> docs (dest (orchestrator_stage2 env config s).2)))
  ∧ ∀ k, k ∈ mongo.key_of <$> docs (dest s) →
         k ∈ mongo.key_of <$> docs (dest (orchestrator_stage2 env config s).2).
Proof.
  destruct (stage2_docs env config s) as [->|(rs & Hk & Hnd & ->)]; [done|].
  split.
  - intros _. by apply written_keys_NoDup.
  - intros k Hin. apply written_keys_elem; [done|]. by left.
Qed.

Lemma runs_keys env config n s :
  (NoDup (mongo.key_of <$> docs (dest s)) →
   NoDup (mongo.key_of <$> docs (dest (runs n env config s))))
  ∧ ∀ k, k ∈ mongo.key_of <$> docs (dest s) →
         k ∈ mongo.key_of <$> docs (dest (runs n env config s)).
Proof.
  induction n as [|n [IH1 IH2]]; simpl; [done|].
  destruct (step_keys env config (runs n env config s)) as [H1 H2].
  split; [auto|]. intros k Hk. auto.
Qed.

Lemma runs_S env config n s :
  runs (S n) env config s = runs n env config (orchestrator_stage2 env config s).2.
Proof.
  induction n as [|n IH]; [done|].
  change (runs (S (S n)) env config s)
    with (orchestrator_stage2 env config (runs (S n) env config s)).2.
  by rewrite IH.
Qed.

Lemma first_run_key env config s sy pr r :
  UpdateOne sy pr r ∈ trace (orchestrator_stage2 env config s).2 →
  UpdateOne sy pr r ∉ trace s →
  write_fault env r = false →
  NoDup (mongo.key_of <$> docs (dest (orchestrator_stage2 env config s).2))
  ∧ (Some sy, Some pr) ∈ mongo.key_of <$> docs (dest (orchestrator_stage2 env config s).2).
Proof.
  intros Hin Hnew Hf. revert Hin.
  destruct (stage2_ending env config s)
    as [tr [] | tr coins model preds Hsc [Hq _ _] _ ->
        | tr coins model preds [[] _ _] [Hq _ _] _ ->]; simpl.
  - rewrite ca_trace0, elem_of_app. intros [?|Hin]; [done|].
    rewrite Forall_forall in ca_no_update0. by apply ca_no_update0 in Hin.
  - rewrite !elem_of_app. intros [[?|Hin]|Hin]; [done|..].
    + rewrite Forall_forall in Hq. by apply Hq in Hin.
    + repeat (apply elem_of_cons in Hin as [?|Hin]; [done|]).
      by apply elem_of_nil in Hin.
  - pose proof (expected_records_keyed (batch env coins) preds) as Hk.
    rewrite !elem_of_app. intros [?|[Hin|[Hin|Hin]]]; [done|..].
    + rewrite Forall_forall in Hq. by apply Hq in Hin.
    + split; [apply written_keys_NoDup; [by apply written_keyed|done]|].
      apply list_elem_of_fmap in Hin as [r' [Heq Hr']].
      pose proof (update_event_inv _ _ _ _ Heq) as ->.
      apply written_keys_elem; [by apply written_keyed|]. right.
      apply list_elem_of_fmap. exists r. split; [|by apply written_attempted].
      rewrite Forall_forall in Hk.
      destruct (Hk r) as [[sy' Hsy] [pr' Hpr]].
      { eapply elem_of_prefix; [apply attempted_prefix|done]. }
      unfold update_event in Heq. rewrite Hsy, Hpr in Heq.
      injection Heq as -> ->. unfold mongo.key_of. by rewrite Hsy, Hpr.
    + apply elem_of_tail_events in Hin; [|done].
      by apply save_report_quiet in Hin.
Qed.

(** C1. The write of a record is an upsert under the record's own symbol
    and prediction: when no document of the collection carries that pair the
    record is added as a new last document; otherwise the first document
    that carries it is replaced, at its place, by itself with every field of
    the record set to the record's value (buyid and confidence_score among
    them) and its other fields kept. The writer sends the records in order,
    each under its own pair. Hence a collection that repeats no pair repeats
    none after any number of runs, and once a run has written a record, the
    collection holds exactly one document for that record's pair after that
    run and after every further run on the same inputs. *)
Theorem upsert_keeps_one_record_per_key :
  (∀ sy pr r ds,
     r !! "symbol" = Some sy → r !! "prediction" = Some pr →
     ((∀ d, d ∈ ds → mongo.matches sy pr d = false) →
      mongo.upsert sy pr r ds = ds ++ [r])
     ∧ (∀ i d,
          ds !! i = Some d → mongo.matches sy pr d = true →
          (∀ j d', j < i → ds !! j = Some d' → mongo.matches sy pr d' = false) →
          mongo.upsert sy pr r ds = <[i := r ∪ d]> ds
          ∧ (∀ f v, r !! f = Some v → (r ∪ d) !! f = Some v)
          ∧ (∀ f, r !! f = None → (r ∪ d) !! f = d !! f)))
  ∧ (∀ env collection rs s,
       Forall keyed rs → (∀ r, r ∈ rs → write_fault env r = false) →
       save env collection rs s
       = (Value tt,
          {| dest := {| docs := foldl upsert_record (docs (dest s)) rs;
                        unique_index := unique_index (dest s) |};
             trace := trace s ++ (update_event <$> rs)
                              ++ [Log INFO (Saved (length rs) collection)] |}))
  ∧ (∀ env config n s,
       NoDup (mongo.key_of <$> docs (dest s)) →
       NoDup (mongo.key_of <$> docs (dest (runs n env config s))))
  ∧ (∀ env config n s sy pr r,
       UpdateOne sy pr r ∈ trace (runs 1 env config s) →
       UpdateOne sy pr r ∉ trace s →
       write_fault env r = false →
       count_key (Some sy, Some pr) (docs (dest (runs (S n) env config s))) = 1).
Proof.
  split_and!.
  - intros sy pr r ds Hsy Hpr. split.
    + by apply upsert_insert.
    + intros i d Hi Hm Hfirst. split_and!.
      * by apply upsert_overwrite.
      * intros f v. apply set_fields.
      * intros f. apply kept_fields.
  - intros env collection rs s Hk Hnf. rewrite save_run by done.
    unfold save_report.
    by destruct (no_fault_all env rs Hnf) as (-> & -> & ->).
  - intros env config n s. apply runs_keys.
  - intros env config n s sy pr r Hin Hnew Hf.
    destruct (first_run_key env config s sy pr r Hin Hnew Hf) as [Hnd Hk].
    rewrite runs_S.
    destruct (runs_keys env config n (orchestrator_stage2 env config s).2)
      as [H1 H2].
    apply count_key_NoDup; auto.
Qed.

Lemma upsert_keeps_one_record_per_key_witness :
  count_key (Some (Str "BTCUSDT"), Some (Str "BUY"))
            (docs (dest (runs 3 ex.env ex.config ex.s0))) = 1
  ∧ mongo.upsert (Str "BTCUSDT") (Str "BUY") ex.fresh [ex.stale]
    = [ex.fresh ∪ ex.stale].
Proof.
  split.
  - apply (proj2 (proj2 (proj2 upsert_keeps_one_record_per_key))
                 ex.env ex.config 2 ex.s0 (Str "BTCUSDT") (Str "BUY") ex.fresh).
    + apply list_elem_of_In. vm_compute. tauto.
    + intros H. by apply elem_of_nil in H.
    + reflexivity.
  - apply (proj2 (proj1 upsert_keeps_one_record_per_key
                        (Str "BTCUSDT") (Str "BUY") ex.fresh [ex.stale]
                        eq_refl eq_refl) 0 ex.stale).
    + reflexivity.
    + by vm_compute.
    + intros j d' Hj. lia.
Defined.

(** ** A write that fails *)

Lemma first_fault env rs1 r rs2 :
  (∀ r', r' ∈ rs1 → write_fault env r' = false) →
  write_fault env r = true →
  attempted env (rs1 ++ r :: rs2) = rs1 ++ [r]
  ∧ written env (rs1 ++ r :: rs2) = rs1
  ∧ existsb (write_fault env) (rs1 ++ r :: rs2) = true.
Proof.
  intros Hok Hf. induction rs1 as [|r1 rs1 IH]; simpl.
  - by rewrite Hf.
  - rewrite (Hok r1) by left. simpl.
    destruct IH as (-> & -> & ->); [|done]. intros r' Hr'. apply Hok. by right.
Qed.

(** C2 does not hold: the loop over the records stands inside one [try]. With
    three coins that each have a snapshot and a server that rejects the write
    for the second, SOLUSDT, the run sends the writes for BTCUSDT and SOLUSDT
    and none for ADAUSDT, whose record the server would have taken; the
    destination ends with the document of BTCUSDT alone. *)
Lemma write_failure_ends_the_batch :
  snap_symbol <$> batch ex.env_fault ["BTCUSDT"; "SOLUSDT"; "ADAUSDT"]
  = ["BTCUSDT"; "SOLUSDT"; "ADAUSDT"]
  ∧ write_fault ex.env_fault (expected_record ex.ada (Num (7 # 10)%Q)) = false
  ∧ updated_symbols (trace (orchestrator_stage2 ex.env_fault ex.config ex.s0).2)
    = [Str "BTCUSDT"; Str "SOLUSDT"]
  ∧ (λ d : gmap string cell, d !! "symbol")
      <$> docs (dest (orchestrator_stage2 ex.env_fault ex.config ex.s0).2)
    = [Some (Str "BTCUSDT")]
  ∧ errors (trace (orchestrator_stage2 ex.env_fault ex.config ex.s0).2)
    = [ErrorSaving ServerError].
Proof. split_and!; by vm_compute. Qed.

(** C2, as the code has it. The first write that fails ends the batch: the
    records before it are written, the failing record is sent and not
    written, the records after it are not sent, and the failure is logged
    once, as an ERROR line; the writer itself returns normally, so the run
    goes on to close the connection. *)
Theorem save_stops_at_first_failure env collection rs1 r rs2 s :
  Forall keyed (rs1 ++ r :: rs2) →
  (∀ r', r' ∈ rs1 → write_fault env r' = false) →
  write_fault env r = true →
  save env collection (rs1 ++ r :: rs2) s
  = (Value tt,
     {| dest := {| docs := foldl upsert_record (docs (dest s)) rs1;
                   unique_index := unique_index (dest s) |};
        trace := trace s ++ (update_event <$> rs1 ++ [r])
                         ++ [Log ERROR (ErrorSaving ServerError)] |}).
Proof.
  intros Hk Hok Hf. rewrite save_run by done. unfold save_report.
  by destruct (first_fault env rs1 r rs2 Hok Hf) as (-> & -> & ->).
Qed.

Lemma save_stops_at_first_failure_witness :
  save ex.env_fault "suggested_trades"
       ([expected_record ex.btc_new (Num (7 # 10)%Q)]
        ++ expected_record ex.sol (Num (7 # 10)%Q)
        :: [expected_record ex.ada (Num (7 # 10)%Q)]) ex.s0
  = (Value tt,
     {| dest := {| docs := foldl upsert_record (docs (dest ex.s0))
                                 [expected_record ex.btc_new (Num (7 # 10)%Q)];
                   unique_index := unique_index (dest ex.s0) |};
        trace := trace ex.s0
                 ++ (update_event <$> [expected_record ex.btc_new (Num (7 # 10)%Q)]
                                      ++ [expected_record ex.sol (Num (7 # 10)%Q)])
                 ++ [Log ERROR (ErrorSaving ServerError)] |}).
Proof.
  apply (save_stops_at_first_failure ex.env_fault "suggested_trades").
  - simpl. repeat (apply Forall_cons; split; [apply expected_record_keyed|]).
    apply Forall_nil. done.
  - intros r' ->%list_elem_of_singleton. by vm_compute.
  - by vm_compute.
Defined.

(** * Further properties of the two files *)

(** ** The model step always answers *)

Lemma run_case_no_store env inputs res trr :
  RunCase env inputs res trr → Forall (λ ev, ¬ is_store ev) trr.
Proof. destruct 1; repeat constructor; simpl; tauto. Qed.

Lemma run_case_messages env inputs msg trr :
  RunCase env inputs (error msg) trr →
  msg ∈ ["No input data"; "model_file required"; "Failed to load model";
         "No feature columns available for prediction"; "Prediction failed"].
Proof. inversion 1; apply list_elem_of_In; simpl; tauto. Qed.

(** X1. [run] always answers with a result: whatever its inputs, and whether
    or not the load of the model or the prediction raises, it ends normally
    with an error result that carries one of its five messages or with a
    success result; it leaves the destination as it is and sends nothing to
    the store. *)
Theorem run_always_answers env inputs s :
  ∃ res tr,
    run env inputs s = (Value res, extend s tr)
    ∧ Forall (λ ev, ¬ is_store ev) tr
    ∧ ((∃ msg, res = error msg
               ∧ msg ∈ ["No input data"; "model_file required";
                        "Failed to load model";
                        "No feature columns available for prediction";
                        "Prediction failed"])
       ∨ ∃ df preds, data inputs = Some df ∧ length preds = index df
                     ∧ res = success (scored_frame df preds)).
Proof.
  destruct (run_cases env inputs s) as (res & tr & Hrun & Hcase).
  exists res, tr. split_and!; [done|by eapply run_case_no_store|].
  destruct res as [msg|st].
  - left. exists msg. split; [done|]. by eapply run_case_messages.
  - right. inversion Hcase; subst. by eexists _, _.
Qed.

(** X2. [run] validates its inputs before it touches the model file: without
    data, or with a frame that has no row or no column, it answers
    "No input data", and with data but without a model path (none, or the
    empty string) it answers "model_file required"; in both cases its one
    event is the ERROR line, so the model file is not opened, whatever the
    file system holds. *)
Theorem run_validates_inputs_first env inputs s :
  (data inputs = None ∨ (∃ df, data inputs = Some df ∧ empty df = true) →
   run env inputs s
   = (Value (error "No input data"), extend s [Log ERROR InputDataMissing]))
  ∧ (∀ df, data inputs = Some df → empty df = false →
           model_file inputs = None ∨ model_file inputs = Some "" →
           run env inputs s
           = (Value (error "model_file required"),
              extend s [Log ERROR MissingModelFilePath])).
Proof.
  split.
  - intros [Hd|(df & Hd & He)]; unfold run; rewrite Hd; [done|].
    by rewrite He.
  - intros df Hd He Hm. unfold run. rewrite Hd, He.
    by destruct Hm as [->| ->].
Qed.

Lemma run_validates_inputs_first_witness :
  run ex.env {| data := Some {| index := 0; columns := [("open", [])] |};
                model_file := Some "/app/src/../model.json" |} ex.s0
  = (Value (error "No input data"), extend ex.s0 [Log ERROR InputDataMissing]).
Proof.
  apply (proj1 (run_validates_inputs_first ex.env _ ex.s0)).
  right. eexists. split; reflexivity.
Defined.

(** X3. The frame [run] returns on success has the rows of its input and no
    column but prediction and confidence_score (no feature, no symbol): its
    labels are these two, every column labelled confidence_score is the
    predictions, every column labelled prediction is "BUY" throughout, and
    when the input had neither label the frame is exactly these two
    columns. *)
Theorem run_returns_two_columns df preds :
  index (scored_frame df preds) = index df
  ∧ (∀ c, c ∈ labels (scored_frame df preds)
          ↔ c = "prediction" ∨ c = "confidence_score")
  ∧ (∀ c col, (c, col) ∈ columns (scored_frame df preds) →
              (c = "prediction" ∧ col = replicate (index df) (Str "BUY"))
              ∨ (c = "confidence_score" ∧ col = preds))
  ∧ ("prediction" ∉ labels df → "confidence_score" ∉ labels df →
     columns (scored_frame df preds)
     = [("prediction", replicate (index df) (Str "BUY"));
        ("confidence_score", preds)]).
Proof.
  assert (∀ c col, (c, col) ∈ columns (scored_frame df preds) →
              (c = "prediction" ∧ col = replicate (index df) (Str "BUY"))
              ∨ (c = "confidence_score" ∧ col = preds)) as Hcols.
  { intros c col. rewrite columns_scored_frame, elem_of_app.
    intros [[[= -> ->] _]%elem_of_replicate|[[= -> ->] _]%elem_of_replicate];
      tauto. }
  split_and!; [done| |done|].
  - intros c. split.
    + intros [[c' col] [-> Hin]]%list_elem_of_fmap.
      apply Hcols in Hin. simpl. tauto.
    + unfold labels. rewrite columns_scored_frame, fmap_app, !fmap_replicate.
      rewrite elem_of_app, !elem_of_replicate. simpl.
      intros [->| ->]; [left|right]; (split; [done|lia]).
  - intros Hp Hc. by rewrite scored_frame_fresh.
Qed.

(** ** The columns both lists name twice *)

(** X4. A run never uses relative_volume or rsi_x_relative_volume as a
    feature. The orchestrator's column list names both twice, so when the
    fetched batch has such a column the frame handed to the model carries it
    twice, the selection of that label is a sub-frame and not a column, the
    numeric test of line 50 answers no, and the label is left out of the
    feature list; no feature matrix that a run hands to the model has a
    column of either name. *)
Theorem doubly_listed_columns_never_scored :
  (∀ df_latest c,
     c ∈ ["relative_volume"; "rsi_x_relative_volume"] →
     getitem (model_input df_latest) c
     = (if contains df_latest c then getitem df_latest c ++ getitem df_latest c
        else [])
     ∧ c ∉ feature_cols (model_input df_latest))
  ∧ (∀ env config s X c,
       Predict X ∈ trace (orchestrator_stage2 env config s).2 →
       Predict X ∉ trace s →
       c ∈ ["relative_volume"; "rsi_x_relative_volume"] → c ∉ labels X).
Proof.
  assert (∀ df_latest c,
     c ∈ ["relative_volume"; "rsi_x_relative_volume"] →
     c ∉ feature_cols (model_input df_latest)) as Hunused.
  { intros df_latest c Hc [_ Hu]%elem_of_feature_cols. unfold usable in Hu.
    apply andb_true_iff in Hu as [Hin Hnum].
    apply contains_true, model_input_labels in Hin as [_ Hin].
    rewrite getitem_model_input_twice in Hnum by done.
    rewrite (proj2 (contains_true _ _) Hin) in Hnum.
    unfold labels, getitem in *.
    apply list_elem_of_fmap in Hin as [[c' col] [-> Hin]]. simpl in *.
    assert ((c', col) ∈ labelled c' (columns df_latest)) as Hl
      by (unfold labelled; by apply list_elem_of_filter).
    destruct (labelled c' (columns df_latest)) as [|p [|q l]];
      [by apply elem_of_nil in Hl|done..]. }
  split.
  - intros df_latest c Hc. split; [by apply getitem_model_input_twice|auto].
  - intros env config s X c HX Hnew Hc.
    apply stage2_predicts in HX as [?|(coins & model & _ & ->)]; [done|].
    rewrite labels_feature_matrix, <- elem_of_feature_cols. auto.
Qed.

Lemma doubly_listed_columns_never_scored_witness :
  getitem (model_input (latest_frame [ex2.btc_rv])) "relative_volume"
  = (if contains (latest_frame [ex2.btc_rv]) "relative_volume"
     then getitem (latest_frame [ex2.btc_rv]) "relative_volume"
          ++ getitem (latest_frame [ex2.btc_rv]) "relative_volume"
     else [])
  ∧ "relative_volume" ∉ feature_cols (model_input (latest_frame [ex2.btc_rv])).
Proof.
  apply (proj1 doubly_listed_columns_never_scored).
  apply list_elem_of_In. simpl. tauto.
Defined.

(** ** The loop over the coins *)

Lemma queried_app tr1 tr2 : queried (tr1 ++ tr2) = queried tr1 ++ queried tr2.
Proof. unfold queried. apply omap_app. Qed.

Lemma queried_fetch_trace env coins : queried (fetch_trace env coins) = coins.
Proof.
  induction coins as [|c coins IH]; [done|].
  unfold fetch_trace in *. rewrite bind_cons, queried_app, IH.
  by destruct (latest env c).
Qed.

Lemma batch_symbols env coins :
  snap_symbol <$> batch env coins = filter (λ c, is_Some (latest env c)) coins.
Proof.
  unfold batch. induction coins as [|c coins IH]; [done|].
  rewrite filter_cons. simpl. destruct (latest env c) as [d|] eqn:Hd; simpl.
  - rewrite <- IH. by apply latest_Some in Hd as (_ & -> & _).
  - apply IH.
Qed.

(** X5. The loop of lines 86-92 sends one query per coin of the list, in the
    order of the list and repetitions included, and sends nothing else to
    the store. It returns the frames it was given followed by one
    one-row frame per coin that has a snapshot, so that the symbols of the
    batch are the coins that have a snapshot, in the order of the list. *)
Theorem fetch_queries_each_coin env coins acc s :
  ∃ frames tr,
    fetch env coins acc s = (Value (acc ++ frames), extend s tr)
    ∧ queried tr = coins
    ∧ Forall (λ ev, ¬ is_update ev ∧ ¬ is_predict ev ∧ ¬ is_close ev) tr
    ∧ frames = frame_of <$> batch env coins
    ∧ Forall (λ f, index f = 1) frames
    ∧ snap_symbol <$> batch env coins
      = filter (λ c, is_Some (latest env c)) coins.
Proof.
  exists (frame_of <$> batch env coins), (fetch_trace env coins).
  split_and!.
  - apply fetch_run.
  - apply queried_fetch_trace.
  - apply Forall_forall. intros ev Hev.
    unfold fetch_trace in Hev. apply list_elem_of_bind in Hev as [c [Hev _]].
    apply elem_of_cons in Hev as [->|Hev]; [simpl; tauto|].
    destruct (latest env c); [by apply elem_of_nil in Hev|].
    apply list_elem_of_singleton in Hev as ->. simpl. tauto.
  - done.
  - apply Forall_fmap, Forall_true. done.
  - apply batch_symbols.
Qed.

(** ** The coins file *)

(** X6. The coins file is read outside any [try]: when it is not valid JSON
    the exception of [json.load] ends the run, uncaught, after the two path
    tests and the read, before the store is contacted. When it holds an
    empty list or a value that is not a list, the run logs the invalid coin
    list and returns, at that same point. *)
Theorem coins_file_edge_cases env config s :
  missing_keys config = [] →
  is_Some (fs env !! coins_path env config) →
  is_Some (fs env !! model_path env config) →
  (fs env !! coins_path env config ≫= as_json = None →
   orchestrator_stage2 env config s
   = (Raised JSONDecodeError,
      extend s [PathExists (coins_path env config);
                PathExists (model_path env config);
                OpenRead (coins_path env config)]))
  ∧ (fs env !! coins_path env config ≫= as_json = Some (JList [])
     ∨ fs env !! coins_path env config ≫= as_json = Some JOther →
     orchestrator_stage2 env config s
     = (Returned,
        extend s [PathExists (coins_path env config);
                  PathExists (model_path env config);
                  OpenRead (coins_path env config);
                  Log ERROR InvalidCoinsList])).
Proof.
  intros Hcfg [fc Hfc] [fm Hfm].
  assert (∀ k : bool → M unit,
            (os.path_exists env (coins_path env config) ≫= k) s
            = k true (extend s [PathExists (coins_path env config)])) as Hc.
  { intros k. erewrite bind_value by apply path_exists_run. by rewrite Hfc. }
  assert (∀ s' (k : bool → M unit),
            (os.path_exists env (model_path env config) ≫= k) s'
            = k true (extend s' [PathExists (model_path env config)])) as Hm.
  { intros s' k. erewrite bind_value by apply path_exists_run. by rewrite Hfm. }
  unfold orchestrator_stage2. rewrite bool_decide_eq_true_2 by done. simpl.
  fold (coins_path env config) (model_path env config).
  rewrite Hc. simpl. rewrite Hm. simpl. split.
  - intros Hj. erewrite bind_raised by by apply json_load_raised.
    by rewrite !extend_extend.
  - intros [Hj|Hj]; (erewrite bind_value by by apply json_load_value);
      mrun; by rewrite <- !app_assoc.
Qed.

Lemma coins_file_edge_cases_witness :
  orchestrator_stage2 ex2.env_bad_json ex.config ex.s0
  = (Raised JSONDecodeError,
     extend ex.s0 [PathExists "/app/src/../coins.json";
                   PathExists "/app/src/../model.json";
                   OpenRead "/app/src/../coins.json"]).
Proof.
  apply (proj1 (coins_file_edge_cases ex2.env_bad_json ex.config ex.s0
                  eq_refl (mk_is_Some _ _ eq_refl) (mk_is_Some _ _ eq_refl))).
  reflexivity.
Defined.

(** ** A run whose every stage goes through, event by event *)

(** X7. A run whose every stage goes through (complete configuration, both
    files, a non-empty list of coins, a server that answers, a destination
    that repeats no key, a snapshot for some coin, a model that loads and
    answers one score per row of the batch) does exactly this: it tests the
    two paths, reads the coins file, connects and sets the unique index,
    queries each coin, loads the model and calls it once on the feature
    matrix of the batch. If every score is null it then warns, closes the
    connection and returns; otherwise it sends the records with a score in
    the order of the batch, up to the first write the server rejects, logs
    one line for the batch, closes the connection and logs the completion.
    The destination holds the upserts of the records that were written. *)
Theorem scored_run_trace env config s coins model preds :
  Scored env config (dest s) coins model preds →
  orchestrator_stage2 env config s
  = if bool_decide (expected_records (batch env coins) preds = [])
    then (Returned,
          extend (scored_state s (scored_prefix env config coins))
                 [Log WARNING NoPredictionsWithConfidence; Close])
    else (Value tt,
          {| dest :=
               {| docs := foldl upsert_record (docs (dest s))
                            (written env (expected_records (batch env coins) preds));
                  unique_index := true |};
             trace :=
               trace s ++ scored_prefix env config coins
               ++ (update_event
                     <$> attempted env (expected_records (batch env coins) preds))
               ++ [save_report env (default "" (config !! "suggested_trades_collection"))
                               (expected_records (batch env coins) preds);
                   Close; Log INFO Completed] |}).
Proof. apply scored_run. Qed.

Lemma scored_run_trace_witness :
  orchestrator_stage2 ex.env ex.config ex.s0
  = (Value tt,
     {| dest := {| docs := [ex.fresh]; unique_index := true |};
        trace :=
          scored_prefix ex.env ex.config ["BTCUSDT"; "ETHUSDT"]
          ++ [UpdateOne (Str "BTCUSDT") (Str "BUY") ex.fresh;
              Log INFO (Saved 1 "suggested_trades");
              Close; Log INFO Completed] |}).
Proof.
  exact (scored_run_trace ex.env ex.config ex.s0 ["BTCUSDT"; "ETHUSDT"]
           ex.flat_model [Num (7 # 10)%Q] ex_env_scored).
Defined.

(** ** The writes of a scored run *)

Lemma length_expected_records_scores b preds :
  length preds = length b →
  length (expected_records b preds)
  = length (filter (λ sc, notnull sc = true) preds).
Proof.
  revert preds. induction b as [|d b IH]; intros [|sc preds] Hlen; try done.
  rewrite expected_records_cons, filter_cons. simpl in Hlen.
  destruct (notnull sc) eqn:Hsc.
  - rewrite decide_True by done. simpl. f_equal. apply IH. lia.
  - rewrite decide_False by done. apply IH. lia.
Qed.

Lemma expected_records_null b preds :
  Forall (λ sc, notnull sc = false) preds → expected_records b preds = [].
Proof.
  intros Hnull. revert b. induction Hnull as [|sc preds Hsc _ IH]; intros b.
  - apply expected_records_nil_r.
  - destruct b as [|d b]; [done|]. by rewrite expected_records_cons, Hsc.
Qed.

(** X8. In a run whose every stage goes through, the writes sent to the
    destination are at most as many as the non-null scores of the model,
    and exactly as many when the server rejects no write. When every score
    is null the run returns without a write and leaves the documents of the
    destination as they were; when some score is not null it runs to its
    end. *)
Theorem writes_match_scores env config s coins model preds :
  Scored env config (dest s) coins model preds →
  ∃ tr,
    trace (orchestrator_stage2 env config s).2 = trace s ++ tr
    ∧ length (filter is_update tr) ≤ length (filter (λ sc, notnull sc = true) preds)
    ∧ ((∀ r, write_fault env r = false) →
       length (filter is_update tr)
       = length (filter (λ sc, notnull sc = true) preds))
    ∧ (Forall (λ sc, notnull sc = false) preds →
       (orchestrator_stage2 env config s).1 = Returned
       ∧ docs (dest (orchestrator_stage2 env config s).2) = docs (dest s))
    ∧ (Exists (λ sc, notnull sc = true) preds →
       (orchestrator_stage2 env config s).1 = Value tt).
Proof.
  intros Hsc. rewrite (scored_run env config s coins model preds Hsc).
  pose proof (length_expected_records_scores (batch env coins) preds
                (sc_length _ _ _ _ _ _ Hsc)) as Hlen.
  pose proof (scored_prefix_quiet env config coins) as Hq.
  case_bool_decide as Hrs.
  - exists (scored_prefix env config coins
            ++ [Log WARNING NoPredictionsWithConfidence; Close]).
    rewrite Hrs in Hlen. simpl in Hlen.
    assert (filter is_update
              (scored_prefix env config coins
               ++ [Log WARNING NoPredictionsWithConfidence; Close]) = []) as ->.
    { apply filter_none, Forall_app. split; [done|].
      repeat constructor; simpl; tauto. }
    split_and!.
    + simpl. by rewrite <- app_assoc.
    + simpl. lia.
    + intros _. by rewrite <- Hlen.
    + done.
    + intros Hex. exfalso.
      destruct (filter (λ sc, notnull sc = true) preds) as [|x l] eqn:Hf;
        [|done].
      apply Exists_exists in Hex as (sc & Hin & Hnn).
      assert (sc ∈ filter (λ sc, notnull sc = true) preds) as Hx
        by by apply list_elem_of_filter.
      rewrite Hf in Hx. by apply elem_of_nil in Hx.
  - exists (scored_prefix env config coins
            ++ (update_event
                  <$> attempted env (expected_records (batch env coins) preds))
            ++ [save_report env (default "" (config !! "suggested_trades_collection"))
                            (expected_records (batch env coins) preds);
                Close; Log INFO Completed]).
    split; [done|].
    assert (filter is_update
              (scored_prefix env config coins
               ++ (update_event
                     <$> attempted env (expected_records (batch env coins) preds))
               ++ [save_report env (default "" (config !! "suggested_trades_collection"))
                               (expected_records (batch env coins) preds);
                   Close; Log INFO Completed])
            = update_event
                <$> attempted env (expected_records (batch env coins) preds)) as ->.
    { rewrite !filter_app, (filter_none _ _ Hq). simpl.
      rewrite (filter_none _ [_; _; _]).
      - rewrite app_nil_r. apply filter_all, Forall_fmap, Forall_true.
        intros r. exact I.
      - repeat constructor; simpl; try tauto. apply save_report_not_update. }
    rewrite length_fmap. split_and!.
    + rewrite <- Hlen. apply prefix_length, attempted_prefix.
    + intros Hnf. rewrite <- Hlen.
      by destruct (no_fault_all env (expected_records (batch env coins) preds))
        as (-> & _).
    + intros Hnull. by apply (expected_records_null (batch env coins)) in Hnull.
    + done.
Qed.

Lemma ex_env_null_scored :
  Scored ex2.env_null ex.config (dest ex.s0) ["BTCUSDT"] ex2.null_model [NaN].
Proof.
  constructor; [constructor|..]; try reflexivity; try (by vm_compute).
  apply NoDup_nil_2.
Qed.

Lemma writes_match_scores_witness :
  ∃ tr,
    trace (orchestrator_stage2 ex2.env_null ex.config ex.s0).2 = trace ex.s0 ++ tr
    ∧ length (filter is_update tr)
      ≤ length (filter (λ sc, notnull sc = true) [NaN])
    ∧ ((∀ r, write_fault ex2.env_null r = false) →
       length (filter is_update tr)
       = length (filter (λ sc, notnull sc = true) [NaN]))
    ∧ (Forall (λ sc, notnull sc = false) [NaN] →
       (orchestrator_stage2 ex2.env_null ex.config ex.s0).1 = Returned
       ∧ docs (dest (orchestrator_stage2 ex2.env_null ex.config ex.s0).2)
         = docs (dest ex.s0))
    ∧ (Exists (λ sc, notnull sc = true) [NaN] →
       (orchestrator_stage2 ex2.env_null ex.config ex.s0).1 = Value tt).
Proof.
  exact (writes_match_scores ex2.env_null ex.config ex.s0 ["BTCUSDT"]
           ex2.null_model [NaN] ex_env_null_scored).
Defined.

(** ** Writing a batch twice *)

Section twice.

Implicit Types (r d : gmap string cell) (rs ds : list (gmap string cell)).

Lemma keyed_key r :
  keyed r → ∃ sy pr, r !! "symbol" = Some sy ∧ r !! "prediction" = Some pr
                     ∧ mongo.key_of r = (Some sy, Some pr).
Proof.
  intros [[sy Hsy] [pr Hpr]]. exists sy, pr. unfold mongo.key_of.
  by rewrite Hsy, Hpr.
Qed.

Lemma key_of_union r d : keyed r → mongo.key_of (r ∪ d) = mongo.key_of r.
Proof.
  intros (sy & pr & Hsy & Hpr & ->)%keyed_key. by apply key_of_set.
Qed.

Lemma key_of_set_on r d : keyed r → mongo.key_of (set_on r d) = mongo.key_of d.
Proof.
  intros Hk. unfold set_on. case_decide as He; [|done].
  by rewrite key_of_union.
Qed.

Lemma key_of_patch rs d : Forall keyed rs → mongo.key_of (patch rs d) = mongo.key_of d.
Proof.
  intros Hk. revert d. induction Hk as [|r rs Hr _ IH]; intros d; [done|].
  unfold patch in *. simpl. by rewrite IH, key_of_set_on.
Qed.

Lemma keys_set_on r ds :
  keyed r → mongo.key_of <$> (set_on r <$> ds) = mongo.key_of <$> ds.
Proof.
  intros Hk. rewrite <- list_fmap_compose. apply list_fmap_ext.
  intros i d _. simpl. by apply key_of_set_on.
Qed.

Lemma set_on_other r ds :
  mongo.key_of r ∉ mongo.key_of <$> ds → set_on r <$> ds = ds.
Proof.
  intros Hnotin. induction ds as [|d ds IH]; [done|].
  rewrite fmap_cons in *. apply not_elem_of_cons in Hnotin as [Hne Hnotin].
  rewrite IH by done. unfold set_on. by rewrite decide_False.
Qed.

(** With unique keys, the write of a record sets it on the one document
    under its key, or adds it as the last document. *)
Lemma upsert_record_char r ds :
  keyed r → NoDup (mongo.key_of <$> ds) →
  upsert_record ds r
  = if decide (mongo.key_of r ∈ mongo.key_of <$> ds)
    then set_on r <$> ds else ds ++ [r].
Proof.
  intros Hk Hnd. pose proof Hk as (sy & pr & Hsy & Hpr & Hkey)%keyed_key.
  unfold upsert_record. rewrite Hsy, Hpr. simpl.
  case_decide as Hin.
  - unfold mongo.upsert.
    assert (mongo.update_first sy pr r ds = Some (set_on r <$> ds)) as ->; [|done].
    induction ds as [|d ds IH]; [by apply elem_of_nil in Hin|].
    rewrite fmap_cons in Hnd, Hin. apply NoDup_cons in Hnd as [Hnotin Hnd].
    simpl. unfold set_on at 1.
    destruct (mongo.matches sy pr d) eqn:Hm.
    + apply (matches_key sy pr) in Hm. rewrite Hkey, <- Hm in *.
      rewrite decide_True by done. do 2 f_equal. symmetry.
      apply set_on_other. by rewrite Hkey.
    + apply (matches_key_false sy pr) in Hm.
      rewrite decide_False by (by rewrite Hkey).
      apply elem_of_cons in Hin as [Hin|Hin]; [by rewrite Hkey in Hin|].
      by rewrite IH.
  - apply (upsert_insert sy pr r Hsy Hpr). intros d Hd.
    apply (matches_key_false sy pr). intros Hm. apply Hin.
    rewrite Hkey, <- Hm. by apply list_elem_of_fmap_2.
Qed.

Lemma union_absorb r r' d : dom r' ⊆ dom r → r ∪ (r' ∪ d) = r ∪ d.
Proof.
  intros Hdom. apply map_eq. intros f.
  destruct (r !! f) as [v|] eqn:Hf.
  - by rewrite !(set_fields r _ f v).
  - rewrite !(kept_fields r) by done.
    apply kept_fields. apply not_elem_of_dom. intros Hin.
    apply Hdom in Hin. by apply not_elem_of_dom in Hf.
Qed.

Lemma patch_absorb r rs d :
  Forall (λ r', dom r' ⊆ dom r) rs → r ∪ patch rs d = r ∪ d.
Proof.
  intros Hdom. revert d. induction Hdom as [|r' rs Hr' _ IH]; intros d; [done|].
  unfold patch in *. simpl. rewrite IH. unfold set_on.
  case_decide; [by apply union_absorb|done].
Qed.

Lemma patch_snoc rs r d : patch (rs ++ [r]) d = set_on r (patch rs d).
Proof. unfold patch. by rewrite foldl_app. Qed.

(** After a batch was written, setting the batch on any document of the
    collection changes nothing. *)
Lemma written_fixed rs ds d :
  Forall keyed rs → same_fields rs → NoDup (mongo.key_of <$> ds) →
  d ∈ foldl upsert_record ds rs → patch rs d = d.
Proof.
  revert d. induction rs as [|r rs IH] using rev_ind; intros d Hk Hsame Hnd Hd;
    [done|].
  apply Forall_app in Hk as [Hk [Hr _]%Forall_cons].
  assert (same_fields rs) as Hsame'.
  { intros r1 r2 H1 H2. apply Hsame; apply elem_of_app; by left. }
  assert (Forall (λ r', dom r' ⊆ dom r) rs) as Hdom.
  { apply Forall_forall. intros r' Hr'. rewrite (Hsame r r'); [done|..];
      apply elem_of_app; [right; left|by left]. }
  rewrite foldl_app in Hd. simpl in Hd. rewrite patch_snoc.
  pose proof (written_keys_NoDup ds rs Hk Hnd) as Hnd'.
  rewrite upsert_record_char in Hd by done.
  case_decide as Hin.
  - apply list_elem_of_fmap in Hd as [d1 [-> Hd1]].
    specialize (IH d1 Hk Hsame' Hnd Hd1).
    unfold set_on at 2. case_decide as He.
    + unfold set_on. rewrite key_of_patch, key_of_union by done.
      rewrite decide_True by done. rewrite patch_absorb by done.
      rewrite decide_True by done. by rewrite union_absorb.
    + rewrite IH. unfold set_on. by rewrite decide_False.
  - apply elem_of_app in Hd as [Hd|Hd];
      [|apply list_elem_of_singleton in Hd as ->].
    + rewrite (IH d) by done. unfold set_on. rewrite decide_False; [done|].
      intros He. apply Hin. rewrite <- He. by apply list_elem_of_fmap_2.
    + unfold set_on. rewrite key_of_patch by done.
      rewrite decide_True by done. rewrite patch_absorb by done.
      apply map_union_idemp.
Qed.

(** On a collection that holds every key of the batch, the batch sets its
    records on the documents and adds none. *)
Lemma written_closed rs ds :
  Forall keyed rs → NoDup (mongo.key_of <$> ds) →
  (∀ r, r ∈ rs → mongo.key_of r ∈ mongo.key_of <$> ds) →
  foldl upsert_record ds rs = patch rs <$> ds.
Proof.
  intros Hk. revert ds. induction Hk as [|r rs Hr Hk IH]; intros ds Hnd Hin.
  - simpl. symmetry. apply list_fmap_id.
  - simpl. rewrite upsert_record_char by done.
    rewrite decide_True by (apply Hin; left).
    rewrite IH.
    + by rewrite <- list_fmap_compose.
    + by rewrite keys_set_on.
    + intros r' Hr'. rewrite keys_set_on by done. apply Hin. by right.
Qed.

Lemma written_twice rs ds :
  Forall keyed rs → same_fields rs → NoDup (mongo.key_of <$> ds) →
  foldl upsert_record (foldl upsert_record ds rs) rs = foldl upsert_record ds rs.
Proof.
  intros Hk Hsame Hnd.
  rewrite written_closed; [|done|by apply written_keys_NoDup|].
  - rewrite <- (list_fmap_id (foldl upsert_record ds rs)) at 2.
    apply list_fmap_ext. intros i d Hd. simpl.
    apply (written_fixed rs ds); [done..|]. by apply list_elem_of_lookup_2 in Hd.
  - intros r Hr. apply written_keys_elem; [done|]. right.
    by apply list_elem_of_fmap_2.
Qed.

End twice.

Lemma same_fields_prefix (rs1 rs2 : list (gmap string cell)) :
  rs1 `prefix_of` rs2 → same_fields rs2 → same_fields rs1.
Proof.
  intros Hpre Hsame r r' Hr Hr'.
  apply Hsame; by eapply elem_of_prefix.
Qed.

Lemma expected_records_same_fields b preds :
  same_fields (expected_records b preds).
Proof.
  intros r r' (i & d & sc & _ & _ & _ & ->)%elem_of_expected_records
         (i' & d' & sc' & _ & _ & _ & ->)%elem_of_expected_records.
  destruct (expected_record_fields d sc) as (_ & _ & _ & _ & ->).
  by destruct (expected_record_fields d' sc') as (_ & _ & _ & _ & ->).
Qed.

(** X9. Handing the same batch to the writer a second time leaves the
    collection as the first pass left it: for records that carry symbol and
    prediction and name the same fields, on a collection that repeats no
    key, the documents after two passes are the documents after one,
    whether or not the server rejects one of the writes. *)
Theorem save_twice_is_save_once env collection rs s :
  Forall keyed rs → same_fields rs →
  NoDup (mongo.key_of <$> docs (dest s)) →
  docs (dest ((save env collection rs ;; save env collection rs) s).2)
  = docs (dest (save env collection rs s).2).
Proof.
  intros Hk Hsame Hnd.
  erewrite bind_value by by apply save_run.
  rewrite !save_run by done. simpl.
  apply written_twice; [by apply written_keyed| |done].
  eapply same_fields_prefix; [apply written_prefix|done].
Qed.

Lemma save_twice_is_save_once_witness :
  docs (dest ((save ex.env "suggested_trades" [ex.fresh] ;;
               save ex.env "suggested_trades" [ex.fresh])
                {| dest := {| docs := [ex.stale]; unique_index := true |};
                   trace := [] |}).2)
  = docs (dest (save ex.env "suggested_trades" [ex.fresh]
                  {| dest := {| docs := [ex.stale]; unique_index := true |};
                     trace := [] |}).2).
Proof.
  apply save_twice_is_save_once.
  - repeat constructor; by eexists.
  - intros r r' ->%list_elem_of_singleton ->%list_elem_of_singleton. done.
  - apply NoDup_singleton.
Defined.

Lemma step_unique env config s :
  NoDup (mongo.key_of <$> docs (dest (orchestrator_stage2 env config s).2)) →
  NoDup (mongo.key_of <$> docs (dest s)).
Proof.
  pose proof (stage2_ending env config s) as He.
  destruct He as [tr Hab|tr coins model preds Hsc _ _ Hr
                  |tr coins model preds Hsc _ _ Hr].
  - by rewrite (ca_docs _ _ _ _ _ Hab).
  - by rewrite Hr.
  - intros _. apply Hsc.
Qed.

Lemma step_twice env config s :
  docs (dest (orchestrator_stage2 env config
                (orchestrator_stage2 env config s).2).2)
  = docs (dest (orchestrator_stage2 env config s).2).
Proof.
  set (s1 := (orchestrator_stage2 env config s).2).
  pose proof (stage2_ending env config s1) as He.
  destruct He as [tr Hab|tr coins model preds Hsc _ _ Hr
                  |tr coins model preds Hsc _ Hrs Hr].
  - apply (ca_docs _ _ _ _ _ Hab).
  - by rewrite Hr.
  - rewrite Hr. simpl.
    destruct Hsc as [[Hcfg Hjson Hne Hup Hnd Hb Hin Hmodel Hfc] Hp Hlen].
    assert (Scored env config (dest s) coins model preds) as Hsc.
    { constructor; [constructor|..]; try done. by apply (step_unique env config). }
    assert (docs (dest s1)
            = foldl upsert_record (docs (dest s))
                (written env (expected_records (batch env coins) preds))) as ->.
    { unfold s1. rewrite (scored_run env config s coins model preds Hsc).
      by rewrite bool_decide_eq_false_2. }
    apply written_twice.
    + apply written_keyed, expected_records_keyed.
    + eapply same_fields_prefix;
        [apply written_prefix|apply expected_records_same_fields].
    + apply Hsc.
Qed.

(** X10. The stage can be run again: on the same files, source and server,
    every run after the first leaves the documents of the destination as
    the first run left them, whatever the first run found there and however
    it ended. *)
Theorem rerun_leaves_documents env config s n :
  docs (dest (runs (S n) env config s)) = docs (dest (runs 1 env config s)).
Proof.
  induction n as [|n IH]; [done|].
  rewrite <- IH. change (runs (S (S n)) env config s)
    with (orchestrator_stage2 env config
            (orchestrator_stage2 env config (runs n env config s)).2).2.
  apply step_twice.
Qed.

(** ** Records the writer cannot send *)

Lemma for_app {A} (l1 l2 : list A) (body : A → M unit) s :
  for_ (l1 ++ l2) body s = (for_ l1 body ;; for_ l2 body) s.
Proof.
  revert s. induction l1 as [|x l1 IH]; intros s; [done|].
  simpl. unfold mbind, M_bind in *. by destruct (body x s) as [[[]| |e] s'].
Qed.

Lemma update_one_outcome env sy pr r s :
  (mongo.update_one env sy pr r s).1 ≠ Returned.
Proof. rewrite update_one_run. by destruct (write_fault env r). Qed.

Lemma loop_outcome env rs s :
  (for_ rs (λ record,
     match record !! "symbol", record !! "prediction" with
     | Some symbol, Some prediction =>
         mongo.update_one env symbol prediction record
     | None, _ => raise (KeyError "symbol")
     | _, None => raise (KeyError "prediction")
     end) s).1 ≠ Returned.
Proof.
  revert s. induction rs as [|r rs IH]; intros s; [done|].
  simpl. unfold mbind, M_bind.
  destruct (r !! "symbol") as [sy|] eqn:Hsy; [|done].
  destruct (r !! "prediction") as [pr|] eqn:Hpr; [|done].
  pose proof (update_one_outcome env sy pr r s) as Hu.
  destruct (mongo.update_one env sy pr r s) as [[[]| |e] s']; try done;
    try apply IH.
Qed.

(** X11. The writer never fails: whatever the records, every exception of
    the loop is caught and logged, and the writer returns normally. A record
    that lacks the symbol or the prediction field ends the batch like a
    rejected write does, with a KeyError that names the first of the two
    fields it lacks; nothing is sent for that record or for the records
    after it, and the records before it stay written. *)
Theorem writer_never_raises env collection :
  (∀ rs s, (save env collection rs s).1 = Value tt)
  ∧ (∀ rs1 r rs2 s,
       Forall keyed rs1 → (∀ r', r' ∈ rs1 → write_fault env r' = false) →
       ¬ keyed r →
       save env collection (rs1 ++ r :: rs2) s
       = (Value tt,
          {| dest := {| docs := foldl upsert_record (docs (dest s)) rs1;
                        unique_index := unique_index (dest s) |};
             trace := trace s ++ (update_event <$> rs1)
                      ++ [Log ERROR (ErrorSaving
                            (KeyError (match r !! "symbol" with
                                       | None => "symbol"
                                       | Some _ => "prediction"
                                       end)))] |})).
Proof.
  split.
  - intros rs s. unfold save, try_.
    pose proof (loop_outcome env rs s) as Hl. unfold mbind, M_bind at 1.
    destruct (for_ rs _ s) as [[[]| |e] s']; done.
  - intros rs1 r rs2 s Hk Hok Hr. unfold save, try_.
    unfold mbind, M_bind at 1. rewrite for_app.
    destruct (no_fault_all env rs1 Hok) as (Hat & Hwr & Hex).
    erewrite bind_value by (rewrite loop_run, Hat, Hwr, Hex by done; reflexivity).
    simpl. unfold mbind, M_bind at 1.
    destruct (r !! "symbol") as [sy|] eqn:Hsy.
    + destruct (r !! "prediction") as [pr|] eqn:Hpr.
      * destruct Hr. split; by eexists.
      * mrun. by rewrite <- app_assoc.
    + mrun. by rewrite <- app_assoc.
Qed.

Lemma writer_never_raises_witness :
  save ex.env "suggested_trades" ([ex.fresh] ++ ex2.nameless :: [ex.stale]) ex.s0
  = (Value tt,
     {| dest := {| docs := [ex.fresh]; unique_index := false |};
        trace := [UpdateOne (Str "BTCUSDT") (Str "BUY") ex.fresh;
                  Log ERROR (ErrorSaving (KeyError "symbol"))] |}).
Proof.
  apply (proj2 (writer_never_raises ex.env "suggested_trades")
               [ex.fresh] ex2.nameless [ex.stale] ex.s0).
  - repeat constructor; by eexists.
  - done.
  - intros [[? H] _]. by vm_compute in H.
Defined.

(** ** The connection *)

Lemma fetch_trace_no_close env coins :
  Forall (λ ev, ¬ is_close ev ∧ ¬ unreached ev) (fetch_trace env coins).
Proof.
  apply Forall_forall. intros ev Hev.
  unfold fetch_trace in Hev. apply list_elem_of_bind in Hev as [c [Hev _]].
  apply elem_of_cons in Hev as [->|Hev]; [simpl; tauto|].
  destruct (latest env c); [by apply elem_of_nil in Hev|].
  apply list_elem_of_singleton in Hev as ->. simpl. tauto.
Qed.

Lemma run_case_no_close env inputs res trr :
  RunCase env inputs res trr →
  Forall (λ ev, ¬ is_close ev ∧ ¬ unreached ev) trr.
Proof. destruct 1; repeat constructor; simpl; tauto. Qed.

Lemma update_events_no_close (rs : list (gmap string cell)) :
  Forall (λ ev, ¬ is_close ev ∧ ¬ unreached ev) (update_event <$> rs).
Proof. apply Forall_fmap, Forall_true. intros r. simpl. tauto. Qed.

Lemma save_report_no_close env collection rs :
  ¬ is_close (save_report env collection rs)
  ∧ ¬ unreached (save_report env collection rs).
Proof. unfold save_report. destruct (existsb _ _); simpl; tauto. Qed.

(** Closes a branch in which the run stopped without a connection. *)
Ltac no_connection :=
  eexists; split; [simpl; rewrite <- ?app_assoc; simpl; reflexivity|];
  split; [repeat constructor; simpl; tauto|];
  split;
  [ intros e He; simpl in He;
    first [ discriminate
          | injection He as <-; split; [done|]; simpl; assumption ]
  | left; split;
    [ intros (Hc1 & [? Hc2] & [? Hc3] & (coins0 & Hc4 & Hc5) & Hc6 & Hc7);
      repeat match goal with
             | H : fs _ !! _ = _, H' : context [fs _ !! _] |- _ => rewrite H in H'
             end;
      simpl in *; congruence
    | repeat constructor; simpl; tauto ] ].

(** Closes a branch in which the run closed its connection. *)
Ltac connection_closed :=
  split; [simpl; by rewrite <- !app_assoc|];
  split; [repeat first [ eapply Forall_impl; [eassumption|]; simpl; tauto
                       | apply Forall_app; split | apply Forall_cons; split
                       | apply Forall_nil
                       | simpl; tauto ]|];
  split; [intros e He; simpl in He; discriminate|];
  right; split_and!; [done..|];
  eexists _, _; split_and!; [done| |by repeat constructor];
  repeat first [ eapply Forall_impl; [eassumption|]; simpl; tauto
               | apply Forall_app; split | apply Forall_cons; split
               | apply Forall_nil
               | simpl; tauto ].

Section connection.

Local Arguments fetch : simpl never.
Local Arguments run : simpl never.
Local Arguments persist : simpl never.

Lemma stage2_connection env config s r :
  orchestrator_stage2 env config s = r →
  ∃ tr,
    trace r.2 = trace s ++ tr
    ∧ Forall (λ ev, ¬ unreached ev) tr
    ∧ (∀ e, r.1 = Raised e →
         e = JSONDecodeError
         ∧ fs env !! coins_path env config ≫= as_json = None)
    ∧ ((¬ connects env config (dest s) ∧ Forall (λ ev, ¬ is_close ev) tr)
       ∨ (connects env config (dest s)
          ∧ (∀ e, r.1 ≠ Raised e)
          ∧ unique_index (dest r.2) = true
          ∧ ∃ tr1 tr2, tr = tr1 ++ Close :: tr2
              ∧ Forall (λ ev, ¬ is_close ev) tr1 ∧ Forall is_log tr2)).
Proof.
  unfold orchestrator_stage2. intros Hr.
  destruct (decide (missing_keys config = [])) as [Hcfg|Hcfg].
  2:{ rewrite bool_decide_eq_false_2 in Hr by done. subst r. no_connection. }
  rewrite bool_decide_eq_true_2 in Hr by done. simpl in Hr.
  fold (coins_path env config) (model_path env config) in Hr.
  erewrite bind_value in Hr by apply path_exists_run.
  destruct (fs env !! coins_path env config) as [fcoins|] eqn:Hcoins; simpl in Hr.
  2:{ subst r. no_connection. }
  erewrite bind_value in Hr by apply path_exists_run.
  destruct (fs env !! model_path env config) as [fmodel|] eqn:Hmodel; simpl in Hr.
  2:{ subst r. no_connection. }
  destruct (as_json fcoins) as [[coins|]|] eqn:Hjson.
  3:{ erewrite bind_raised in Hr
        by (apply json_load_raised; by rewrite Hcoins; simpl).
      subst r. no_connection. }
  2:{ erewrite bind_value in Hr
        by (apply json_load_value; by rewrite Hcoins; simpl).
      subst r. no_connection. }
  erewrite bind_value in Hr by (apply json_load_value; by rewrite Hcoins; simpl).
  destruct (decide (coins = [])) as [->|Hne].
  { subst r. no_connection. }
  destruct coins as [|c coins']; [done|]. cbv beta iota in Hr.
  set (coins := c :: coins') in *. clearbody coins. clear c coins'.
  rewrite !extend_extend in Hr. simpl app in Hr.
  destruct (server_up env) eqn:Hup.
  2:{ erewrite bind_returned in Hr by (rewrite connect_run, Hup; reflexivity).
      subst r. no_connection. }
  destruct (decide (NoDup (mongo.key_of <$> docs (dest s)))) as [Hnd|Hnd].
  2:{ erewrite bind_returned in Hr
        by (rewrite connect_run, Hup; simpl;
            rewrite bool_decide_eq_false_2 by done; reflexivity).
      subst r. no_connection. }
  assert (connects env config (dest s)) as Hconn.
  { split_and!; [done|by rewrite Hcoins; eexists|by rewrite Hmodel; eexists|
                 |done|done].
    exists coins. by rewrite Hcoins. }
  erewrite bind_value in Hr
    by (rewrite connect_run, Hup; simpl;
        rewrite bool_decide_eq_true_2 by done; reflexivity).
  erewrite bind_value in Hr by apply log_extend.
  erewrite bind_value in Hr by apply fetch_run.
  rewrite app_nil_l in Hr. fold (latest_frame (batch env coins)) in Hr.
  rewrite scored_state_extend, !extend_scored_state in Hr. simpl app in Hr.
  pose proof (fetch_trace_no_close env coins) as Hquiet.
  set (ft := fetch_trace env coins) in *. clearbody ft.
  match type of Hr with _ (scored_state s ?l) = _ => set (T := l) in * end.
  assert (Forall (λ ev, ¬ is_close ev ∧ ¬ unreached ev) T) as HT.
  { unfold T. repeat (apply Forall_cons; split; [simpl; tauto|]). done. }
  clearbody T. clear Hquiet ft.
  destruct (decide (batch env coins = [])) as [Hb|Hb].
  { rewrite Hb in Hr. simpl in Hr. subst r.
    exists ((T ++ [Log ERROR NoDataForAnyCoin]) ++ Close :: []).
    connection_closed. }
  rewrite bool_decide_eq_false_2 in Hr by (by destruct (batch env coins)).
  erewrite bind_value in Hr by apply log_extend.
  rewrite extend_scored_state in Hr.
  destruct (run_cases env
              {| data := Some (model_input (latest_frame (batch env coins)));
                 model_file := Some (model_path env config) |}
              (scored_state s (T ++
                 [Log INFO (FetchedLatest
                    (sum_list (index <$> (frame_of <$> batch env coins))))])))
    as (res & trr & Hrun & Hcase).
  erewrite bind_value in Hr by exact Hrun.
  rewrite extend_scored_state, <- app_assoc in Hr. simpl app in Hr.
  pose proof (run_case_no_close _ _ _ _ Hcase) as Hq.
  set (fl := Log INFO (FetchedLatest _)) in *.
  assert (Forall (λ ev, ¬ is_close ev ∧ ¬ unreached ev) (T ++ fl :: trr)) as HT'.
  { apply Forall_app. split; [done|]. apply Forall_cons. split; [|done].
    unfold fl. simpl. tauto. }
  clear HT Hq.
  destruct res as [message|suggested_trades].
  - subst r.
    exists (((T ++ fl :: trr) ++ [Log ERROR (ModelRunFailed message)])
            ++ Close :: []).
    connection_closed.
  - apply run_case_success in Hcase
      as (model & preds & Hin & Hm & Hfc & Hp & Hlen & ->).
    rewrite model_input_scored, persist_scored in Hr
      by (done || by rewrite Hlen, <- index_latest_frame).
    case_bool_decide as Hrs.
    + subst r.
      exists (((T ++ fl :: trr) ++ [Log WARNING NoPredictionsWithConfidence])
              ++ Close :: []).
      connection_closed.
    + erewrite bind_value in Hr by (apply save_run, expected_records_keyed).
      subst r.
      pose proof (update_events_no_close
                    (attempted env (expected_records (batch env coins) preds)))
        as Hu.
      pose proof (save_report_no_close env
                    (default "" (config !! "suggested_trades_collection"))
                    (expected_records (batch env coins) preds)) as [Hs1 Hs2].
      set (us := update_event <$> _) in *.
      set (rep := save_report _ _ _) in *.
      exists (((T ++ fl :: trr) ++ us ++ [rep])
              ++ Close :: [Log INFO Completed]).
      split; [mrun; by rewrite <- !app_assoc|].
      split.
      { apply Forall_app. split.
        - apply Forall_app. split.
          + eapply Forall_impl; [exact HT'|]. simpl. tauto.
          + apply Forall_app. split.
            * eapply Forall_impl; [exact Hu|]. simpl. tauto.
            * by repeat constructor.
        - repeat constructor; simpl; tauto. }
      split; [intros e He; simpl in He; discriminate|].
      right. split_and!; [done..|].
      eexists _, _. split_and!; [done| |by repeat constructor].
      apply Forall_app. split.
      * eapply Forall_impl; [exact HT'|]. simpl. tauto.
      * apply Forall_app. split.
        -- eapply Forall_impl; [exact Hu|]. simpl. tauto.
        -- by repeat constructor.
Qed.

End connection.

Lemma closes_once tr1 tr2 :
  Forall (λ ev, ¬ is_close ev) tr1 → Forall is_log tr2 →
  closes (tr1 ++ Close :: tr2) = [Close].
Proof.
  intros H1 H2. unfold closes. rewrite filter_app, filter_cons.
  rewrite (filter_none _ _ H1), decide_True by done.
  rewrite filter_none; [done|].
  eapply Forall_impl; [exact H2|]. intros ev Hl Hc. by destruct ev.
Qed.

(** X12. The connection is closed once or never. A run that gets its
    connection (complete configuration, both files, a non-empty list of
    coins, a server that answers and a destination that repeats no key)
    ends without an exception, with the unique index set, and closes the
    connection exactly once, whichever way it ends afterwards; after the
    close it only writes log lines. A run that stops before that, or in the
    connection block itself, never closes. *)
Theorem connection_closed_once env config s :
  ∃ tr,
    trace (orchestrator_stage2 env config s).2 = trace s ++ tr
    ∧ (connects env config (dest s) →
       (∀ e, (orchestrator_stage2 env config s).1 ≠ Raised e)
       ∧ unique_index (dest (orchestrator_stage2 env config s).2) = true
       ∧ closes tr = [Close]
       ∧ ∃ tr1 tr2, tr = tr1 ++ Close :: tr2
           ∧ Forall (λ ev, ¬ is_close ev) tr1 ∧ Forall is_log tr2)
    ∧ (¬ connects env config (dest s) → closes tr = []).
Proof.
  destruct (stage2_connection env config s _ eq_refl)
    as (tr & Htr & _ & _
        & [[Hno Hq]|(Hc & Hexn & Hui & tr1 & tr2 & -> & H1 & H2)]).
  - exists tr. split_and!; [done|by intros ?|].
    intros _. by apply filter_none.
  - eexists. split_and!; [done| |by intros ?].
    intros _. split_and!; [done|done|by apply closes_once|by eauto].
Qed.

(** X13. Two things no run does. Of the failures of the environment (a
    file that is missing or is not JSON, a server that cannot be reached or
    rejects the index or a write, a model that does not load or does not
    predict), the only one that leaves the orchestrator as an exception is
    the decoding error of a coins file that is not JSON: every other one is
    logged and the run returns or goes on. And the two guards on
    the frame of the model step, for an empty frame and for a frame without
    a confidence_score column, never fire: the model step answers with an
    error or with a frame that has both columns and one row per row of the
    batch, so that neither warning is ever logged. *)
Theorem only_json_error_escapes env config s :
  (∀ e, (orchestrator_stage2 env config s).1 = Raised e →
     e = JSONDecodeError ∧ fs env !! coins_path env config ≫= as_json = None)
  ∧ ∃ tr,
      trace (orchestrator_stage2 env config s).2 = trace s ++ tr
      ∧ (Log WARNING ModelReturnedNoPredictions ∉ tr)
      ∧ (Log WARNING ModelDidNotReturnConfidence ∉ tr).
Proof.
  destruct (stage2_connection env config s _ eq_refl)
    as (tr & Htr & Hun & Hexn & _).
  split; [done|]. exists tr. split; [done|].
  split; intros Hin; by apply (proj1 (Forall_forall _ _) Hun) in Hin.
Qed.

(** ** What a run leaves in the destination *)

Section destination.

Implicit Types (r d : gmap string cell) (rs ds : list (gmap string cell)).

Lemma upsert_keeps r ds d :
  keyed r → NoDup (mongo.key_of <$> ds) →
  d ∈ ds → mongo.key_of d ≠ mongo.key_of r → d ∈ upsert_record ds r.
Proof.
  intros Hk Hnd Hd Hne. rewrite upsert_record_char by done. case_decide.
  - apply list_elem_of_fmap. exists d. split; [|done].
    unfold set_on. by rewrite decide_False.
  - apply elem_of_app. by left.
Qed.

Lemma foldl_upsert_keeps rs ds d :
  Forall keyed rs → NoDup (mongo.key_of <$> ds) → d ∈ ds →
  (∀ r, r ∈ rs → mongo.key_of d ≠ mongo.key_of r) →
  d ∈ foldl upsert_record ds rs.
Proof.
  intros Hk. revert ds. induction Hk as [|r rs Hr Hk IH]; intros ds Hnd Hd Hne;
    [done|].
  simpl. apply IH.
  - rewrite upsert_record_keys by done. by apply NoDup_add_key.
  - apply upsert_keeps; [done..|]. apply Hne. left.
  - intros r' Hr'. apply Hne. by right.
Qed.

Lemma upsert_length r ds :
  keyed r → NoDup (mongo.key_of <$> ds) →
  length ds ≤ length (upsert_record ds r).
Proof.
  intros Hk Hnd. rewrite upsert_record_char by done. case_decide.
  - by rewrite length_fmap.
  - rewrite length_app. simpl. lia.
Qed.

Lemma foldl_upsert_length rs ds :
  Forall keyed rs → NoDup (mongo.key_of <$> ds) →
  length ds ≤ length (foldl upsert_record ds rs).
Proof.
  intros Hk. revert ds. induction Hk as [|r rs Hr Hk IH]; intros ds Hnd;
    [done|].
  simpl. etrans; [by apply (upsert_length r)|]. apply IH.
  rewrite upsert_record_keys by done. by apply NoDup_add_key.
Qed.

Lemma upsert_holds r ds :
  keyed r → NoDup (mongo.key_of <$> ds) →
  ∃ d, d ∈ upsert_record ds r ∧ mongo.key_of d = mongo.key_of r ∧ r ∪ d = d.
Proof.
  intros Hk Hnd. rewrite upsert_record_char by done. case_decide as Hin.
  - apply list_elem_of_fmap in Hin as [d0 [He Hd0]].
    exists (r ∪ d0). split_and!.
    + apply list_elem_of_fmap. exists d0. split; [|done].
      unfold set_on. by rewrite decide_True.
    + by apply key_of_union.
    + by apply union_absorb.
  - exists r. split_and!; [|done|apply map_union_idemp].
    apply elem_of_app. right. by apply list_elem_of_singleton.
Qed.

Lemma foldl_upsert_holds rs ds r :
  Forall keyed rs → NoDup (mongo.key_of <$> rs) →
  NoDup (mongo.key_of <$> ds) → r ∈ rs →
  ∃ d, d ∈ foldl upsert_record ds rs ∧ mongo.key_of d = mongo.key_of r ∧ r ∪ d = d.
Proof.
  intros Hk. revert ds. induction Hk as [|r0 rs Hr0 Hk IH]; intros ds Hnr Hnd Hr.
  { by apply elem_of_nil in Hr. }
  rewrite fmap_cons in Hnr. apply NoDup_cons in Hnr as [Hnotin Hnr].
  assert (NoDup (mongo.key_of <$> upsert_record ds r0)) as Hnd'.
  { rewrite upsert_record_keys by done. by apply NoDup_add_key. }
  simpl. apply elem_of_cons in Hr as [->|Hr]; [|by apply IH].
  destruct (upsert_holds r0 ds Hr0 Hnd) as (d & Hd & Hkey & Habs).
  exists d. split_and!; [|done..].
  apply foldl_upsert_keeps; [done..|].
  intros r' Hr' He. apply Hnotin. rewrite <- Hkey, He.
  by apply list_elem_of_fmap_2.
Qed.

Lemma unique_key_unique ds d d' :
  NoDup (mongo.key_of <$> ds) → d ∈ ds → d' ∈ ds →
  mongo.key_of d' = mongo.key_of d → d' = d.
Proof.
  induction ds as [|d0 ds IH]; intros Hnd Hd Hd' He.
  { by apply elem_of_nil in Hd. }
  rewrite fmap_cons in Hnd. apply NoDup_cons in Hnd as [Hnotin Hnd].
  apply elem_of_cons in Hd as [->|Hd]; apply elem_of_cons in Hd' as [->|Hd'].
  - done.
  - destruct Hnotin. rewrite <- He. by apply list_elem_of_fmap_2.
  - destruct Hnotin. rewrite He. by apply list_elem_of_fmap_2.
  - by apply IH.
Qed.

Lemma expected_record_key (d : Snapshot) sc :
  mongo.key_of (expected_record d sc)
  = (Some (Str (snap_symbol d)), Some (Str "BUY")).
Proof.
  destruct (expected_record_fields d sc) as (H1 & _ & H2 & _).
  unfold mongo.key_of. by rewrite H1, H2.
Qed.

Lemma expected_records_unique b preds :
  NoDup (snap_symbol <$> b) →
  NoDup (mongo.key_of <$> expected_records b preds).
Proof.
  revert preds. induction b as [|d b IH]; intros preds Hnd.
  { destruct preds; apply NoDup_nil_2. }
  destruct preds as [|sc preds]; [apply NoDup_nil_2|].
  rewrite fmap_cons in Hnd. apply NoDup_cons in Hnd as [Hnotin Hnd].
  rewrite expected_records_cons. destruct (notnull sc); [|by apply IH].
  rewrite fmap_cons. apply NoDup_cons. split; [|by apply IH].
  intros [r [He Hr]]%list_elem_of_fmap.
  apply elem_of_expected_records in Hr as (i & d' & sc' & Hi & _ & _ & ->).
  rewrite !expected_record_key in He. injection He as He.
  apply Hnotin. rewrite He. apply list_elem_of_fmap_2.
  by apply list_elem_of_lookup_2 in Hi.
Qed.

Lemma batch_unique env coins :
  NoDup coins → NoDup (snap_symbol <$> batch env coins).
Proof. intros Hnd. rewrite batch_symbols. by apply NoDup_filter. Qed.

End destination.

(** X14. What a complete run leaves behind. When every stage goes through,
    the coins file repeats no coin and the server rejects no write, then for
    every coin that has a snapshot and a non-null score the destination
    holds, after the run, a document with that symbol, prediction "BUY", the
    _id of the coin's newest snapshot as buyid and that score as
    confidence_score; and it is the only document under that symbol and
    prediction. *)
Theorem scores_reach_destination env config s coins model preds i d sc :
  Scored env config (dest s) coins model preds →
  NoDup coins →
  (∀ r, write_fault env r = false) →
  batch env coins !! i = Some d → preds !! i = Some sc → notnull sc = true →
  ∃ doc,
    doc ∈ docs (dest (orchestrator_stage2 env config s).2)
    ∧ doc !! "symbol" = Some (Str (snap_symbol d))
    ∧ doc !! "prediction" = Some (Str "BUY")
    ∧ doc !! "buyid" = Some (Str (snap_id d))
    ∧ doc !! "confidence_score" = Some sc
    ∧ ∀ doc', doc' ∈ docs (dest (orchestrator_stage2 env config s).2) →
        mongo.key_of doc' = mongo.key_of doc → doc' = doc.
Proof.
  intros Hsc Hcoins Hnf Hd Hp Hnn.
  assert (expected_record d sc ∈ expected_records (batch env coins) preds) as Hr.
  { apply elem_of_expected_records. by exists i, d, sc. }
  rewrite (scored_run env config s coins model preds Hsc).
  rewrite bool_decide_eq_false_2
    by (intros He; rewrite He in Hr; by apply elem_of_nil in Hr).
  destruct (no_fault_all env (expected_records (batch env coins) preds))
    as (_ & -> & _); [done|].
  simpl.
  assert (NoDup (mongo.key_of
                   <$> foldl upsert_record (docs (dest s))
                         (expected_records (batch env coins) preds))) as Hnd.
  { apply written_keys_NoDup; [apply expected_records_keyed|apply Hsc]. }
  destruct (foldl_upsert_holds (expected_records (batch env coins) preds)
              (docs (dest s)) (expected_record d sc))
    as (doc & Hdoc & Hkey & Habs).
  { apply expected_records_keyed. }
  { by apply expected_records_unique, batch_unique. }
  { apply Hsc. }
  { done. }
  destruct (expected_record_fields d sc) as (H1 & H2 & H3 & H4 & _).
  exists doc. rewrite <- Habs. split_and!.
  - by rewrite Habs.
  - by apply set_fields.
  - by apply set_fields.
  - by apply set_fields.
  - by apply set_fields.
  - intros doc' Hdoc' He. rewrite Habs in *.
    by apply (unique_key_unique _ _ _ Hnd).
Qed.

Lemma scores_reach_destination_witness :
  ∃ doc,
    doc ∈ docs (dest (orchestrator_stage2 ex.env ex.config ex.s0).2)
    ∧ doc !! "symbol" = Some (Str (snap_symbol ex.btc_new))
    ∧ doc !! "prediction" = Some (Str "BUY")
    ∧ doc !! "buyid" = Some (Str (snap_id ex.btc_new))
    ∧ doc !! "confidence_score" = Some (Num (7 # 10)%Q)
    ∧ ∀ doc', doc' ∈ docs (dest (orchestrator_stage2 ex.env ex.config ex.s0).2) →
        mongo.key_of doc' = mongo.key_of doc → doc' = doc.
Proof.
  apply (scores_reach_destination ex.env ex.config ex.s0 ["BTCUSDT"; "ETHUSDT"]
           ex.flat_model [Num (7 # 10)%Q] 0 ex.btc_new (Num (7 # 10)%Q)
           ex_env_scored).
  - apply (bool_decide_unpack _). by vm_compute.
  - done.
  - by vm_compute.
  - done.
  - done.
Defined.

(** X15. A run deletes nothing and touches only the coins of its list: the
    destination never holds fewer documents after a run than before, and a
    document whose symbol is not a coin of the coins file is still there,
    unchanged, after the run, however the run ends. *)
Theorem run_keeps_other_documents env config s :
  length (docs (dest s))
  ≤ length (docs (dest (orchestrator_stage2 env config s).2))
  ∧ ∀ d,
      d ∈ docs (dest s) →
      (∀ coins c,
         fs env !! coins_path env config ≫= as_json = Some (JList coins) →
         c ∈ coins → d !! "symbol" ≠ Some (Str c)) →
      d ∈ docs (dest (orchestrator_stage2 env config s).2).
Proof.
  pose proof (stage2_ending env config s) as He.
  destruct He as [tr Hab|tr coins model preds Hsc _ _ Hr
                  |tr coins model preds Hsc _ _ Hr].
  - rewrite (ca_docs _ _ _ _ _ Hab). by split.
  - rewrite Hr. by split.
  - rewrite Hr. simpl.
    assert (Forall keyed (written env (expected_records (batch env coins) preds)))
      as Hk by apply written_keyed, expected_records_keyed.
    assert (NoDup (mongo.key_of <$> docs (dest s))) as Hnd by apply Hsc.
    split; [by apply foldl_upsert_length|].
    intros d Hd Hother. apply foldl_upsert_keeps; [done..|].
    intros r Hr' Hkey.
    apply (elem_of_prefix _ _ _ (written_prefix env _)) in Hr'.
    apply elem_of_expected_records in Hr' as (i & d' & sc & Hi & _ & _ & ->).
    rewrite expected_record_key in Hkey. injection Hkey as Hsy _.
    apply list_elem_of_lookup_2, elem_of_batch in Hi as (c & Hc & Hl).
    apply latest_Some in Hl as (_ & Hsym & _).
    apply (Hother coins c); [apply Hsc|done|]. by rewrite Hsy, Hsym.
Qed.

(** ** A rejected write and the last log line *)

Lemma written_no_fault env (rs : list (gmap string cell)) r :
  r ∈ written env rs → write_fault env r = false.
Proof.
  induction rs as [|r' rs IH]; simpl; [by intros ?%elem_of_nil|].
  destruct (write_fault env r') eqn:Hf; [by intros ?%elem_of_nil|].
  intros [->|Hin]%elem_of_cons; [done|by apply IH].
Qed.

Lemma ex_env_fault_scored :
  Scored ex.env_fault ex.config (dest ex.s0) ["BTCUSDT"; "SOLUSDT"; "ADAUSDT"]
         ex.flat_model (replicate 3 (Num (7 # 10)%Q)).
Proof.
  constructor; [constructor|..]; try reflexivity; try (by vm_compute).
  apply NoDup_nil_2.
Qed.

(** X16. A rejected write does not keep the run from reporting success:
    when every stage before the writer goes through and the server rejects
    the write of one of the records, the run still ends normally, and the
    last three lines it leaves are the error of the writer, the close of the
    connection and the line that says the stage completed successfully;
    there is no line that counts saved predictions. The rejected record is
    not among the records written. *)
Theorem completion_logged_after_failed_write env config s coins model preds r :
  Scored env config (dest s) coins model preds →
  r ∈ expected_records (batch env coins) preds →
  write_fault env r = true →
  orchestrator_stage2 env config s
  = (Value tt,
     {| dest :=
          {| docs := foldl upsert_record (docs (dest s))
                       (written env (expected_records (batch env coins) preds));
             unique_index := true |};
        trace :=
          trace s ++ scored_prefix env config coins
          ++ (update_event
                <$> attempted env (expected_records (batch env coins) preds))
          ++ [Log ERROR (ErrorSaving ServerError); Close; Log INFO Completed] |})
  ∧ r ∉ written env (expected_records (batch env coins) preds).
Proof.
  intros Hsc Hr Hf. split.
  - rewrite (scored_run env config s coins model preds Hsc).
    rewrite bool_decide_eq_false_2
      by (intros He; rewrite He in Hr; by apply elem_of_nil in Hr).
    unfold save_report.
    assert (existsb (write_fault env) (expected_records (batch env coins) preds)
            = true) as ->; [|done].
    apply existsb_exists. exists r. split; [|done]. by apply list_elem_of_In.
  - intros Hw. apply written_no_fault in Hw. congruence.
Qed.

Lemma completion_logged_after_failed_write_witness :
  orchestrator_stage2 ex.env_fault ex.config ex.s0
  = (Value tt,
     {| dest :=
          {| docs := [expected_record ex.btc_new (Num (7 # 10)%Q)];
             unique_index := true |};
        trace :=
          scored_prefix ex.env_fault ex.config ["BTCUSDT"; "SOLUSDT"; "ADAUSDT"]
          ++ [update_event (expected_record ex.btc_new (Num (7 # 10)%Q));
              update_event (expected_record ex.sol (Num (7 # 10)%Q));
              Log ERROR (ErrorSaving ServerError); Close; Log INFO Completed] |}).
Proof.
  apply (proj1 (completion_logged_after_failed_write
                  ex.env_fault ex.config ex.s0 ["BTCUSDT"; "SOLUSDT"; "ADAUSDT"]
                  ex.flat_model (replicate 3 (Num (7 # 10)%Q))
                  (expected_record ex.sol (Num (7 # 10)%Q))
                  ex_env_fault_scored
                  ltac:(apply list_elem_of_In; vm_compute; tauto)
                  eq_refl)).
Defined.

(** ** The coins file is tested first *)

Lemma ends_with_sep_app (path tail : string) :
  tail ≠ "" → os.ends_with_sep tail = false →
  os.ends_with_sep (path +:+ tail) = false.
Proof.
  intros Hne Htail. induction path as [|a path IH]; [done|].
  change (String a path +:+ tail) with (String a (path +:+ tail)).
  destruct (path +:+ tail) as [|a' rest] eqn:Heq.
  { destruct path; [done|discriminate]. }
  rewrite <- IH.
  by destruct a as [[] [] [] [] [] [] [] []].
Qed.

Lemma join2_parent base :
  os.join2 base ".."
  = if bool_decide (base = "") || os.ends_with_sep base
    then base +:+ ".." else base +:+ "/..".
Proof. done. Qed.

Lemma path_join_resolved base name :
  os.path_join base name
  = if os.starts_with_sep name then name
    else os.join2 base ".." +:+ "/" +:+ name.
Proof.
  unfold os.path_join. unfold os.join2 at 1.
  destruct (os.starts_with_sep name); [done|].
  assert (os.join2 base ".." ≠ "") as Hne by (apply join2_nonempty; by right).
  rewrite bool_decide_eq_false_2 by done. simpl.
  assert (os.ends_with_sep (os.join2 base "..") = false) as ->; [|done].
  rewrite join2_parent.
  destruct (bool_decide (base = "") || os.ends_with_sep base);
    by apply ends_with_sep_app.
Qed.

(** X17. With a complete configuration, a coins file that does not exist
    ends the run at the first path test: the run logs the path it looked
    for and returns; the model file is not looked for, nothing is read and
    the store is not contacted. The path it looks for is the configured name
    itself when that name is absolute, and otherwise the name under the
    parent of the source directory. *)
Theorem missing_coins_file_stops_first env config s :
  missing_keys config = [] →
  fs env !! coins_path env config = None →
  orchestrator_stage2 env config s
  = (Returned,
     extend s [PathExists (coins_path env config);
               Log ERROR (CoinsFileNotFound (coins_path env config))])
  ∧ (∀ name,
       config !! "coins_file" = Some name →
       coins_path env config
       = if os.starts_with_sep name then name
         else os.join2 (base_dir env) ".." +:+ "/" +:+ name)
  ∧ os.join2 (base_dir env) ".."
    = if bool_decide (base_dir env = "") || os.ends_with_sep (base_dir env)
      then base_dir env +:+ ".." else base_dir env +:+ "/..".
Proof.
  intros Hcfg Hf. split_and!.
  - unfold orchestrator_stage2.
    rewrite bool_decide_eq_true_2 by done. simpl.
    fold (coins_path env config) (model_path env config).
    erewrite bind_value by apply path_exists_run.
    rewrite Hf. simpl. mrun. by rewrite <- !app_assoc.
  - intros name Hname. unfold coins_path. rewrite Hname. simpl.
    apply path_join_resolved.
  - apply join2_parent.
Qed.

Lemma missing_coins_file_stops_first_witness :
  orchestrator_stage2 ex.env (<["coins_file" := "/data/none.json"]> ex.config) ex.s0
  = (Returned,
     extend ex.s0 [PathExists "/data/none.json";
                   Log ERROR (CoinsFileNotFound "/data/none.json")]).
Proof.
  refine (proj1 (missing_coins_file_stops_first
                   ex.env (<["coins_file" := "/data/none.json"]> ex.config) ex.s0
                   _ _)); by vm_compute.
Defined.
